(** * quandry: deferred comparisons and chainable, caching query views

    A shallow embedding of [quandry.py].  The program is small but every
    interesting property of it lives in shared mutable state: a [Query]
    node owns a cache list that is appended to while generators run, a
    node's [_result] is a one-shot generator shared by every iteration of
    that node, and the generator expressions built by [filter] and
    [exclude] read the loop variable [value] of the call that built them
    when they run, not when they are built.  The embedding therefore keeps
    an explicit store of nodes, generator objects, closure cells and list
    objects, and gives [next] on a generator as a function on that store.

    The model assumes that source collections are immutable lists of data
    objects, none of which is callable, and that a predicate is a function
    from an element to a truth value or an exception, without effects of
    its own.
    Running a generator takes fuel, and results are stated as: there is
    an amount of fuel that gives this result, which more fuel does not
    change ([next_mono], [drain_mono], [py_list_mono]). *)

From stdpp Require Import base option list strings.
From Stdlib Require Import ZArith Lia.

Set Default Proof Using "Type".

(** ** Exceptions and fallible results *)

Inductive exn : Type :=
  | AttributeError
  | TypeError
  | NotImplementedError
  | ValueError.

Inductive res (A : Type) : Type :=
  | Ok (a : A)
  | Raise (e : exn).
Arguments Ok {A} a.
Arguments Raise {A} e.

Definition rbind {A B : Type} (m : res A) (k : A → res B) : res B :=
  match m with
  | Ok a => k a
  | Raise e => Raise e
  end.

(** ** The Python data model the program relies on

    [getattr] is the built-in the accessor chain calls; [py_eq], [py_lt]
    and [py_gt] are the truth values of [x == y], [x < y] and [x > y].
    Ordering comparisons and attribute lookups may raise; equality of data
    objects does not. *)

Class PyModel (obj : Type) : Type := {
  getattr : obj → string → res obj;
  py_eq : obj → obj → bool;
  py_lt : obj → obj → res bool;
  py_gt : obj → obj → res bool
}.

(** Objects are named by their position in the store. *)
Abbreviation nid := nat (only parsing).  (* Query objects *)
Abbreviation gid := nat (only parsing).  (* generator objects *)
Abbreviation cid := nat (only parsing).  (* closure cells *)
Abbreviation lid := nat (only parsing).  (* list objects used as caches *)

Section Quandry.
Context {obj : Type} `{PyModel obj}.

(** A Python value passed as an argument: a data object, or a callable
    taking one element.  A callable is modelled by the truth value of what
    it returns, or the exception it raises. *)
Inductive pyval : Type :=
  | VObj (o : obj)
  | VFun (f : obj → res bool).

Definition callable (v : pyval) : bool :=
  match v with
  | VObj _ => false
  | VFun _ => true
  end.

(** [r != value].  Data objects use the default [__ne__], the negation of
    [__eq__]; a data object never equals a function. *)
Definition py_ne (r : obj) (value : pyval) : bool :=
  match value with
  | VObj o => negb (py_eq r o)
  | VFun _ => true
  end.

(** ** class Value *)

Record Value : Type := mkValue { _getattr : option (obj → res obj) }.

(** [Value.__init__] *)
Definition Value_init (_getattr : option (obj → res obj)) : Value :=
  mkValue _getattr.

(** [Value._check_attr] *)
Definition Value_check_attr (self : Value) (comp : obj → res bool)
  : obj → res bool :=
  let check := fun x =>
    match _getattr self with
    | Some ga => rbind (ga x) comp
    | None => Raise TypeError (* calling [None]; [check] is not returned then *)
    end in
  match _getattr self with
  | Some _ => check
  | None => comp
  end.

(** [Value.__eq__], [Value.__lt__], [Value.__gt__] *)
Definition Value_eq (self : Value) (other : obj) : obj → res bool :=
  Value_check_attr self (fun x => Ok (py_eq x other)).

Definition Value_lt (self : Value) (other : obj) : obj → res bool :=
  Value_check_attr self (fun x => py_lt x other).

Definition Value_gt (self : Value) (other : obj) : obj → res bool :=
  Value_check_attr self (fun x => py_gt x other).

(** [Value.__getattr__]: reached for every name that is not an attribute
    of the [Value] object itself. *)
Definition Value_getattr (self : Value) (name : string) : Value :=
  let _getattr := fun o =>
    match _getattr self with
    | Some ga => rbind (ga o) (fun o' => getattr o' name)
    | None => getattr o name
    end in
  Value_init (Some _getattr).

(** [value.a1.a2...ak] *)
Definition Value_chain (v : Value) (names : list string) : Value :=
  fold_left Value_getattr names v.

(** The accessor of a [Value] as a function: the identity when there is
    none. *)
Definition accessor (v : Value) (x : obj) : res obj :=
  match _getattr v with
  | Some ga => ga x
  | None => Ok x
  end.

(** What the specification says a chain of names denotes: each lookup in
    order, starting from the element. *)
Fixpoint resolve (names : list string) (x : obj) : res obj :=
  match names with
  | [] => Ok x
  | name :: names => rbind (getattr x name) (resolve names)
  end.

(** ** The store *)


(** What a node's [_result] can hold. *)
Inductive iterable : Type :=
  | IList (l : list obj)   (* a source collection *)
  | IGen (g : gid)         (* a generator object *)
  | IQuery (q : nid).      (* a Query node *)

(** What [iter(x)] returns: a list iterator (the elements still to come)
    or a generator, which is its own iterator. *)
Inductive iterator : Type :=
  | ItList (rest : list obj)
  | ItGen (g : gid).

(** The two conditions of the generator expressions in the source:
    [if value(r)] and [if r != value]. *)
Inductive cond : Type :=
  | CondCall
  | CondNe.

(** The frame of a generator object. *)
Inductive gen : Type :=
  | QIterStart (self : nid)
      (* Query.__iter__, created and not yet started *)
  | QIterReplay (cache : lid) (i : nat)
      (* suspended in [for r in self._cached_result] *)
  | QIterWalk (self : nid) (it : iterator)
      (* suspended in [for r in self.result] *)
  | GenExp (k : cond) (src : iterator) (value : cid)
      (* [(r for r in result if ...)]; [value] is the enclosing call's
         variable, read when the generator runs *)
  | GenRunning
  | GenDone.

Inductive action : Type :=
  | ActFilter
  | ActExclude.

Definition action_name (a : action) : string :=
  match a with
  | ActFilter => "filter"%string
  | ActExclude => "exclude"%string
  end.

Record Query : Type := mkQuery {
  _result : option iterable;
  _cached_result : lid;
  _parent : option nid;
  _actions : list (string * action)
}.

Record heap : Type := mkHeap {
  nodes : list Query;
  gens : list gen;
  cells : list (option pyval);
  lists : list (list obj)
}.

Definition empty_heap : heap := mkHeap [] [] [] [].

Definition set_node (q : nid) (n : Query) (h : heap) : heap :=
  mkHeap (<[q := n]> (nodes h)) (gens h) (cells h) (lists h).

Definition set_gen (g : gid) (st : gen) (h : heap) : heap :=
  mkHeap (nodes h) (<[g := st]> (gens h)) (cells h) (lists h).

Definition set_cell (c : cid) (v : pyval) (h : heap) : heap :=
  mkHeap (nodes h) (gens h) (<[c := Some v]> (cells h)) (lists h).

Definition list_append (l : lid) (r : obj) (h : heap) : heap :=
  mkHeap (nodes h) (gens h) (cells h) (alter (λ xs, xs ++ [r]) l (lists h)).

Definition alloc_node (n : Query) (h : heap) : heap * nid :=
  (mkHeap (nodes h ++ [n]) (gens h) (cells h) (lists h), length (nodes h)).

Definition alloc_gen (st : gen) (h : heap) : heap * gid :=
  (mkHeap (nodes h) (gens h ++ [st]) (cells h) (lists h), length (gens h)).

Definition alloc_cell (h : heap) : heap * cid :=
  (mkHeap (nodes h) (gens h) (cells h ++ [None]) (lists h), length (cells h)).

Definition alloc_list (h : heap) : heap * lid :=
  (mkHeap (nodes h) (gens h) (cells h) (lists h ++ [[]]), length (lists h)).

(** ** class Query *)

(** The dict comprehension [{arg.__name__: arg for arg in args}]. *)
Fixpoint dict_set (k : string) (a : action) (d : list (string * action))
  : list (string * action) :=
  match d with
  | [] => [(k, a)]
  | (k', a') :: d' =>
      if String.eqb k k' then (k, a) :: d' else (k', a') :: dict_set k a d'
  end.

Fixpoint dict_get (k : string) (d : list (string * action)) : option action :=
  match d with
  | [] => None
  | (k', a) :: d' => if String.eqb k k' then Some a else dict_get k d'
  end.

Definition make_actions (args : list action) : list (string * action) :=
  fold_left (λ d a, dict_set (action_name a) a d) args [].

(** [Query.__init__] *)
Definition Query_init (args : list action) (parent : option nid) (h : heap)
  : heap * nid :=
  let '(h1, l) := alloc_list h in
  alloc_node (mkQuery None l parent (make_actions args)) h1.

(** The [result] property.  The walk up the parents is bounded by the
    number of nodes, which is enough whenever the chain is not cyclic;
    [None] stands for a cyclic or dangling chain, [Some None] for the
    Python value [None]. *)
Fixpoint Query_result_from (fuel : nat) (h : heap) (self : nid)
  : option (option iterable) :=
  match fuel with
  | 0 => None
  | S fuel =>
      match nodes h !! self with
      | None => None
      | Some n =>
          match _result n, _parent n with
          | Some r, _ => Some (Some r)
          | None, Some p => Query_result_from fuel h p
          | None, None => Some None
          end
      end
  end.

Definition Query_result (h : heap) (self : nid) : option (option iterable) :=
  Query_result_from (length (nodes h)) h self.

(** The [result] setter *)
Definition Query_set_result (self : nid) (value : iterable) (h : heap)
  : option heap :=
  n ← nodes h !! self;
  Some (set_node self
          (mkQuery (Some value) (_cached_result n) (_parent n) (_actions n)) h).

(** [Query.__call__]; it returns [self]. *)
Definition Query_call (self : nid) (o : iterable) (h : heap) : option heap :=
  n ← nodes h !! self;
  let '(h1, l) := alloc_list h in
  Some (set_node self (mkQuery (Some o) l (_parent n) (_actions n)) h1).

(** ** Generators *)

(** The outcome of [next(g)]: a value, [StopIteration], or another
    exception. *)
Inductive outcome : Type :=
  | Yield (r : obj)
  | Stop
  | Err (e : exn).

(** [iter(x)]; calling [Query.__iter__] creates a generator object. *)
Definition iter (x : iterable) (h : heap) : heap * iterator :=
  match x with
  | IList l => (h, ItList l)
  | IGen g => (h, ItGen g)
  | IQuery q => let '(h1, g) := alloc_gen (QIterStart q) h in (h1, ItGen g)
  end.

(** [self._cached_result.append(r)] *)
Definition cache_append (self : nid) (r : obj) (h : heap) : option heap :=
  n ← nodes h !! self;
  Some (list_append (_cached_result n) r h).

(** The tests of the generator expressions, on the current [value]. *)
Definition eval_cond (k : cond) (value : pyval) (r : obj) : res bool :=
  match k, value with
  | CondCall, VFun f => f r
  | CondCall, VObj _ => Raise TypeError
  | CondNe, _ => Ok (py_ne r value)
  end.

Definition finish (g : gid) (o : outcome) (h : heap) : option (heap * outcome) :=
  Some (set_gen g GenDone h, o).

Section next_body.
(** [rec] is [next] on the generators this one pulls from. *)
Variable rec : heap → gid → option (heap * outcome).

(** One step of an iterator held by a frame. *)
Definition pull (h : heap) (it : iterator)
  : option (heap * outcome * iterator) :=
  match it with
  | ItList [] => Some (h, Stop, it)
  | ItList (r :: rest) => Some (h, Yield r, ItList rest)
  | ItGen g =>
      match rec h g with
      | Some (h1, o) => Some (h1, o, it)
      | None => None
      end
  end.

(** lines 52-54: the body of [for r in self.result], after the
    iterator gave [p]. *)
Definition walk_k (g : gid) (self : nid)
    (p : option (heap * outcome * iterator)) : option (heap * outcome) :=
  match p with
  | None => None
  | Some (h1, Yield r, it') =>
      h2 ← cache_append self r h1;
      Some (set_gen g (QIterWalk self it') h2, Yield r)
  | Some (h1, Stop, _) => finish g Stop h1
  | Some (h1, Err e, _) => finish g (Err e) h1
  end.

(** lines 49-51: [for r in self._cached_result: yield r], then
    [return None]. *)
Definition step_replay (h : heap) (g : gid) (cache : lid) (i : nat)
  : option (heap * outcome) :=
  xs ← lists h !! cache;
  match xs !! i with
  | Some r => Some (set_gen g (QIterReplay cache (S i)) h, Yield r)
  | None => finish g Stop h
  end.

(** lines 48-52: a generator of [Query.__iter__] that starts. *)
Definition step_start (h : heap) (g : gid) (self : nid)
  : option (heap * outcome) :=
  n ← nodes h !! self;
  xs ← lists h !! (_cached_result n);
  match xs with
  | _ :: _ => step_replay h g (_cached_result n) 0
  | [] =>
      match Query_result h self with
      | None => None
      | Some None => finish g (Err TypeError) h  (* [for r in None] *)
      | Some (Some x) =>
          let '(h1, it) := iter x h in
          walk_k g self (pull h1 it)
      end
  end.

(** A generator expression, after its source gave [p]: yield the
    element when the test holds, go on to the next one otherwise. *)
Definition exp_k (g : gid) (k : cond) (value : cid)
    (p : option (heap * outcome * iterator)) : option (heap * outcome) :=
  match p with
  | None => None
  | Some (h1, Yield r, it') =>
      match cells h1 !! value with
      | Some (Some v) =>
          match eval_cond k v r with
          | Ok true => Some (set_gen g (GenExp k it' value) h1, Yield r)
          | Ok false => rec (set_gen g (GenExp k it' value) h1) g
          | Raise e => finish g (Err e) h1
          end
      | _ => None
      end
  | Some (h1, Stop, _) => finish g Stop h1
  | Some (h1, Err e, _) => finish g (Err e) h1
  end.

(** [next(g)].  A finished generator raises [StopIteration]; one that is
    already executing raises [ValueError]. *)
Definition next_body (h : heap) (g : gid) : option (heap * outcome) :=
  st ← gens h !! g;
  let hr := set_gen g GenRunning h in
  match st with
  | GenDone => Some (h, Stop)
  | GenRunning => Some (h, Err ValueError)
  | QIterStart self => step_start hr g self
  | QIterReplay cache i => step_replay hr g cache i
  | QIterWalk self it => walk_k g self (pull hr it)
  | GenExp k src value => exp_k g k value (pull hr src)
  end.
End next_body.

Fixpoint next (fuel : nat) (h : heap) (g : gid) : option (heap * outcome) :=
  match fuel with
  | 0 => None
  | S fuel => next_body (next fuel) h g
  end.

(** The loop of [list(g)]: the elements until [StopIteration], or the
    exception that ended the loop. *)
Fixpoint drain (fuel : nat) (h : heap) (g : gid)
  : option (heap * res (list obj)) :=
  match fuel with
  | 0 => None
  | S fuel =>
      match next fuel h g with
      | None => None
      | Some (h1, Yield r) =>
          match drain fuel h1 g with
          | Some (h2, Ok rs) => Some (h2, Ok (r :: rs))
          | other => other
          end
      | Some (h1, Stop) => Some (h1, Ok [])
      | Some (h1, Err e) => Some (h1, Raise e)
      end
  end.

(** [list(q)] for a node [q] *)
Definition py_list (fuel : nat) (q : nid) (h : heap)
  : option (heap * res (list obj)) :=
  let '(h1, g) := alloc_gen (QIterStart q) h in
  drain fuel h1 g.

(** A caller that takes at most [k] elements from [g] and stops. *)
Fixpoint take_next (fuel : nat) (k : nat) (h : heap) (g : gid)
  : option (heap * res (list obj)) :=
  match k with
  | 0 => Some (h, Ok [])
  | S k =>
      match next fuel h g with
      | None => None
      | Some (h1, Yield r) =>
          match take_next fuel k h1 g with
          | Some (h2, Ok rs) => Some (h2, Ok (r :: rs))
          | other => other
          end
      | Some (h1, Stop) => Some (h1, Ok [])
      | Some (h1, Err e) => Some (h1, Raise e)
      end
  end.

(** A partial iteration of [q]: a fresh iterator, [k] elements taken, the
    iterator abandoned (closing a suspended generator finishes it). *)
Definition partial_iter (fuel : nat) (k : nat) (q : nid) (h : heap)
  : option (heap * res (list obj)) :=
  let '(h1, g) := alloc_gen (QIterStart q) h in
  match take_next fuel k h1 g with
  | Some (h2, r) => Some (set_gen g GenDone h2, r)
  | None => None
  end.

(** ** The operations *)

(** One round of a [for value in ...] loop of [filter] or [exclude]: the
    loop variable is assigned, and [result] becomes a generator
    expression over [iter(result)]. *)
Definition wrap_exp (k : cond) (c : cid) (value : pyval)
    (st : heap * iterable) : heap * iterable :=
  let '(h, result) := st in
  let h1 := set_cell c value h in
  let '(h2, it) := iter result h1 in
  let '(h3, g) := alloc_gen (GenExp k it c) h2 in
  (h3, IGen g).

(** A loop of [filter]: every value must be callable. *)
Fixpoint filter_loop (c : cid) (values : list pyval) (st : heap * iterable)
  : res (heap * iterable) :=
  match values with
  | [] => Ok st
  | value :: values =>
      if callable value
      then filter_loop c values (wrap_exp CondCall c value st)
      else Raise NotImplementedError
  end.

(** The first loop of [exclude]: no test on the value. *)
Definition exclude_loop (c : cid) (values : list pyval) (st : heap * iterable)
  : heap * iterable :=
  fold_left (λ st value, wrap_exp CondNe c value st) values st.

(** The second loop of [filter] and of [exclude], over
    [kwargs.items()]: the key is bound and not used. *)
Fixpoint filter_items (c : cid) (items : list (string * pyval))
    (st : heap * iterable) : res (heap * iterable) :=
  match items with
  | [] => Ok st
  | (key, value) :: items =>
      if callable value
      then filter_items c items (wrap_exp CondCall c value st)
      else Raise NotImplementedError
  end.

(** Binding the arguments of the call [func(self, *args, **kwargs)] of
    line 121 to the parameters [(result, *args, **kwargs)] of an
    operation: [self] is the value of [result], and a keyword named
    [result] would give it a second one, on which Python raises
    [TypeError] before the body runs. *)
Definition gives_result_twice (kwargs : list (string * pyval)) : bool :=
  existsb (λ kv, String.eqb kv.1 "result") kwargs.

(** [filter], called with [result], positional [args] and named
    [kwargs]; [result] is the node the operation was called on.  The cell
    [c] is the variable [value] of this call. *)
Definition q_filter (self : nid) (args : list pyval)
    (kwargs : list (string * pyval)) (h : heap) : res (heap * iterable) :=
  if gives_result_twice kwargs then Raise TypeError else
  let '(h1, c) := alloc_cell h in
  rbind (filter_loop c args (h1, IQuery self)) (filter_items c kwargs).

(** [exclude], with the same parameters *)
Definition q_exclude (self : nid) (args : list pyval)
    (kwargs : list (string * pyval)) (h : heap) : res (heap * iterable) :=
  if gives_result_twice kwargs then Raise TypeError else
  let '(h1, c) := alloc_cell h in
  filter_items c kwargs (exclude_loop c args (h1, IQuery self)).

Definition run_action (a : action) :=
  match a with
  | ActFilter => q_filter
  | ActExclude => q_exclude
  end.

(** [queryable]: the [func_wrapper] of an operation bound to [self]. *)
Definition func_wrapper (a : action) (self : nid) (args : list pyval)
    (kwargs : list (string * pyval)) (h : heap) : option (res (heap * nid)) :=
  n ← nodes h !! self;
  let '(h1, query) := Query_init (map snd (_actions n)) (Some self) h in
  match run_action a self args kwargs h1 with
  | Raise e => Some (Raise e)
  | Ok (h2, result) =>
      h3 ← Query_set_result query result h2;
      Some (Ok (h3, query))
  end.

(** [Query.__getattr__] followed by the call: the method call [self.name(...)] *)
Definition Query_getattr (self : nid) (name : string) (h : heap)
  : option (res action) :=
  n ← nodes h !! self;
  match dict_get name (_actions n) with
  | Some a => Some (Ok a)
  | None => Some (Raise AttributeError)
  end.

Definition call_method (self : nid) (name : string) (args : list pyval)
    (kwargs : list (string * pyval)) (h : heap) : option (res (heap * nid)) :=
  r ← Query_getattr self name h;
  match r with
  | Ok a => func_wrapper a self args kwargs h
  | Raise e => Some (Raise e)
  end.

(** ** Chains of generators

    Iterating a view runs a stack of generators: at the bottom the list
    iterator over the source, above it, for every node of the chain, the
    generator of [Query.__iter__] that appends to the node's cache, and for
    every predicate a generator expression.  A [layer] names the objects
    of one generator; a stack lists the layers top first. *)

Inductive layer : Type :=
  | LNode (g : gid) (q : nid) (l : lid)
  | LExp (g : gid) (k : cond) (c : cid) (v : pyval).

Definition lgid (ly : layer) : gid :=
  match ly with
  | LNode g _ _ => g
  | LExp g _ _ _ => g
  end.

Definition gids (stk : list layer) : list gid := map lgid stk.

Fixpoint lids (stk : list layer) : list lid :=
  match stk with
  | [] => []
  | LNode _ _ l :: below => l :: lids below
  | LExp _ _ _ _ :: below => lids below
  end.

(** The iterator a generator above [stk] holds, and the iterable it came
    from; [todo] are the source elements still to come. *)
Definition src_it (stk : list layer) (todo : list obj) : iterator :=
  match stk with
  | [] => ItList todo
  | ly :: _ => ItGen (lgid ly)
  end.

Definition src_ible (stk : list layer) (todo : list obj) : iterable :=
  match stk with
  | [] => IList todo
  | ly :: _ => IGen (lgid ly)
  end.

(** The tests of a stack, top first: a test is the condition of a
    generator expression and the value it reads. *)
Definition test : Type := cond * pyval.

Fixpoint tests_of (stk : list layer) : list test :=
  match stk with
  | [] => []
  | LNode _ _ _ :: below => tests_of below
  | LExp _ k _ v :: below => (k, v) :: tests_of below
  end.

(** Whether a source element comes out above the tests [ts]: the tests
    run bottom up, and the first one that fails or raises decides. *)
Fixpoint thr (ts : list test) (x : obj) : res bool :=
  match ts with
  | [] => Ok true
  | (k, v) :: below =>
      match thr below x with
      | Ok true => eval_cond k v x
      | other => other
      end
  end.

Definition passes (ts : list test) (x : obj) : bool :=
  match thr ts x with
  | Ok true => true
  | _ => false
  end.

(** What [list] gets from a source [todo] seen through the tests. *)
Fixpoint run (ts : list test) (todo : list obj) : res (list obj) :=
  match todo with
  | [] => Ok []
  | x :: rest =>
      match thr ts x with
      | Ok true => rbind (run ts rest) (λ rs, Ok (x :: rs))
      | Ok false => run ts rest
      | Raise e => Raise e
      end
  end.

(** The store between two steps of the iteration: [done] are the source
    elements consumed so far, [todo] those still to come.  A node's
    generator is walking its source, or has not started while nothing
    reached it; its cache holds what came out below it. *)
Fixpoint Inv (stk : list layer) (done todo : list obj) (h : heap) : Prop :=
  match stk with
  | [] => True
  | LNode g q l :: below =>
      (∃ n, nodes h !! q = Some n ∧ _cached_result n = l ∧
         (gens h !! g = Some (QIterWalk q (src_it below todo)) ∨
          (gens h !! g = Some (QIterStart q) ∧
           List.filter (passes (tests_of below)) done = [] ∧
           _result n = Some (src_ible below todo)))) ∧
      lists h !! l = Some (List.filter (passes (tests_of below)) done) ∧
      (g ∉ gids below) ∧ (l ∉ lids below) ∧ Inv below done todo h
  | LExp g k c v :: below =>
      gens h !! g = Some (GenExp k (src_it below todo) c) ∧
      cells h !! c = Some (Some v) ∧
      (g ∉ gids below) ∧ Inv below done todo h
  end.

(** The store after the source is exhausted. *)
Fixpoint Final (stk : list layer) (done : list obj) (h : heap) : Prop :=
  match stk with
  | [] => True
  | LNode g q l :: below =>
      gens h !! g = Some GenDone ∧
      (∃ n, nodes h !! q = Some n ∧ _cached_result n = l) ∧
      lists h !! l = Some (List.filter (passes (tests_of below)) done) ∧
      Final below done h
  | LExp g _ _ _ :: below =>
      gens h !! g = Some GenDone ∧ Final below done h
  end.

(** Nothing outside the generators and caches of the stack changed. *)
Definition frame (stk : list layer) (h h' : heap) : Prop :=
  nodes h' = nodes h ∧ cells h' = cells h ∧
  length (gens h') = length (gens h) ∧
  length (lists h') = length (lists h) ∧
  (∀ g, g ∉ gids stk → gens h' !! g = gens h !! g) ∧
  (∀ l, l ∉ lids stk → lists h' !! l = lists h !! l).

Definition pulls (h : heap) (it : iterator)
    (r : heap * outcome * iterator) : Prop :=
  ∃ fuel, pull (next fuel) h it = Some r.

(** What pulling the next source element [x] through the stack does: [x]
    comes out at the top; or it is dropped on the way, and the pull goes
    on with the elements after it; or a test raises. *)
Definition step_spec (stk : list layer) : Prop :=
  ∀ done x rest h, Inv stk done (x :: rest) h →
    match thr (tests_of stk) x with
    | Ok true =>
        ∃ h', pulls h (src_it stk (x :: rest)) (h', Yield x, src_it stk rest) ∧
              Inv stk (done ++ [x]) rest h' ∧ frame stk h h'
    | Ok false =>
        ∃ h', Inv stk (done ++ [x]) rest h' ∧ frame stk h h' ∧
              ∀ p, pulls h' (src_it stk rest) p →
                   pulls h (src_it stk (x :: rest)) p
    | Raise e =>
        ∃ h', pulls h (src_it stk (x :: rest)) (h', Err e, src_it stk rest) ∧
              frame stk h h'
    end.

(** Pulling from a stack whose source is exhausted. *)
Definition stop_spec (stk : list layer) : Prop :=
  ∀ done h, Inv stk done [] h →
    ∃ h', pulls h (src_it stk []) (h', Stop, src_it stk []) ∧
          Final stk done h' ∧ frame stk h h'.

(** The nodes a stack iterates: each with its cache and the tests below
    it. *)
Fixpoint node_caches (stk : list layer) : list (nat * nat * list test) :=
  match stk with
  | [] => []
  | LNode _ q l :: below => (q, l, tests_of below) :: node_caches below
  | LExp _ _ _ _ :: below => node_caches below
  end.

(** ** Views that were built and not iterated yet *)

(** The registry of the test usage: [Query(filter, exclude)]. *)
Definition std_actions : list (string * action) :=
  make_actions [ActFilter; ActExclude].

(** [q] is a node of that registry whose cache [l] is still empty and
    whose result is the top of the generators [below], none of which has
    taken an element of the source [src] yet. *)
Definition View (q : nid) (l : lid) (below : list layer) (src : list obj)
    (h : heap) : Prop :=
  (∃ n, nodes h !! q = Some n ∧ _cached_result n = l ∧
        _result n = Some (src_ible below src) ∧ _actions n = std_actions) ∧
  lists h !! l = Some [] ∧ (l ∉ lids below) ∧ Inv below [] src h.

(** The store [h'] has every object of [h], unchanged. *)
Definition extends (h h' : heap) : Prop :=
  (∀ i n, nodes h !! i = Some n → nodes h' !! i = Some n) ∧
  (∀ i g, gens h !! i = Some g → gens h' !! i = Some g) ∧
  (∀ i c, cells h !! i = Some c → cells h' !! i = Some c) ∧
  (∀ i l, lists h !! i = Some l → lists h' !! i = Some l).

(** A method call on a view, and a chain of them:
    [q.name1(...).name2(...)]. *)
Inductive call : Type :=
  | Call (a : action) (args : list pyval) (kwargs : list (string * pyval)).

Fixpoint chain (calls : list call) (q : nid) (h : heap)
  : option (res (heap * nid)) :=
  match calls with
  | [] => Some (Ok (h, q))
  | Call a args kwargs :: calls =>
      match call_method q (action_name a) args kwargs h with
      | Some (Ok (h', q')) => chain calls q' h'
      | other => other
      end
  end.

(** The generator expressions a call creates, first one first: the
    condition of each and the value the variable [value] has when it is
    created.  [None] when the call raises [TypeError] or
    [NotImplementedError]. *)
Definition rounds (c : call) : option (list test) :=
  match c with
  | Call ActFilter args kwargs =>
      if gives_result_twice kwargs then None
      else if forallb callable (args ++ map snd kwargs)
      then Some (map (λ v, (CondCall, v)) (args ++ map snd kwargs))
      else None
  | Call ActExclude args kwargs =>
      if gives_result_twice kwargs then None
      else if forallb callable (map snd kwargs)
      then Some (map (λ v, (CondNe, v)) args ++
                 map (λ v, (CondCall, v)) (map snd kwargs))
      else None
  end.

(** The tests these generator expressions make when they run: by then
    the variable holds the value of the last round. *)
Definition applied (rs : list test) : list test :=
  match last rs with
  | Some (_, v) => map (λ t : test, (t.1, v)) rs
  | None => []
  end.

(** The tests of a call that creates at least one generator expression,
    and of a chain of such calls. *)
Definition call_tests (c : call) : option (list test) :=
  match rounds c with
  | Some (r :: rs) => Some (applied (r :: rs))
  | _ => None
  end.

Fixpoint calls_tests (calls : list call) : option (list (list test)) :=
  match calls with
  | [] => Some []
  | c :: calls =>
      match call_tests c, calls_tests calls with
      | Some ts, Some tss => Some (ts :: tss)
      | _, _ => None
      end
  end.

(** The generators a call creates above the generator [G] of the node it
    was called on: one per condition, each over the one before, all
    reading the cell [c]; and the stack they make over [base]. *)
Definition exp_gens (G c : nat) (ks : list cond) : list gen :=
  imap (λ i k, GenExp k (ItGen (G + i)) c) ks.

Fixpoint exp_stack (G c : nat) (v : pyval) (ks : list cond)
    (base : list layer) : list layer :=
  match ks with
  | [] => base
  | k :: ks => exp_stack (S G) c v ks (LExp (S G) k c v :: base)
  end.

(** A test holds on an element: it returns a true value. *)
Definition holds (x : obj) (t : test) : bool :=
  match eval_cond t.1 t.2 x with
  | Ok true => true
  | _ => false
  end.

Definition is_ok {A : Type} (m : res A) : bool :=
  match m with
  | Ok _ => true
  | Raise _ => false
  end.

(** No test raises on an element of the source. *)
Definition no_raise (src : list obj) (ts : list test) : bool :=
  forallb (λ x, forallb (λ t : test, is_ok (eval_cond t.1 t.2 x)) ts) src.

(** Parents are created before their children. *)
Definition parents_below (h : heap) : Prop :=
  ∀ q n p, nodes h !! q = Some n → _parent n = Some p → p < q.

(** [Q = Query(filter, exclude)] followed by [Q(src)], in any store. *)
Definition bound_root (src : list obj) (h : heap) : option (heap * nid) :=
  let '(h1, Q) := Query_init [ActFilter; ActExclude] None h in
  h2 ← Query_call Q (IList src) h1;
  Some (h2, Q).

(** The cache of a node. *)
Definition cache_of (h : heap) (q : nid) : option (list obj) :=
  n ← nodes h !! q;
  lists h !! _cached_result n.

(** ** Stacks over a cache that is replayed

    A generator of [Query.__iter__] that finds the cache of its node not
    empty gives the cached elements and takes nothing from the result of
    the node.  The generators above such a generator [gP] make a stack as
    before, with [gP] in the place of the source: [xs] is the cache of the
    node [p], held by the list [lP]; [done] are the elements replayed so
    far, [todo] those still to come. *)

(** [gP] counted as a layer of its own below the stack, for [gids],
    [src_it] and [frame]. *)
Definition on_base (gP : gid) (stk : list layer) : list layer :=
  stk ++ [LExp gP CondNe 0 (VFun (λ _, Ok true))].

Fixpoint InvR (gP : gid) (p : nid) (lP : lid) (xs : list obj)
    (stk : list layer) (done todo : list obj) (h : heap) : Prop :=
  match stk with
  | [] =>
      lists h !! lP = Some xs ∧ done ++ todo = xs ∧
      (gens h !! gP = Some (QIterReplay lP (length done)) ∨
       (done = [] ∧ xs ≠ [] ∧ gens h !! gP = Some (QIterStart p) ∧
        ∃ n, nodes h !! p = Some n ∧ _cached_result n = lP))
  | LNode g q l :: below =>
      (∃ n, nodes h !! q = Some n ∧ _cached_result n = l ∧
         (gens h !! g = Some (QIterWalk q (src_it (on_base gP below) todo)) ∨
          (gens h !! g = Some (QIterStart q) ∧
           List.filter (passes (tests_of below)) done = [] ∧
           _result n = Some (src_ible (on_base gP below) todo)))) ∧
      lists h !! l = Some (List.filter (passes (tests_of below)) done) ∧
      (g ∉ gids (on_base gP below)) ∧ (l ∉ lids below) ∧ l ≠ lP ∧
      InvR gP p lP xs below done todo h
  | LExp g k c v :: below =>
      gens h !! g = Some (GenExp k (src_it (on_base gP below) todo) c) ∧
      cells h !! c = Some (Some v) ∧
      (g ∉ gids (on_base gP below)) ∧
      InvR gP p lP xs below done todo h
  end.

(** Pulling the next cached element through the stack, and pulling when
    the cache is exhausted, as [step_spec] and [stop_spec]. *)
Definition stepR_spec (gP : gid) (p : nid) (lP : lid) (xs : list obj)
    (stk : list layer) : Prop :=
  ∀ done x rest h, InvR gP p lP xs stk done (x :: rest) h →
    match thr (tests_of stk) x with
    | Ok true =>
        ∃ h', pulls h (src_it (on_base gP stk) [])
                (h', Yield x, src_it (on_base gP stk) []) ∧
              InvR gP p lP xs stk (done ++ [x]) rest h' ∧
              frame (on_base gP stk) h h'
    | Ok false =>
        ∃ h', InvR gP p lP xs stk (done ++ [x]) rest h' ∧
              frame (on_base gP stk) h h' ∧
              ∀ r, pulls h' (src_it (on_base gP stk) []) r →
                   pulls h (src_it (on_base gP stk) []) r
    | Raise e =>
        ∃ h', pulls h (src_it (on_base gP stk) [])
                (h', Err e, src_it (on_base gP stk) []) ∧
              frame (on_base gP stk) h h'
    end.

Definition stopR_spec (gP : gid) (p : nid) (lP : lid) (xs : list obj)
    (stk : list layer) : Prop :=
  ∀ done h, InvR gP p lP xs stk done [] h →
    ∃ h', pulls h (src_it (on_base gP stk) [])
            (h', Stop, src_it (on_base gP stk) []) ∧
          frame (on_base gP stk) h h' ∧ lists h' = lists h.

End Quandry.

(** ** A concrete data model: integers and instances of plain classes *)

Inductive pyobj : Type :=
  | PInt (z : Z)
  | PInst (addr : nat) (attrs : pyattrs)
with pyattrs : Type :=
  | ANil
  | ACons (name : string) (v : pyobj) (rest : pyattrs).

Fixpoint attr_lookup (name : string) (attrs : pyattrs) : res pyobj :=
  match attrs with
  | ANil => Raise AttributeError
  | ACons k v rest => if String.eqb name k then Ok v else attr_lookup name rest
  end.

(** The data attributes of [int].  Its other attributes are methods,
    which are not data objects: a lookup of one of them is outside this
    model, which has no name for what it returns. *)
Definition int_attr (z : Z) (name : string) : res pyobj :=
  if String.eqb name "real" then Ok (PInt z)
  else if String.eqb name "numerator" then Ok (PInt z)
  else if String.eqb name "imag" then Ok (PInt 0)
  else if String.eqb name "denominator" then Ok (PInt 1)
  else Raise AttributeError.

(** Integers compare by value, instances by identity; an instance
    carries the attributes it was given. *)
#[export] Instance pyobj_model : PyModel pyobj := {
  getattr o name :=
    match o with
    | PInst _ attrs => attr_lookup name attrs
    | PInt z => int_attr z name
    end;
  py_eq a b :=
    match a, b with
    | PInt x, PInt y => Z.eqb x y
    | PInst x _, PInst y _ => Nat.eqb x y
    | _, _ => false
    end;
  py_lt a b :=
    match a, b with
    | PInt x, PInt y => Ok (Z.ltb x y)
    | _, _ => Raise TypeError
    end;
  py_gt a b :=
    match a, b with
    | PInt x, PInt y => Ok (Z.ltb y x)
    | _, _ => Raise TypeError
    end
}.

Definition ok {A : Type} (m : option (res A)) : option A :=
  match m with
  | Some (Ok a) => Some a
  | _ => None
  end.

(** The names of the test usage at the end of the source. *)
Definition value : Value (obj := pyobj) := Value_init None.
Definition ints (zs : list Z) : list pyobj := map PInt zs.
Definition Bleh (addr : nat) (v : pyobj) : pyobj :=
  PInst addr (ACons "prop" v ANil).

(** ** Scripts

    Runs of the program on concrete data, one definition per script; the
    comments give the Python statements. *)

Definition gt (c : Z) : pyval := VFun (Value_gt value (PInt c)).
Definition lt (c : Z) : pyval := VFun (Value_lt value (PInt c)).

(** The test usage at the end of the source, lines 179-197. *)
Definition test_usage_ints : option (list (res (list pyobj))) :=
  '(h, Q) ← bound_root (ints [1; 2; 3; 4; 5]%Z) empty_heap;
  '(h, result) ← ok (call_method Q "filter" [gt 2] [] h);
  '(h, result2) ← ok (call_method result "filter" [gt 3] [] h);
  '(h, result3) ← ok (call_method result2 "exclude" [VObj (PInt 5%Z)] [] h);
  '(h, a) ← py_list 30 result h;
  '(h, b) ← py_list 30 result h;
  '(h, c) ← py_list 30 result2 h;
  '(h, d) ← py_list 30 result3 h;
  Some [a; b; c; d].

(** Lines 212-214: a chain of three attributes. *)
Definition test_usage_nested : option (res (list pyobj)) :=
  let woah := [Bleh 1 (Bleh 2 (Bleh 3 (PInt 2%Z)));
               Bleh 4 (Bleh 5 (Bleh 6 (PInt 6%Z)))] in
  let pred := Value_gt (Value_chain value ["prop"; "prop"; "prop"]) (PInt 3%Z) in
  '(h, Q) ← bound_root woah empty_heap;
  '(h, result) ← ok (call_method Q "filter" [VFun pred] [] h);
  '(h, a) ← py_list 30 result h;
  Some a.

(** [list(Q([1, 2, 3]).filter(value > 1, value < 3))] *)
Definition filter_two_script : option (res (list pyobj)) :=
  '(h, Q) ← bound_root (ints [1; 2; 3]%Z) empty_heap;
  '(h, r) ← ok (call_method Q "filter" [gt 1; lt 3] [] h);
  '(h, a) ← py_list 30 r h;
  Some a.

(** [list(Q([1, 2, 3]).filter(value > 1).filter(value < 3))] *)
Definition filter_chained_script : option (res (list pyobj)) :=
  '(h, Q) ← bound_root (ints [1; 2; 3]%Z) empty_heap;
  '(h, r) ← ok (call_method Q "filter" [gt 1] [] h);
  '(h, r) ← ok (call_method r "filter" [lt 3] [] h);
  '(h, a) ← py_list 30 r h;
  Some a.

(** [R = Q([1, 2]); it = iter(R); next(it); R2 = Query(filter,
    exclude)(it); R(R2); a = list(R); b = list(R)] *)
Definition rebinding_script : option (res (list pyobj) * res (list pyobj)) :=
  '(h, R) ← bound_root (ints [1; 2]%Z) empty_heap;
  let '(h, it) := alloc_gen (QIterStart R) h in
  '(h, _) ← next 10 h it;
  let '(h, R2) := Query_init [ActFilter; ActExclude] None h in
  h ← Query_call R2 (IGen it) h;
  h ← Query_call R (IQuery R2) h;
  '(h, a) ← py_list 30 R h;
  '(h, b) ← py_list 30 R h;
  Some (a, b).

(** [R = Q([1, 2, 3]); it = iter(R); a = next(it); del it; b = list(R)],
    with the cache of [R] at the end. *)
Definition partial_script
  : option (res (list pyobj) * res (list pyobj) * option (list pyobj)) :=
  '(h, R) ← bound_root (ints [1; 2; 3]%Z) empty_heap;
  '(h, a) ← partial_iter 10 1 R h;
  '(h, b) ← py_list 30 R h;
  Some (a, b, cache_of h R).


(** [a = list(Q([1, 2, 3]).exclude(value > 2))] and
    [b = list(Q([1, 2, 3]).filter(value > 2))] *)
Definition exclude_callable_script
  : option (res (list pyobj) * res (list pyobj)) :=
  '(h, Q) ← bound_root (ints [1; 2; 3]%Z) empty_heap;
  '(h, r) ← ok (call_method Q "exclude" [gt 2] [] h);
  '(h, a) ← py_list 30 r h;
  '(h, Q') ← bound_root (ints [1; 2; 3]%Z) empty_heap;
  '(h, r') ← ok (call_method Q' "filter" [gt 2] [] h);
  '(h, b) ← py_list 30 r' h;
  Some (a, b).

(** [Q = Query(filter, exclude)]: the effective result of [Q], and
    [list(Q)]. *)
Definition unbound_script
  : option (option (iterable (obj := pyobj)) * res (list pyobj)) :=
  let '(h, Q) := Query_init [ActFilter; ActExclude] None empty_heap in
  r ← Query_result h Q;
  '(h, a) ← py_list 30 Q h;
  Some (r, a).

(** * Properties *)

Section QuandryFacts.
Context {obj : Type} `{PyModel obj}.
Implicit Types (h : heap (obj := obj)) (stk below : list (layer (obj := obj))).
Implicit Types (x : obj) (done todo rest src : list obj).
Implicit Types (calls : list (call (obj := obj))) (ts : list (test (obj := obj))).
Implicit Types (vs : list (pyval (obj := obj))) (tss : list (list (test (obj := obj)))).
Implicit Types (v : pyval (obj := obj)).

(** ** More fuel never changes a result *)

Lemma pull_mono (rec rec' : heap → gid → option (heap * outcome)) h it p :
  (∀ h g r, rec h g = Some r → rec' h g = Some r) →
  pull rec h it = Some p → pull rec' h it = Some p.
Proof.
  intros Hrec. destruct it as [[|r rest]|g]; simpl; try done.
  destruct (rec h g) as [[h1 o]|] eqn:E; [|done].
  by rewrite (Hrec _ _ _ E).
Qed.

Lemma exp_k_mono (rec rec' : heap → gid → option (heap * outcome)) g k c p r :
  (∀ h g r, rec h g = Some r → rec' h g = Some r) →
  exp_k rec g k c p = Some r → exp_k rec' g k c p = Some r.
Proof.
  intros Hrec. destruct p as [[[h1 [x| |e]] it']|]; simpl; try done.
  destruct (cells h1 !! c) as [[v|]|]; try done.
  destruct (eval_cond k v x) as [[|]|e]; try done.
  apply Hrec.
Qed.

Lemma next_body_mono (rec rec' : heap → gid → option (heap * outcome)) h g r :
  (∀ h g r, rec h g = Some r → rec' h g = Some r) →
  next_body rec h g = Some r → next_body rec' h g = Some r.
Proof.
  intros Hrec. unfold next_body.
  destruct (gens h !! g) as [st|]; simpl; [|done].
  destruct st as [self|cache i|self it|k src c| |]; try done.
  - unfold step_start.
    destruct (nodes _ !! self) as [n|]; simpl; [|done].
    destruct (lists _ !! _cached_result n) as [[|]|]; simpl; try done.
    destruct (Query_result _ self) as [[y|]|]; try done.
    destruct (iter y _) as [h1 it].
    destruct (pull rec h1 it) as [p|] eqn:E; [|done].
    by rewrite (pull_mono _ _ _ _ _ Hrec E).
  - destruct (pull rec _ it) as [p|] eqn:E; [|done].
    by rewrite (pull_mono _ _ _ _ _ Hrec E).
  - destruct (pull rec _ src) as [p|] eqn:E; [|done].
    rewrite (pull_mono _ _ _ _ _ Hrec E). by apply exp_k_mono.
Qed.

Lemma next_mono fuel fuel' h g r :
  fuel ≤ fuel' → next fuel h g = Some r → next fuel' h g = Some r.
Proof.
  revert fuel' h g r. induction fuel as [|fuel IH]; intros fuel' h g r Hle; [done|].
  destruct fuel' as [|fuel']; [lia|]. simpl.
  apply next_body_mono. intros h0 g0 r0. apply IH. lia.
Qed.

Lemma drain_mono fuel fuel' h g r :
  fuel ≤ fuel' → drain fuel h g = Some r → drain fuel' h g = Some r.
Proof.
  revert fuel' h g r. induction fuel as [|fuel IH]; intros fuel' h g r Hle; [done|].
  destruct fuel' as [|fuel']; [lia|]. simpl.
  destruct (next fuel h g) as [[h1 o]|] eqn:E; [|done].
  rewrite (next_mono fuel fuel' _ _ _ ltac:(lia) E).
  destruct o as [x| |e]; try done.
  destruct (drain fuel h1 g) as [[h2 rs]|] eqn:E2; [|done].
  by rewrite (IH fuel' _ _ _ ltac:(lia) E2).
Qed.

Lemma py_list_mono fuel fuel' q h r :
  fuel ≤ fuel' → py_list fuel q h = Some r → py_list fuel' q h = Some r.
Proof. unfold py_list. simpl. apply drain_mono. Qed.

Lemma pulls_mono_fuel fuel fuel' h it p :
  fuel ≤ fuel' → pull (next fuel) h it = Some p → pull (next fuel') h it = Some p.
Proof.
  intros Hle. apply pull_mono. intros h0 g0 r0. by apply next_mono.
Qed.

(** ** The store: reads after writes *)

Lemma set_gen_twice g st st' h : set_gen g st (set_gen g st' h) = set_gen g st h.
Proof. unfold set_gen; simpl. by rewrite list_insert_insert_eq. Qed.

Lemma set_gen_same g st h : gens h !! g = Some st → set_gen g st h = h.
Proof. intros E. destruct h. unfold set_gen; simpl in *. by rewrite list_insert_id. Qed.

Lemma gens_set_gen g st h :
  g < length (gens h) → gens (set_gen g st h) !! g = Some st.
Proof. intros Hlt. simpl. by apply list_lookup_insert_eq. Qed.




Lemma Query_result_own h q n y :
  nodes h !! q = Some n → _result n = Some y →
  Query_result h q = Some (Some y).
Proof.
  intros Hn Hr. unfold Query_result.
  destruct (length (nodes h)) eqn:E.
  - apply lookup_lt_Some in Hn. lia.
  - simpl. by rewrite Hn, Hr.
Qed.

(** ** Stacks: the invariant only reads its own objects *)

Lemma Inv_set_gen stk done todo h g st :
  g ∉ gids stk → Inv stk done todo h → Inv stk done todo (set_gen g st h).
Proof.
  induction stk as [|[g' q l|g' k c v] below IH]; simpl; [done|..].
  - intros Hg ((n & Hn & Hl & Hst) & Hc & Hg' & Hl' & Hbelow).
    apply not_elem_of_cons in Hg as [Hne Hg].
    split_and!; try done; [|by apply IH].
    exists n. split_and!; try done.
    by rewrite list_lookup_insert_ne.
  - intros Hg (Hst & Hc & Hg' & Hbelow).
    apply not_elem_of_cons in Hg as [Hne Hg].
    split_and!; try done; [|by apply IH].
    by rewrite list_lookup_insert_ne.
Qed.

Lemma Inv_list_append stk done todo h l x :
  l ∉ lids stk → Inv stk done todo h → Inv stk done todo (list_append l x h).
Proof.
  induction stk as [|[g' q l'|g' k c v] below IH]; simpl; [done|..].
  - intros Hl ((n & Hn & Hl0 & Hst) & Hc & Hg' & Hl' & Hbelow).
    apply not_elem_of_cons in Hl as [Hne Hl].
    split_and!; try done; [by exists n| |by apply IH].
    by rewrite list_lookup_alter_ne.
  - intros Hl (Hst & Hc & Hg' & Hbelow). split_and!; try done. by apply IH.
Qed.

Lemma Final_set_gen stk done h g st :
  g ∉ gids stk → Final stk done h → Final stk done (set_gen g st h).
Proof.
  induction stk as [|[g' q l|g' k c v] below IH]; simpl; [done|..].
  - intros Hg (Hst & Hn & Hc & Hbelow).
    apply not_elem_of_cons in Hg as [Hne Hg].
    split_and!; try done; [|by apply IH].
    by rewrite list_lookup_insert_ne.
  - intros Hg (Hst & Hbelow).
    apply not_elem_of_cons in Hg as [Hne Hg].
    split_and!; [|by apply IH].
    by rewrite list_lookup_insert_ne.
Qed.

Lemma frame_refl stk h : frame stk h h.
Proof. by repeat split. Qed.

Lemma frame_trans stk h1 h2 h3 :
  frame stk h1 h2 → frame stk h2 h3 → frame stk h1 h3.
Proof.
  intros (A1 & A2 & A3 & A4 & A5 & A6) (B1 & B2 & B3 & B4 & B5 & B6).
  split_and!; try congruence.
  - intros g Hg. by rewrite B5, A5.
  - intros l Hl. by rewrite B6, A6.
Qed.

Lemma frame_cons ly stk h h' : frame stk h h' → frame (ly :: stk) h h'.
Proof.
  intros (A1 & A2 & A3 & A4 & A5 & A6). split_and!; try done.
  - intros g Hg. apply A5. simpl in Hg. by apply not_elem_of_cons in Hg as [_ ?].
  - intros l Hl. apply A6. destruct ly; simpl in Hl; [|done].
    by apply not_elem_of_cons in Hl as [_ ?].
Qed.

Lemma frame_set_gen stk h g st : g ∈ gids stk → frame stk h (set_gen g st h).
Proof.
  intros Hg. split_and!; try done.
  - simpl. apply length_insert.
  - intros g' Hg'. simpl. apply list_lookup_insert_ne. by intros ->.
Qed.

Lemma frame_list_append stk h l x : l ∈ lids stk → frame stk h (list_append l x h).
Proof.
  intros Hl. split_and!; try done.
  - simpl. apply length_alter.
  - intros l' Hl'. simpl. apply list_lookup_alter_ne. by intros ->.
Qed.

(** ** Stacks: what one [next] at the top does *)

Lemma next_node_unfold fuel g q l below done todo h :
  Inv (LNode g q l :: below) done todo h →
  next (S fuel) h g =
  walk_k g q (pull (next fuel) (set_gen g GenRunning h) (src_it below todo)).
Proof.
  intros ((n & Hn & Hl & Hst) & Hc & _). simpl. unfold next_body.
  destruct Hst as [Hst|(Hst & Hemp & Hres)]; rewrite Hst; simpl; [done|].
  unfold step_start. cbn [nodes lists set_gen]. rewrite Hn. simpl.
  rewrite Hl, Hc, Hemp. simpl.
  rewrite (Query_result_own (set_gen g GenRunning h) q n _ Hn Hres).
  by destruct below as [|ly below'].
Qed.

Lemma next_exp_unfold fuel g k c v below done todo h :
  Inv (LExp g k c v :: below) done todo h →
  next (S fuel) h g =
  exp_k (next fuel) g k c
    (pull (next fuel) (set_gen g GenRunning h) (src_it below todo)).
Proof. intros (Hst & _). simpl. unfold next_body. by rewrite Hst. Qed.

Lemma pulls_gen h g h' o :
  (∃ fuel, next fuel h g = Some (h', o)) → pulls h (ItGen g) (h', o, ItGen g).
Proof. intros [fuel E]. exists fuel. simpl. by rewrite E. Qed.

Lemma pulls_gen_inv h g p :
  pulls h (ItGen g) p →
  ∃ fuel h' o, p = (h', o, ItGen g) ∧ next (S fuel) h g = Some (h', o).
Proof.
  intros [fuel E]. simpl in E.
  destruct (next fuel h g) as [[h' o]|] eqn:E'; [|done].
  exists fuel, h', o. split; [congruence|].
  apply (next_mono fuel); [lia|done].
Qed.

(** What the generator at the top sees after those below it ran: its own
    frame is still marked as running, its cache was not touched. *)
Lemma under_running below h g h1 :
  g ∉ gids below → g < length (gens h) →
  frame below (set_gen g GenRunning h) h1 →
  nodes h1 = nodes h ∧ cells h1 = cells h ∧
  gens h1 !! g = Some GenRunning ∧ g < length (gens h1) ∧
  (∀ l, l ∉ lids below → lists h1 !! l = lists h !! l).
Proof.
  intros Hg Hlt (A1 & A2 & A3 & A4 & A5 & A6). split_and!; try done.
  - rewrite A5 by done. by apply gens_set_gen.
  - rewrite A3. simpl. by rewrite length_insert.
Qed.

Lemma frame_top ly below h h1 :
  frame below (set_gen (lgid ly) GenRunning h) h1 → frame (ly :: below) h h1.
Proof.
  intros Hf. eapply frame_trans; [|by apply frame_cons].
  apply frame_set_gen. simpl. apply elem_of_cons. by left.
Qed.

Lemma frame_top_set ly below h h1 st :
  frame (ly :: below) h h1 → frame (ly :: below) h (set_gen (lgid ly) st h1).
Proof.
  intros Hf. eapply frame_trans; [done|].
  apply frame_set_gen. simpl. apply elem_of_cons. by left.
Qed.

Lemma filter_snoc_true (p : obj → bool) done x :
  p x = true → List.filter p (done ++ [x]) = List.filter p done ++ [x].
Proof. intros E. rewrite List.filter_app. simpl. by rewrite E. Qed.

Lemma filter_snoc_false (p : obj → bool) done x :
  p x = false → List.filter p (done ++ [x]) = List.filter p done.
Proof. intros E. rewrite List.filter_app. simpl. rewrite E. apply app_nil_r. Qed.

Lemma step_node g q l below : step_spec below → step_spec (LNode g q l :: below).
Proof.
  intros IH done x rest h HI.
  pose proof HI as ((n & Hn & Hl & Hst) & Hc & Hg & Hlb & Hbelow).
  assert (g < length (gens h)) as Hlt.
  { destruct Hst as [Hst|[Hst _]]; by apply lookup_lt_Some in Hst. }
  specialize (IH done x rest (set_gen g GenRunning h)
                (Inv_set_gen _ _ _ _ _ _ Hg Hbelow)).
  cbn [thr tests_of src_it lgid].
  destruct (thr (tests_of below) x) as [[|]|e] eqn:Et.
  - (* [x] reaches this node: it is cached and yielded *)
    destruct IH as (h1 & [f Hp] & HI1 & Hf1).
    destruct (under_running _ _ _ _ Hg Hlt Hf1) as (N1 & C1 & G1 & L1 & X1).
    set (h' := set_gen g (QIterWalk q (src_it below rest)) (list_append l x h1)).
    assert (frame (LNode g q l :: below) h h') as Hf'.
    { apply (frame_top_set (LNode g q l)).
      eapply frame_trans; [by apply (frame_top (LNode g q l))|].
      apply frame_list_append. simpl. apply elem_of_cons. by left. }
    exists h'. split_and!; [|simpl; split_and!|]; try done.
    + apply pulls_gen. exists (S f).
      rewrite (next_node_unfold _ _ _ _ _ _ _ _ HI), Hp.
      simpl. unfold cache_append. rewrite N1, Hn. simpl. by rewrite Hl.
    + exists n. split_and!; try done; [by rewrite N1|].
      left. by apply list_lookup_insert_eq.
    + rewrite list_lookup_alter_eq, (X1 l Hlb), Hc. simpl.
      f_equal. symmetry. apply filter_snoc_true. unfold passes. by rewrite Et.
    + apply Inv_set_gen; [done|]. by apply Inv_list_append.
  - (* [x] was dropped below: the node goes on pulling *)
    destruct IH as (h1 & HI1 & Hf1 & Hk).
    destruct (under_running _ _ _ _ Hg Hlt Hf1) as (N1 & C1 & G1 & L1 & X1).
    set (h' := set_gen g (QIterWalk q (src_it below rest)) h1).
    assert (Inv (LNode g q l :: below) (done ++ [x]) rest h') as HI'.
    { simpl; split_and!; try done.
      - exists n. split_and!; try done; [by rewrite N1|].
        left. by apply list_lookup_insert_eq.
      - simpl. rewrite X1 by done. rewrite Hc. f_equal. symmetry.
        apply filter_snoc_false. unfold passes. by rewrite Et.
      - by apply Inv_set_gen. }
    exists h'. split_and!; try done.
    + apply (frame_top_set (LNode g q l)). by apply (frame_top (LNode g q l)).
    + intros p Hp. apply pulls_gen_inv in Hp as (f & h2 & o & -> & Hp).
      rewrite (next_node_unfold _ _ _ _ _ _ _ _ HI') in Hp.
      unfold h' in Hp. rewrite set_gen_twice, (set_gen_same _ _ _ G1) in Hp.
      destruct (pull (next f) h1 (src_it below rest)) as [p|] eqn:Ep; [|done].
      destruct (Hk p (ex_intro _ f Ep)) as [f' Ep'].
      apply pulls_gen. exists (S f').
      by rewrite (next_node_unfold _ _ _ _ _ _ _ _ HI), Ep'.
  - (* a test below raised: the exception passes through *)
    destruct IH as (h1 & [f Hp] & Hf1).
    exists (set_gen g GenDone h1). split.
    + apply pulls_gen. exists (S f).
      by rewrite (next_node_unfold _ _ _ _ _ _ _ _ HI), Hp.
    + apply (frame_top_set (LNode g q l)). by apply (frame_top (LNode g q l)).
Qed.

Lemma step_exp g k c v below : step_spec below → step_spec (LExp g k c v :: below).
Proof.
  intros IH done x rest h HI.
  pose proof HI as (Hst & Hc & Hg & Hbelow).
  assert (g < length (gens h)) as Hlt by by apply lookup_lt_Some in Hst.
  specialize (IH done x rest (set_gen g GenRunning h)
                (Inv_set_gen _ _ _ _ _ _ Hg Hbelow)).
  cbn [thr tests_of src_it lgid].
  destruct (thr (tests_of below) x) as [[|]|e] eqn:Et.
  - (* [x] reaches this generator expression: the test decides *)
    destruct IH as (h1 & [f Hp] & HI1 & Hf1).
    destruct (under_running _ _ _ _ Hg Hlt Hf1) as (N1 & C1 & G1 & L1 & X1).
    set (h' := set_gen g (GenExp k (src_it below rest) c) h1).
    assert (Inv (LExp g k c v :: below) (done ++ [x]) rest h') as HI'.
    { simpl; split_and!; try done.
      - by apply list_lookup_insert_eq.
      - by rewrite C1.
      - by apply Inv_set_gen. }
    assert (frame (LExp g k c v :: below) h h') as Hf'.
    { apply (frame_top_set (LExp g k c v)). by apply (frame_top (LExp g k c v)). }
    assert (∀ f', f ≤ f' → next (S f') h g =
      match eval_cond k v x with
      | Ok true => Some (h', Yield x)
      | Ok false => next f' h' g
      | Raise e => finish g (Err e) h1
      end) as Hnext.
    { intros f' Hle. rewrite (next_exp_unfold _ _ _ _ _ _ _ _ _ HI).
      rewrite (pulls_mono_fuel f f' _ _ _ Hle Hp). simpl. by rewrite C1, Hc. }
    destruct (eval_cond k v x) as [[|]|e].
    + exists h'. split_and!; try done.
      apply pulls_gen. exists (S f). by apply Hnext.
    + exists h'. split_and!; try done.
      intros p Hp'. apply pulls_gen_inv in Hp' as (f' & h2 & o & -> & Hp').
      apply pulls_gen. exists (S (S (f `max` f'))).
      rewrite Hnext by lia. apply (next_mono (S f')); [lia|done].
    + exists (set_gen g GenDone h1). split.
      * apply pulls_gen. exists (S f). by apply Hnext.
      * apply (frame_top_set (LExp g k c v)). by apply (frame_top (LExp g k c v)).
  - (* [x] was dropped below *)
    destruct IH as (h1 & HI1 & Hf1 & Hk).
    destruct (under_running _ _ _ _ Hg Hlt Hf1) as (N1 & C1 & G1 & L1 & X1).
    set (h' := set_gen g (GenExp k (src_it below rest) c) h1).
    assert (Inv (LExp g k c v :: below) (done ++ [x]) rest h') as HI'.
    { simpl; split_and!; try done.
      - by apply list_lookup_insert_eq.
      - by rewrite C1.
      - by apply Inv_set_gen. }
    exists h'. split_and!; try done.
    + apply (frame_top_set (LExp g k c v)). by apply (frame_top (LExp g k c v)).
    + intros p Hp. apply pulls_gen_inv in Hp as (f & h2 & o & -> & Hp).
      rewrite (next_exp_unfold _ _ _ _ _ _ _ _ _ HI') in Hp.
      unfold h' in Hp. rewrite set_gen_twice, (set_gen_same _ _ _ G1) in Hp.
      destruct (pull (next f) h1 (src_it below rest)) as [p|] eqn:Ep; [|done].
      destruct (Hk p (ex_intro _ f Ep)) as [f' Ep'].
      apply pulls_gen. exists (S (f `max` f')).
      rewrite (next_exp_unfold _ _ _ _ _ _ _ _ _ HI).
      rewrite (pulls_mono_fuel f' (f `max` f') _ _ _ ltac:(lia) Ep').
      eapply exp_k_mono; [|done].
      intros h0 g0 r0. apply next_mono. lia.
  - (* a test below raised *)
    destruct IH as (h1 & [f Hp] & Hf1).
    exists (set_gen g GenDone h1). split.
    + apply pulls_gen. exists (S f).
      by rewrite (next_exp_unfold _ _ _ _ _ _ _ _ _ HI), Hp.
    + apply (frame_top_set (LExp g k c v)). by apply (frame_top (LExp g k c v)).
Qed.

Lemma step_stack stk : step_spec stk.
Proof.
  induction stk as [|[g q l|g k c v] below IH].
  - intros done x rest h _. simpl. exists h.
    split_and!; [by exists 0|done|apply frame_refl].
  - by apply step_node.
  - by apply step_exp.
Qed.

Lemma stop_stack stk : stop_spec stk.
Proof.
  induction stk as [|[g q l|g k c v] below IH]; intros done h HI.
  - exists h. split_and!; [by exists 0|done|apply frame_refl].
  - pose proof HI as ((n & Hn & Hl & Hst) & Hc & Hg & Hlb & Hbelow).
    assert (g < length (gens h)) as Hlt.
    { destruct Hst as [Hst|[Hst _]]; by apply lookup_lt_Some in Hst. }
    destruct (IH done (set_gen g GenRunning h)
                (Inv_set_gen _ _ _ _ _ _ Hg Hbelow)) as (h1 & [f Hp] & HF1 & Hf1).
    destruct (under_running _ _ _ _ Hg Hlt Hf1) as (N1 & C1 & G1 & L1 & X1).
    exists (set_gen g GenDone h1). split_and!.
    + apply pulls_gen. exists (S f).
      by rewrite (next_node_unfold _ _ _ _ _ _ _ _ HI), Hp.
    + simpl. split_and!.
      * by apply list_lookup_insert_eq.
      * exists n. by rewrite N1.
      * by rewrite X1.
      * by apply Final_set_gen.
    + apply (frame_top_set (LNode g q l)). by apply (frame_top (LNode g q l)).
  - pose proof HI as (Hst & Hc & Hg & Hbelow).
    assert (g < length (gens h)) as Hlt by by apply lookup_lt_Some in Hst.
    destruct (IH done (set_gen g GenRunning h)
                (Inv_set_gen _ _ _ _ _ _ Hg Hbelow)) as (h1 & [f Hp] & HF1 & Hf1).
    destruct (under_running _ _ _ _ Hg Hlt Hf1) as (N1 & C1 & G1 & L1 & X1).
    exists (set_gen g GenDone h1). split_and!.
    + apply pulls_gen. exists (S f).
      by rewrite (next_exp_unfold _ _ _ _ _ _ _ _ _ HI), Hp.
    + simpl. split; [by apply list_lookup_insert_eq|by apply Final_set_gen].
    + apply (frame_top_set (LExp g k c v)). by apply (frame_top (LExp g k c v)).
Qed.

(** ** Stacks: what [list] does at the top *)

Lemma drain_transfer h h1 g :
  (∀ p, pulls h1 (ItGen g) p → pulls h (ItGen g) p) →
  ∀ fuel r, drain fuel h1 g = Some r → ∃ fuel', drain fuel' h g = Some r.
Proof.
  intros Hk [|fuel] r; [done|]. simpl.
  destruct (next fuel h1 g) as [[h2 o]|] eqn:E; [|done]. intros Hd.
  destruct (Hk (h2, o, ItGen g)) as [f Hp]; [by apply pulls_gen; exists fuel|].
  simpl in Hp. destruct (next f h g) as [[h2' o']|] eqn:E'; [|done].
  simplify_eq. exists (S (f `max` fuel)). simpl.
  rewrite (next_mono f (f `max` fuel) _ _ _ ltac:(lia) E').
  destruct o as [x| |e]; try done.
  destruct (drain fuel h2 g) as [r'|] eqn:Ed; [|done].
  by rewrite (drain_mono fuel (f `max` fuel) _ _ _ ltac:(lia) Ed).
Qed.

Lemma drain_stack ly below todo : ∀ done h,
  Inv (ly :: below) done todo h →
  ∃ fuel h',
    drain fuel h (lgid ly) = Some (h', run (tests_of (ly :: below)) todo) ∧
    frame (ly :: below) h h' ∧
    (∀ rs, run (tests_of (ly :: below)) todo = Ok rs →
           Final (ly :: below) (done ++ todo) h').
Proof.
  induction todo as [|x rest IH]; intros done h HI.
  - destruct (stop_stack _ _ _ HI) as (h' & Hp & HF & Hf).
    apply pulls_gen_inv in Hp as (f & h2 & o & ? & Hp). simplify_eq.
    exists (S (S f)), h2. split_and!; try done.
    + cbn [drain]. by rewrite Hp.
    + intros rs _. by rewrite app_nil_r.
  - pose proof (step_stack _ _ _ _ _ HI) as Hs. cbn [run].
    destruct (thr (tests_of (ly :: below)) x) as [[|]|e].
    + destruct Hs as (h1 & Hp & HI1 & Hf1).
      apply pulls_gen_inv in Hp as (f & h2 & o & ? & Hp). simplify_eq.
      destruct (IH _ _ HI1) as (f2 & h' & Hd & Hf2 & HF).
      exists (S (S f `max` f2)), h'. split_and!.
      * cbn [drain]. rewrite (next_mono (S f) (S f `max` f2) _ _ _ ltac:(lia) Hp).
        rewrite (drain_mono f2 (S f `max` f2) _ _ _ ltac:(lia) Hd).
        by destruct (run _ rest).
      * by eapply frame_trans.
      * intros rs Hrs. destruct (run _ rest) as [rs'|] eqn:Er; [|done].
        replace (done ++ x :: rest) with ((done ++ [x]) ++ rest)
          by (by rewrite <- app_assoc).
        by eapply HF.
    + destruct Hs as (h1 & HI1 & Hf1 & Hk).
      destruct (IH _ _ HI1) as (f2 & h' & Hd & Hf2 & HF).
      destruct (drain_transfer h h1 (lgid ly) Hk _ _ Hd) as [f' Hd'].
      exists f', h'. split_and!; try done.
      * by eapply frame_trans.
      * intros rs Hrs.
        replace (done ++ x :: rest) with ((done ++ [x]) ++ rest)
          by (by rewrite <- app_assoc).
        by eapply HF.
    + destruct Hs as (h1 & Hp & Hf1).
      apply pulls_gen_inv in Hp as (f & h2 & o & ? & Hp). simplify_eq.
      exists (S (S f)), h2. split_and!; try done.
      cbn [drain]. by rewrite Hp.
Qed.

(** ** Partial iteration *)

Lemma take_next_mono k : ∀ fuel fuel' h g r,
  fuel ≤ fuel' → take_next fuel k h g = Some r → take_next fuel' k h g = Some r.
Proof.
  induction k as [|k IH]; intros fuel fuel' h g r Hle; [done|]. simpl.
  destruct (next fuel h g) as [[h1 o]|] eqn:E; [|done].
  rewrite (next_mono fuel fuel' _ _ _ Hle E).
  destruct o as [x| |e]; try done.
  destruct (take_next fuel k h1 g) as [[h2 rs]|] eqn:E2; [|done].
  by rewrite (IH _ _ _ _ _ Hle E2).
Qed.

Lemma take_transfer h h1 g k :
  (∀ p, pulls h1 (ItGen g) p → pulls h (ItGen g) p) →
  ∀ fuel r, take_next fuel (S k) h1 g = Some r →
            ∃ fuel', take_next fuel' (S k) h g = Some r.
Proof.
  intros Hk fuel r. simpl.
  destruct (next fuel h1 g) as [[h2 o]|] eqn:E; [|done]. intros Hd.
  destruct (Hk (h2, o, ItGen g)) as [f Hp]; [by apply pulls_gen; exists fuel|].
  simpl in Hp. destruct (next f h g) as [[h2' o']|] eqn:E'; [|done].
  simplify_eq. exists (f `max` fuel). simpl.
  rewrite (next_mono f (f `max` fuel) _ _ _ ltac:(lia) E').
  destruct o as [x| |e]; try done.
  destruct (take_next fuel k h2 g) as [r'|] eqn:Ed; [|done].
  by rewrite (take_next_mono k fuel (f `max` fuel) _ _ _ ltac:(lia) Ed).
Qed.

(** Taking [k] elements at the top of a stack: the first [k] that pass;
    the stack has then consumed some [done'], of which exactly those
    passed. *)
Lemma take_stack ly below todo : ∀ k done h,
  Inv (ly :: below) done todo h →
  (∀ x, x ∈ todo → ∃ b, thr (tests_of (ly :: below)) x = Ok b) →
  ∃ fuel h' done',
    take_next fuel k h (lgid ly) =
      Some (h', Ok (take k (List.filter (passes (tests_of (ly :: below))) todo))) ∧
    frame (ly :: below) h h' ∧
    ((∃ todo', Inv (ly :: below) done' todo' h') ∨ Final (ly :: below) done' h') ∧
    List.filter (passes (tests_of (ly :: below))) done' =
      List.filter (passes (tests_of (ly :: below))) done ++
      take k (List.filter (passes (tests_of (ly :: below))) todo).
Proof.
  induction todo as [|x rest IH]; intros k done h HI Hok.
  - destruct k as [|k].
    + exists 0, h, done. rewrite app_nil_r.
      split_and!; [done|apply frame_refl| |done]. left. by exists [].
    + destruct (stop_stack _ _ _ HI) as (h' & Hp & HF & Hf).
      apply pulls_gen_inv in Hp as (f & h2 & o & ? & Hp). simplify_eq.
      exists (S f), h2, done. rewrite app_nil_r. split_and!; try done.
      * cbn [take_next]. by rewrite Hp.
      * by right.
  - destruct k as [|k].
    + exists 0, h, done. rewrite app_nil_r.
      split_and!; [done|apply frame_refl| |done]. left. by exists (x :: rest).
    + pose proof (step_stack _ _ _ _ _ HI) as Hs.
      destruct (Hok x ltac:(by left)) as [b Hb].
      assert (∀ y, y ∈ rest → ∃ b, thr (tests_of (ly :: below)) y = Ok b) as Hok'
        by (intros y Hy; apply Hok; by right).
      assert (passes (tests_of (ly :: below)) x = b) as Hpx
        by (unfold passes; rewrite Hb; by destruct b).
      cbn [List.filter]. rewrite Hpx. rewrite Hb in Hs.
      destruct b.
      * destruct Hs as (h1 & Hp & HI1 & Hf1).
        apply pulls_gen_inv in Hp as (f & h2 & o & ? & Hp). simplify_eq.
        destruct (IH k _ _ HI1 Hok') as (f2 & h' & done' & Hd & Hf2 & Hst & Hdone).
        exists (S f `max` f2), h', done'. split_and!; try done.
        -- cbn [take_next].
           rewrite (next_mono (S f) (S f `max` f2) _ _ _ ltac:(lia) Hp).
           by rewrite (take_next_mono k f2 (S f `max` f2) _ _ _ ltac:(lia) Hd).
        -- by eapply frame_trans.
        -- rewrite Hdone, filter_snoc_true by done.
           by rewrite <- app_assoc.
      * destruct Hs as (h1 & HI1 & Hf1 & Hk).
        destruct (IH (S k) _ _ HI1 Hok')
          as (f2 & h' & done' & Hd & Hf2 & Hst & Hdone).
        destruct (take_transfer h h1 (lgid ly) k Hk _ _ Hd) as [f' Hd'].
        exists f', h', done'. split_and!; try done.
        -- by eapply frame_trans.
        -- by rewrite Hdone, filter_snoc_false by done.
Qed.

(** ** Building views *)

Lemma extends_refl h : extends h h.
Proof. by repeat split. Qed.

Lemma extends_trans h1 h2 h3 : extends h1 h2 → extends h2 h3 → extends h1 h3.
Proof.
  intros (A1 & A2 & A3 & A4) (B1 & B2 & B3 & B4). split_and!; eauto.
Qed.

Lemma Inv_extends stk done todo h h' :
  extends h h' → Inv stk done todo h → Inv stk done todo h'.
Proof.
  intros (E1 & E2 & E3 & E4).
  induction stk as [|[g q l|g k c v] below IH]; simpl; [done|..].
  - intros ((n & Hn & Hl & Hst) & Hc & Hg & Hlb & Hbelow).
    split_and!; auto. exists n. split_and!; auto.
    destruct Hst as [Hst|(Hst & ? & ?)]; [left|right]; auto.
  - intros (Hst & Hc & Hg & Hbelow). split_and!; auto.
Qed.

Lemma Inv_gids_lt stk done todo h g :
  Inv stk done todo h → g ∈ gids stk → g < length (gens h).
Proof.
  induction stk as [|[g' q l|g' k c v] below IH]; simpl.
  - intros _ Hg. by apply elem_of_nil in Hg.
  - intros ((n & Hn & Hl & Hst) & Hc & Hg & Hlb & Hbelow) Hin.
    apply elem_of_cons in Hin as [->|Hin]; [|by apply IH].
    destruct Hst as [Hst|[Hst _]]; by apply lookup_lt_Some in Hst.
  - intros (Hst & Hc & Hg & Hbelow) Hin.
    apply elem_of_cons in Hin as [->|Hin]; [|by apply IH].
    by apply lookup_lt_Some in Hst.
Qed.

Lemma extends_alloc_gen st h : extends h (alloc_gen st h).1.
Proof.
  split_and!; simpl; auto. intros i g. apply lookup_app_l_Some.
Qed.

(** [list(q)] on a view: the elements that pass the tests below it. *)
Lemma py_list_view q l below src h :
  View q l below src h →
  ∃ fuel h',
    py_list fuel q h = Some (h', run (tests_of below) src) ∧
    frame (LNode (length (gens h)) q l :: below) (alloc_gen (QIterStart q) h).1 h' ∧
    (∀ rs, run (tests_of below) src = Ok rs →
           Final (LNode (length (gens h)) q l :: below) src h').
Proof.
  intros ((n & Hn & Hl & Hr & _) & Hc & Hlb & HI).
  set (g := length (gens h)).
  assert (Inv (LNode g q l :: below) [] src (alloc_gen (QIterStart q) h).1) as HI'.
  { simpl. split_and!; try done.
    - exists n. split_and!; try done. right. split_and!; try done.
      by apply list_lookup_middle.
    - intros Hg. apply (Inv_gids_lt _ _ _ _ _ HI) in Hg. unfold g in Hg. lia.
    - eapply Inv_extends; [apply extends_alloc_gen|done]. }
  destruct (drain_stack _ _ _ _ _ HI') as (fuel & h' & Hd & Hf & HF).
  exists fuel, h'. split_and!; done.
Qed.

Lemma lookup_snoc_new {A : Type} (xs : list A) (a : A) :
  (xs ++ [a]) !! length xs = Some a.
Proof. by apply list_lookup_middle. Qed.

Lemma lookup_insert_snoc_new {A : Type} (xs : list A) (a b : A) :
  <[length xs := b]> (xs ++ [a]) !! length xs = Some b.
Proof. apply list_lookup_insert_eq. rewrite length_app. simpl. lia. Qed.

Lemma lookup_insert_snoc_old {A : Type} (xs : list A) (a b c : A) i :
  xs !! i = Some c → <[length xs := b]> (xs ++ [a]) !! i = Some c.
Proof.
  intros E. pose proof (lookup_lt_Some _ _ _ E).
  rewrite list_lookup_insert_ne by lia. by apply lookup_app_l_Some.
Qed.

Lemma bound_root_view src h0 :
  ∃ h l,
    bound_root src h0 = Some (h, length (nodes h0)) ∧
    View (length (nodes h0)) l [] src h ∧
    extends h0 h ∧ length (nodes h) = S (length (nodes h0)).
Proof.
  unfold bound_root, Query_init, Query_call, alloc_list, alloc_node, set_node.
  cbn [nodes gens cells lists]. rewrite lookup_snoc_new. simpl.
  eexists. eexists. split. { reflexivity. } unfold View. split_and!.
  - simpl. eexists. split_and!; [apply lookup_insert_snoc_new|done..].
  - cbn [lists]. apply lookup_snoc_new.
  - apply not_elem_of_nil.
  - done.
  - split_and!; simpl; try done; intros i n E.
    + by apply lookup_insert_snoc_old.
    + by do 2 apply lookup_app_l_Some.
  - simpl. rewrite length_insert, length_app. simpl. lia.
Qed.

Lemma filter_loop_callable c vs (st : heap * iterable) :
  forallb callable vs = true →
  filter_loop c vs st = Ok (fold_left (λ st v, wrap_exp CondCall c v st) vs st).
Proof.
  revert st. induction vs as [|v vs IH]; intros st; simpl; [done|].
  intros [Hv Hvs]%andb_true_iff. rewrite Hv. by apply IH.
Qed.

(** The second loop looks at the values only. *)
Lemma filter_items_values c (kwargs : list (string * pyval (obj := obj)))
    (st : heap * iterable) :
  filter_items c kwargs st = filter_loop c (map snd kwargs) st.
Proof.
  revert st. induction kwargs as [|[key v] kwargs IH]; intros st; simpl; [done|].
  destruct (callable v); [apply IH|done].
Qed.

Lemma fold_left_map_tests (k : cond) c vs (st : heap * iterable) :
  fold_left (λ st v, wrap_exp k c v st) vs st =
  fold_left (λ st (t : test), wrap_exp t.1 c t.2 st) (map (λ v, (k, v)) vs) st.
Proof. revert st. induction vs as [|v vs IH]; intros st; simpl; [done|apply IH]. Qed.

(** A call runs one round of [wrap_exp] for each of its [rounds]. *)
Lemma run_action_rounds a args kwargs rs self h :
  rounds (Call a args kwargs) = Some rs →
  run_action a self args kwargs h =
  Ok (fold_left (λ st (t : test), wrap_exp t.1 (length (cells h)) t.2 st) rs
        ((alloc_cell h).1, IQuery self)).
Proof.
  destruct a; cbn [rounds run_action]; unfold q_filter, q_exclude, exclude_loop;
    destruct (gives_result_twice kwargs); try done; cbn [alloc_cell fst].
  - destruct (forallb callable (args ++ map snd kwargs)) eqn:E; [|done].
    intros [= <-]. rewrite forallb_app in E. apply andb_true_iff in E as [E1 E2].
    rewrite (filter_loop_callable _ _ _ E1). cbn [rbind].
    rewrite filter_items_values, (filter_loop_callable _ _ _ E2).
    by rewrite map_app, fold_left_app, <- !fold_left_map_tests.
  - destruct (forallb callable (map snd kwargs)) eqn:E; [|done].
    intros [= <-]. rewrite filter_items_values, (filter_loop_callable _ _ _ E).
    by rewrite fold_left_app, <- !fold_left_map_tests.
Qed.

Lemma insert_snoc {A : Type} (xs : list A) (a b : A) :
  <[length xs := b]> (xs ++ [a]) = xs ++ [b].
Proof. rewrite insert_app_r_alt by lia. by rewrite Nat.sub_diag. Qed.

Lemma exp_gens_snoc G c ks k :
  exp_gens (obj := obj) G c (ks ++ [k]) =
  exp_gens G c ks ++ [GenExp k (ItGen (G + length ks)) c].
Proof. unfold exp_gens. rewrite imap_app. simpl. by rewrite Nat.add_0_r. Qed.

Lemma length_exp_gens G c ks :
  length (exp_gens (obj := obj) G c ks) = length ks.
Proof. apply length_imap. Qed.

(** The store after the rounds of a call: the generator of the node, one
    generator expression per round, and the cell with the last value. *)
Lemma fold_wrap_more nds gs cs (ls : list (list obj)) self : ∀ rs ks v,
  fold_left (λ st (t : test), wrap_exp t.1 (length cs) t.2 st) rs
    (mkHeap nds (gs ++ QIterStart self :: exp_gens (length gs) (length cs) ks)
       (cs ++ [Some v]) ls,
     IGen (length gs + length ks)) =
  (mkHeap nds
     (gs ++ QIterStart self ::
        exp_gens (length gs) (length cs) (ks ++ map fst rs))
     (cs ++ [Some (default v (snd <$> last rs))]) ls,
   IGen (length gs + length (ks ++ map fst rs))).
Proof.
  induction rs as [|[k v'] rs IH]; intros ks v.
  - simpl. by rewrite app_nil_r.
  - cbn [fold_left wrap_exp fst snd iter set_cell alloc_gen nodes gens cells lists].
    rewrite insert_snoc.
    replace (length (gs ++ QIterStart self :: exp_gens (length gs) (length cs) ks))
      with (length gs + length (ks ++ [k]))
      by (rewrite !length_app; simpl; rewrite length_exp_gens; simpl; lia).
    rewrite <- app_assoc. cbn [app]. rewrite <- exp_gens_snoc.
    rewrite IH. rewrite <- app_assoc. cbn [app map fst].
    do 3 f_equal. rewrite last_cons. by destruct (last rs).
Qed.

Lemma fold_wrap h self r rs :
  fold_left (λ st (t : test), wrap_exp t.1 (length (cells h)) t.2 st) (r :: rs)
    ((alloc_cell h).1, IQuery self) =
  (mkHeap (nodes h)
     (gens h ++ QIterStart self ::
        exp_gens (length (gens h)) (length (cells h)) (map fst (r :: rs)))
     (cells h ++ [Some (default r (last rs)).2]) (lists h),
   IGen (length (gens h) + length (r :: rs))).
Proof.
  destruct r as [k v].
  cbn [fold_left wrap_exp fst snd iter set_cell alloc_gen alloc_cell
         nodes gens cells lists].
  rewrite insert_snoc.
  replace (length (gens h ++ [QIterStart self])) with (length (gens h) + 1)
    by (rewrite length_app; simpl; lia).
  rewrite <- app_assoc. cbn [app].
  replace [GenExp k (ItGen (length (gens h))) (length (cells h))]
    with (exp_gens (obj := obj) (length (gens h)) (length (cells h)) [k])
    by (unfold exp_gens; simpl; by rewrite Nat.add_0_r).
  rewrite (fold_wrap_more _ _ _ _ _ rs [k] v). cbn [app map fst length].
  rewrite length_map. by destruct (last rs) as [[k' v'']|].
Qed.

Lemma tests_of_exp_stack G c v ks : ∀ base,
  tests_of (exp_stack G c v ks base) =
  rev (map (λ k, (k, v)) ks) ++ tests_of base.
Proof.
  revert G. induction ks as [|k ks IH]; intros G base; simpl; [done|].
  rewrite IH. simpl. by rewrite <- app_assoc.
Qed.

Lemma node_caches_exp_stack G c v ks : ∀ base,
  node_caches (exp_stack G c v ks base) = node_caches base.
Proof.
  revert G. induction ks as [|k ks IH]; intros G base; simpl; [done|].
  by rewrite IH.
Qed.

Lemma lids_exp_stack G c v ks : ∀ base,
  lids (exp_stack G c v ks base) = lids base.
Proof.
  revert G. induction ks as [|k ks IH]; intros G base; simpl; [done|].
  by rewrite IH.
Qed.

Lemma src_ible_exp_stack G c v ks ly base src :
  lgid ly = G →
  src_ible (exp_stack G c v ks (ly :: base)) src = IGen (G + length ks).
Proof.
  revert G ly base. induction ks as [|k ks IH]; intros G ly base HG; simpl.
  - by rewrite HG, Nat.add_0_r.
  - rewrite (IH (S G)) by done. f_equal. lia.
Qed.

Lemma Inv_exp_stack c v src h : ∀ ks G ly base,
  Inv (ly :: base) [] src h → lgid ly = G →
  (∀ g, g ∈ gids (ly :: base) → g ≤ G) →
  (∀ i k, ks !! i = Some k →
          gens h !! (G + 1 + i) = Some (GenExp k (ItGen (G + i)) c)) →
  cells h !! c = Some (Some v) →
  Inv (exp_stack G c v ks (ly :: base)) [] src h.
Proof.
  induction ks as [|k ks IH]; intros G ly base HI HG Hle Hgens Hc; [done|].
  cbn [exp_stack]. apply IH; try done.
  - cbn [Inv src_it]. rewrite HG. split_and!; try done.
    + specialize (Hgens 0 k eq_refl). by rewrite !Nat.add_0_r, Nat.add_1_r in Hgens.
    + intros Hin. apply Hle in Hin. lia.
  - intros g Hin. cbn [gids map lgid] in Hin.
    apply elem_of_cons in Hin as [->|Hin]; [lia|].
    apply Hle in Hin. lia.
  - intros i k' Hi. specialize (Hgens (S i) k' Hi).
    by replace (S G + 1 + i) with (G + 1 + S i) by lia;
      replace (S G + i) with (G + S i) by lia.
Qed.

Lemma Inv_lids_lt stk done todo h l :
  Inv stk done todo h → l ∈ lids stk → l < length (lists h).
Proof.
  induction stk as [|[g' q l'|g' k c v] below IH]; simpl.
  - intros _ Hl. by apply elem_of_nil in Hl.
  - intros ((n & Hn & Hl & Hst) & Hc & Hg & Hlb & Hbelow) Hin.
    apply elem_of_cons in Hin as [->|Hin]; [|by apply IH].
    by apply lookup_lt_Some in Hc.
  - intros (Hst & Hc & Hg & Hbelow) Hin. by apply IH.
Qed.

Lemma dict_get_std a : dict_get (action_name a) std_actions = Some a.
Proof. by destruct a. Qed.

Lemma last_applied (r : test (obj := obj)) (rs : list test) :
  applied (r :: rs) = map (λ k, (k, (default r (last rs)).2)) (map fst (r :: rs)).
Proof.
  unfold applied. rewrite last_cons.
  destruct (last rs) as [[k v]|]; destruct r as [k0 v0]; simpl;
    f_equal; by rewrite map_map.
Qed.

(** A call on a view that creates at least one generator expression
    gives a view: the generators are created and none is started. *)
Lemma view_call q l below src h a args kwargs ts :
  View q l below src h →
  call_tests (Call a args kwargs) = Some ts →
  ∃ h' l' below',
    call_method q (action_name a) args kwargs h = Some (Ok (h', length (nodes h))) ∧
    View (length (nodes h)) l' below' src h' ∧
    extends h h' ∧ length (nodes h') = S (length (nodes h)) ∧
    tests_of below' = rev ts ++ tests_of below ∧
    node_caches below' = (q, l, tests_of below) :: node_caches below.
Proof.
  intros ((n & Hn & Hl & Hr & Ha) & Hc & Hlb & HI) Ht.
  unfold call_tests in Ht.
  destruct (rounds (Call a args kwargs)) as [[|r rs]|] eqn:Hrounds; try done.
  injection Ht as <-.
  unfold call_method, Query_getattr, func_wrapper. rewrite Hn.
  cbn [mbind option_bind]. rewrite Ha, dict_get_std. cbn [mbind option_bind].
  unfold Query_init. cbn [alloc_list alloc_node fst snd].
  rewrite (run_action_rounds _ _ _ _ _ _ Hrounds), fold_wrap.
  cbn [nodes gens cells lists].
  unfold Query_set_result. cbn [nodes]. rewrite lookup_snoc_new.
  cbn [mbind option_bind _cached_result _parent _actions].
  set (G := length (gens h)). set (c := length (cells h)).
  set (v := (default r (last rs)).2). set (ks := map fst (r :: rs)).
  set (h' := set_node _ _ _).
  assert (extends h h') as Hext.
  { split_and!; simpl; intros i y E.
    - by apply lookup_insert_snoc_old.
    - by apply lookup_app_l_Some.
    - by apply lookup_app_l_Some.
    - by apply lookup_app_l_Some. }
  assert (∀ g, g ∈ gids below → g < G) as Hgs.
  { intros g. by apply (Inv_gids_lt _ _ _ _ _ HI). }
  assert (∀ l, l ∈ lids below → l < length (lists h)) as Hls.
  { intros l0. by apply (Inv_lids_lt _ _ _ _ _ HI). }
  exists h', (length (lists h)), (exp_stack G c v ks (LNode G q l :: below)).
  split_and!; try done.
  - split_and!.
    + eexists. split_and!; [apply lookup_insert_snoc_new|try done..].
      cbn [_result]. rewrite (src_ible_exp_stack G c v ks) by done.
      unfold ks. by rewrite length_map.
    + simpl. apply lookup_snoc_new.
    + rewrite lids_exp_stack. simpl. intros Hin.
      apply elem_of_cons in Hin as [Heq|Hin].
      * apply lookup_lt_Some in Hc. lia.
      * apply Hls in Hin. lia.
    + apply Inv_exp_stack; try done.
      * simpl. split_and!; try done.
        -- exists n. split_and!; try done.
           ++ by apply lookup_insert_snoc_old.
           ++ right. split_and!; try done. by apply list_lookup_middle.
        -- by apply lookup_app_l_Some.
        -- intros Hin. apply Hgs in Hin. lia.
        -- by apply (Inv_extends _ _ _ h).
      * intros g Hin. simpl in Hin. apply elem_of_cons in Hin as [->|Hin]; [lia|].
        apply Hgs in Hin. lia.
      * intros i k Hi. simpl.
        rewrite lookup_app_r by (fold G; lia).
        replace (G + 1 + i - length (gens h)) with (S i) by (unfold G; lia).
        simpl. unfold exp_gens. rewrite list_lookup_imap. fold ks. by rewrite Hi.
      * simpl. apply lookup_snoc_new.
  - simpl. rewrite length_insert, length_app. simpl. lia.
  - rewrite tests_of_exp_stack. simpl. f_equal. rewrite last_applied. by fold v ks.
  - by rewrite node_caches_exp_stack.
Qed.

Lemma chain_view calls tss : ∀ q l below src h,
  View q l below src h → S q = length (nodes h) →
  Forall2 (λ c ts, call_tests c = Some ts) calls tss →
  ∃ h' l' below',
    chain calls q h = Some (Ok (h', q + length calls)) ∧
    View (q + length calls) l' below' src h' ∧
    extends h h' ∧
    tests_of below' = rev (concat tss) ++ tests_of below ∧
    (∀ e, e ∈ node_caches below → e ∈ node_caches below') ∧
    (∀ j, j < length calls →
       ∃ lj, (q + j, lj, rev (concat (take j tss)) ++ tests_of below)
               ∈ node_caches below').
Proof.
  intros q l below src h HV Hq Hall. revert q l below h HV Hq.
  induction Hall as [|[a args kwargs] ts calls tss Ht Hall IH];
    intros q l below h HV Hq.
  - exists h, l, below. rewrite Nat.add_0_r.
    split_and!; [done|done|apply extends_refl|done|done|].
    simpl. intros j Hj. lia.
  - destruct (view_call _ _ _ _ _ _ _ _ _ HV Ht)
      as (h1 & l1 & below1 & Hcall & HV1 & Hext1 & Hlen1 & Hts1 & Hnc1).
    rewrite <- Hq in *.
    destruct (IH _ _ _ _ HV1 ltac:(lia))
      as (h' & l' & below' & Hch & HV' & Hext' & Hts & Hmono & Hj).
    exists h', l', below'. cbn [chain length].
    rewrite Hcall, <- Nat.add_succ_comm. split_and!; try done.
    + by eapply extends_trans.
    + rewrite Hts, Hts1. simpl. by rewrite rev_app_distr, <- app_assoc.
    + intros e He. apply Hmono. rewrite Hnc1. apply elem_of_cons. by right.
    + intros [|j] Hlt.
      * exists l. rewrite Nat.add_0_r. apply Hmono. rewrite Hnc1.
        apply elem_of_cons. by left.
      * destruct (Hj j ltac:(lia)) as [lj Hin]. exists lj.
        rewrite <- Nat.add_succ_comm. rewrite Hts1 in Hin.
        simpl. by rewrite rev_app_distr, <- app_assoc.
Qed.

Lemma Inv_caches_fresh stk todo h q l ts :
  Inv stk [] todo h → (q, l, ts) ∈ node_caches stk → cache_of h q = Some [].
Proof.
  induction stk as [|[g' q' l'|g' k c v] below IH]; simpl.
  - intros _ Hin. by apply elem_of_nil in Hin.
  - intros ((n & Hn & Hl & _) & Hc & _ & _ & Hbelow) Hin.
    apply elem_of_cons in Hin as [Heq|Hin]; [|by apply IH].
    simplify_eq. unfold cache_of. by rewrite Hn.
  - intros (_ & _ & _ & Hbelow) Hin. by apply IH.
Qed.

Lemma Final_caches stk src h q l ts :
  Final stk src h → (q, l, ts) ∈ node_caches stk →
  cache_of h q = Some (List.filter (passes ts) src).
Proof.
  induction stk as [|[g' q' l'|g' k c v] below IH]; simpl.
  - intros _ Hin. by apply elem_of_nil in Hin.
  - intros (Hst & (n & Hn & Hl) & Hc & Hbelow) Hin.
    apply elem_of_cons in Hin as [Heq|Hin]; [|by apply IH].
    simplify_eq. unfold cache_of. by rewrite Hn.
  - intros (Hst & Hbelow) Hin. by apply IH.
Qed.

(** ** What comes out: the elements that pass, unless a test raises *)

Lemma run_Ok_filter ts src rs :
  run ts src = Ok rs → rs = List.filter (passes ts) src.
Proof.
  revert rs. induction src as [|x rest IH]; intros rs; simpl.
  - by intros [= <-].
  - unfold passes at 1. destruct (thr ts x) as [[|]|e]; try done.
    + destruct (run ts rest) as [rs'|]; simpl; [|done].
      intros [= <-]. f_equal. by apply IH.
    + apply IH.
Qed.

Lemma run_total ts src :
  (∀ x, x ∈ src → ∃ b, thr ts x = Ok b) →
  run ts src = Ok (List.filter (passes ts) src).
Proof.
  induction src as [|x rest IH]; intros Hok; simpl; [done|].
  destruct (Hok x) as [b Hb]; [by left|].
  unfold passes at 1. rewrite Hb.
  rewrite IH by (intros y Hy; apply Hok; by right).
  by destruct b.
Qed.

Lemma run_raise ts pre x post e :
  (∀ y, y ∈ pre → ∃ b, thr ts y = Ok b) → thr ts x = Raise e →
  run ts (pre ++ x :: post) = Raise e.
Proof.
  intros Hok Hx. induction pre as [|y pre IH]; simpl; [by rewrite Hx|].
  destruct (Hok y) as [b Hb]; [by left|]. rewrite Hb.
  rewrite IH by (intros z Hz; apply Hok; by right).
  by destruct b.
Qed.


(** ** Replaying a cache

    These hold in every store: a generator of [Query.__iter__] that finds
    a non-empty cache only reads that list. *)

Lemma set_gen_alloc st st' h :
  set_gen (length (gens h)) st' (alloc_gen st h).1 = (alloc_gen st' h).1.
Proof.
  unfold set_gen, alloc_gen. cbn [fst nodes gens cells lists]. f_equal.
  rewrite insert_app_r_alt by lia. by rewrite Nat.sub_diag.
Qed.

Lemma lists_alloc st h : lists (alloc_gen st h).1 = lists h.
Proof. done. Qed.

Lemma nodes_alloc st h : nodes (alloc_gen st h).1 = nodes h.
Proof. done. Qed.

Lemma gens_alloc_old st h g st' :
  gens h !! g = Some st' → gens (alloc_gen st h).1 !! g = Some st'.
Proof. apply lookup_app_l_Some. Qed.

Lemma gens_alloc st h : gens (alloc_gen st h).1 !! length (gens h) = Some st.
Proof. apply lookup_snoc_new. Qed.

Lemma next_replay fuel h l xs i :
  lists h !! l = Some xs →
  next (S fuel) (alloc_gen (QIterReplay l i) h).1 (length (gens h)) =
  match xs !! i with
  | Some r => Some ((alloc_gen (QIterReplay l (S i)) h).1, Yield r)
  | None => Some ((alloc_gen GenDone h).1, Stop)
  end.
Proof.
  intros Hl. cbn [next]. unfold next_body. rewrite gens_alloc.
  cbn [mbind option_bind]. unfold step_replay, finish.
  rewrite !set_gen_alloc, lists_alloc, Hl. cbn [mbind option_bind].
  done.
Qed.

Lemma drain_S fuel h g :
  drain (S fuel) h g =
  match next fuel h g with
  | None => None
  | Some (h1, Yield r) =>
      match drain fuel h1 g with
      | Some (h2, Ok rs) => Some (h2, Ok (r :: rs))
      | other => other
      end
  | Some (h1, Stop) => Some (h1, Ok [])
  | Some (h1, Err e) => Some (h1, Raise e)
  end.
Proof. done. Qed.

Lemma drain_replay h l xs k : ∀ i,
  lists h !! l = Some xs → i + k = length xs →
  ∃ fuel, drain fuel (alloc_gen (QIterReplay l i) h).1 (length (gens h)) =
          Some ((alloc_gen GenDone h).1, Ok (drop i xs)).
Proof.
  induction k as [|k IH]; intros i Hl Hlen.
  - exists 2. rewrite drain_S, (next_replay _ _ _ _ _ Hl).
    rewrite lookup_ge_None_2 by lia. by rewrite drop_ge by lia.
  - destruct (lookup_lt_is_Some_2 xs i ltac:(lia)) as [r Hr].
    destruct (IH (S i) Hl ltac:(lia)) as [fuel Hd].
    exists (S (S fuel)). rewrite drain_S, (next_replay _ _ _ _ _ Hl), Hr.
    rewrite (drain_mono fuel (S fuel) _ _ _ ltac:(lia) Hd).
    by rewrite (drop_S _ _ _ Hr).
Qed.

Lemma py_list_replay h q n xs :
  nodes h !! q = Some n → lists h !! _cached_result n = Some xs → xs ≠ [] →
  ∃ fuel, py_list fuel q h = Some ((alloc_gen GenDone h).1, Ok xs).
Proof.
  intros Hn Hl Hne. destruct xs as [|x xs]; [done|].
  destruct (drain_replay h _ _ (length xs) 1 Hl ltac:(simpl; lia)) as [fuel Hd].
  exists (S (S fuel)). unfold py_list.
  change (alloc_gen (QIterStart q) h)
    with ((alloc_gen (QIterStart q) h).1, length (gens h)).
  cbv beta iota. rewrite drain_S.
  assert (next (S fuel) (alloc_gen (QIterStart q) h).1 (length (gens h)) =
          Some ((alloc_gen (QIterReplay (_cached_result n) 1) h).1, Yield x)) as ->.
  { cbn [next]. unfold next_body. rewrite gens_alloc.
    cbn [mbind option_bind]. unfold step_start.
    rewrite set_gen_alloc, nodes_alloc, lists_alloc, Hn.
    cbn [mbind option_bind]. rewrite Hl. cbn [mbind option_bind].
    unfold step_replay. rewrite lists_alloc, Hl.
    cbn [mbind option_bind lookup list_lookup].
    by rewrite set_gen_alloc. }
  by rewrite (drain_mono fuel (S fuel) _ _ _ ltac:(lia) Hd).
Qed.

(** Iterating again a node whose cache stayed empty: its source is
    exhausted, and nothing comes. *)
Lemma py_list_exhausted h q n below src :
  nodes h !! q = Some n → lists h !! _cached_result n = Some [] →
  _result n = Some (src_ible below src) →
  match below with
  | [] => src = []
  | ly :: _ => gens h !! lgid ly = Some GenDone
  end →
  ∃ fuel, py_list fuel q h = Some ((alloc_gen GenDone h).1, Ok []).
Proof.
  intros Hn Hl Hr Hsrc. exists 3. unfold py_list.
  change (alloc_gen (QIterStart q) h)
    with ((alloc_gen (QIterStart q) h).1, length (gens h)).
  cbv beta iota. rewrite drain_S.
  assert (next 2 (alloc_gen (QIterStart q) h).1 (length (gens h)) =
          Some ((alloc_gen GenDone h).1, Stop)) as ->; [|done].
  cbn [next]. unfold next_body at 1. rewrite gens_alloc.
  cbn [mbind option_bind]. unfold step_start.
  rewrite set_gen_alloc, nodes_alloc, lists_alloc, Hn.
  cbn [mbind option_bind]. rewrite Hl. cbn [mbind option_bind].
  rewrite (Query_result_own (alloc_gen GenRunning h).1 q n _ Hn Hr).
  destruct below as [|ly below]; cbn [src_ible iter pull walk_k].
  - subst src. unfold walk_k, finish. by rewrite set_gen_alloc.
  - unfold next_body. rewrite (gens_alloc_old _ _ _ _ Hsrc).
    cbn [mbind option_bind]. unfold walk_k, finish.
    by rewrite (set_gen_alloc GenRunning GenDone h).
Qed.

(** ** A view iterated twice *)

Lemma run_nil src : run [] src = Ok src.
Proof. induction src as [|x rest IH]; simpl; [done|]. by rewrite IH. Qed.

Lemma Final_top ly below src h :
  Final (ly :: below) src h → gens h !! lgid ly = Some GenDone.
Proof. destruct ly; simpl; by intros (? & _). Qed.

Lemma view_iterated q l below src h rs :
  View q l below src h → run (tests_of below) src = Ok rs →
  ∃ fuel h',
    py_list fuel q h = Some (h', Ok rs) ∧
    nodes h' = nodes h ∧
    cache_of h' q = Some rs ∧
    (∀ q' l' ts', (q', l', ts') ∈ node_caches below →
       cache_of h' q' = Some (List.filter (passes ts') src)) ∧
    ∃ fuel', py_list fuel' q h' = Some ((alloc_gen GenDone h').1, Ok rs).
Proof.
  intros HV Hrun. pose proof HV as ((n & Hn & Hl & Hr & _) & Hc & Hlb & HI).
  destruct (py_list_view _ _ _ _ _ HV) as (fuel & h' & Hp & Hf & HF).
  specialize (HF rs Hrun). rewrite Hrun in Hp.
  destruct Hf as (N & _). rewrite nodes_alloc in N.
  pose proof HF as (Hg & _ & Hc' & HFb).
  rewrite <- (run_Ok_filter _ _ _ Hrun) in Hc'.
  assert (nodes h' !! q = Some n) as Hn' by by rewrite N.
  exists fuel, h'. split_and!; try done.
  - unfold cache_of. rewrite Hn'. simpl. by rewrite Hl.
  - intros q' l' ts' Hin. by apply (Final_caches below _ _ _ l').
  - destruct rs as [|r rs].
    + apply (py_list_exhausted h' q n below src); try done; [by rewrite Hl|].
      destruct below as [|ly below].
      * rewrite run_nil in Hrun. by simplify_eq.
      * by apply (Final_top ly below src).
    + apply (py_list_replay h' q n); try done. by rewrite Hl.
Qed.

(** A partial iteration of a view: the first [k] elements that pass, and
    they are what its cache holds afterwards. *)
Lemma partial_view q l below src h k :
  View q l below src h →
  (∀ x, x ∈ src → ∃ b, thr (tests_of below) x = Ok b) →
  ∃ fuel h',
    partial_iter fuel k q h =
      Some (h', Ok (take k (List.filter (passes (tests_of below)) src))) ∧
    nodes h' = nodes h ∧
    cache_of h' q = Some (take k (List.filter (passes (tests_of below)) src)).
Proof.
  intros ((n & Hn & Hl & Hr & _) & Hc & Hlb & HI) Hok.
  set (g := length (gens h)).
  assert (Inv (LNode g q l :: below) [] src (alloc_gen (QIterStart q) h).1) as HI'.
  { simpl. split_and!; try done.
    - exists n. split_and!; try done. right. split_and!; try done.
      by apply list_lookup_middle.
    - intros Hg. apply (Inv_gids_lt _ _ _ _ _ HI) in Hg. unfold g in Hg. lia.
    - eapply Inv_extends; [apply extends_alloc_gen|done]. }
  destruct (take_stack _ _ _ k _ _ HI' Hok)
    as (fuel & h' & done' & Ht & (N & _) & Hst & Hdone).
  exists fuel, (set_gen g GenDone h'). unfold partial_iter.
  change (alloc_gen (QIterStart q) h) with ((alloc_gen (QIterStart q) h).1, g).
  cbv beta iota. cbn [lgid] in Ht. rewrite Ht.
  assert (lists h' !! l =
          Some (take k (List.filter (passes (tests_of below)) src))) as Hc'.
  { cbn [tests_of] in Hdone. rewrite <- (app_nil_l (take _ _)).
    change [] with (List.filter (passes (tests_of below)) []) at 1.
    rewrite <- Hdone.
    destruct Hst as [[todo' (_ & ? & _)]|(_ & _ & ? & _)]; done. }
  split_and!; try done.
  unfold cache_of. cbn [nodes lists set_gen]. rewrite N.
  change (nodes (alloc_gen (QIterStart q) h).1) with (nodes h).
  rewrite Hn. simpl. by rewrite Hl.
Qed.

(** ** From tests that never raise to plain filtering *)

Lemma passes_holds ts x : passes ts x = forallb (holds x) ts.
Proof.
  unfold passes. induction ts as [|[k v] ts IH]; simpl; [done|].
  unfold holds at 1. simpl. rewrite <- IH.
  destruct (thr ts x) as [[|]|e]; simpl; try done.
  - by rewrite andb_true_r.
  - by rewrite andb_false_r.
  - by rewrite andb_false_r.
Qed.

Lemma forallb_rev {A : Type} (f : A → bool) (xs : list A) :
  forallb f (rev xs) = forallb f xs.
Proof.
  induction xs as [|x xs IH]; simpl; [done|].
  rewrite forallb_app, IH. simpl. rewrite andb_true_r. apply andb_comm.
Qed.

Lemma passes_rev ts x : passes (rev ts) x = forallb (holds x) ts.
Proof. by rewrite passes_holds, forallb_rev. Qed.

Lemma thr_total ts x :
  forallb (λ t : test, is_ok (eval_cond t.1 t.2 x)) ts = true →
  ∃ b, thr ts x = Ok b.
Proof.
  induction ts as [|[k v] ts IH]; simpl; [by exists true|].
  intros [Hk Hts]%andb_true_iff. destruct (IH Hts) as [[|] ->]; [|by exists false].
  destruct (eval_cond k v x) as [b|e]; [by exists b|done].
Qed.

Lemma no_raise_total src ts x :
  no_raise src ts = true → x ∈ src → ∃ b, thr (rev ts) x = Ok b.
Proof.
  intros Hnr Hx. apply thr_total. rewrite forallb_rev.
  unfold no_raise in Hnr. rewrite forallb_forall in Hnr.
  apply Hnr. by apply list_elem_of_In.
Qed.

Lemma run_no_raise src ts :
  no_raise src ts = true →
  run (rev ts) src = Ok (List.filter (λ x, forallb (holds x) ts) src).
Proof.
  intros Hnr. rewrite run_total.
  - f_equal. apply List.filter_ext. intros x. apply passes_rev.
  - intros x Hx. apply thr_total. rewrite forallb_rev.
    unfold no_raise in Hnr. rewrite forallb_forall in Hnr.
    apply Hnr. by apply list_elem_of_In.
Qed.

Lemma calls_tests_Forall2 calls tss :
  calls_tests calls = Some tss →
  Forall2 (λ c ts, call_tests c = Some ts) calls tss.
Proof.
  revert tss. induction calls as [|c calls IH]; intros tss; simpl.
  - intros [= <-]. constructor.
  - destruct (call_tests c) as [ts|] eqn:Et; [|done].
    destruct (calls_tests calls) as [tss'|]; [|done].
    intros [= <-]. constructor; [done|by apply IH].
Qed.

(** ** A chain of calls, built and iterated twice *)

Lemma chain_iterated h0 src calls tss :
  calls_tests calls = Some tss → no_raise src (concat tss) = true →
  ∃ h1 h2 fuel h3,
    bound_root src h0 = Some (h1, length (nodes h0)) ∧
    chain calls (length (nodes h0)) h1 =
      Some (Ok (h2, length (nodes h0) + length calls)) ∧
    (∀ j, j ≤ length calls → cache_of h2 (length (nodes h0) + j) = Some []) ∧
    py_list fuel (length (nodes h0) + length calls) h2 =
      Some (h3, Ok (List.filter (λ x, forallb (holds x) (concat tss)) src)) ∧
    cache_of h3 (length (nodes h0) + length calls) =
      Some (List.filter (λ x, forallb (holds x) (concat tss)) src) ∧
    (∀ j, j < length calls →
       cache_of h3 (length (nodes h0) + j) =
       Some (List.filter (λ x, forallb (holds x) (concat (take j tss))) src)) ∧
    ∃ fuel',
      py_list fuel' (length (nodes h0) + length calls) h3 =
      Some ((alloc_gen GenDone h3).1,
            Ok (List.filter (λ x, forallb (holds x) (concat tss)) src)).
Proof.
  intros Hts Hnr. apply calls_tests_Forall2 in Hts. apply run_no_raise in Hnr.
  destruct (bound_root_view src h0) as (h1 & l0 & Hroot & HV0 & _ & Hlen).
  destruct (chain_view _ _ _ _ _ _ _ HV0 (eq_sym Hlen) Hts)
    as (h2 & l' & below' & Hch & HV & _ & Htests & _ & Hj).
  simpl in Htests. rewrite app_nil_r in Htests.
  rewrite <- Htests in Hnr.
  destruct (view_iterated _ _ _ _ _ _ HV Hnr)
    as (fuel & h3 & Hp & _ & Hc & Hanc & Hp2).
  exists h1, h2, fuel, h3. split_and!; try done.
  - intros j Hle. destruct (decide (j = length calls)) as [->|Hne].
    + destruct HV as ((n & Hn & Hl & _) & Hc0 & _).
      unfold cache_of. rewrite Hn. simpl. by rewrite Hl.
    + destruct (Hj j ltac:(lia)) as [lj Hin].
      destruct HV as (_ & _ & _ & HI).
      by apply (Inv_caches_fresh _ _ _ _ _ _ HI Hin).
  - intros j Hlt. destruct (Hj j Hlt) as [lj Hin].
    rewrite (Hanc _ _ _ Hin). f_equal. apply List.filter_ext.
    intros x. rewrite app_nil_r. apply passes_rev.
Qed.

Lemma chain_partial h0 src calls tss k :
  calls_tests calls = Some tss → no_raise src (concat tss) = true →
  ∃ h1 h2 fuel h3,
    bound_root src h0 = Some (h1, length (nodes h0)) ∧
    chain calls (length (nodes h0)) h1 =
      Some (Ok (h2, length (nodes h0) + length calls)) ∧
    partial_iter fuel k (length (nodes h0) + length calls) h2 =
      Some (h3, Ok (take k (List.filter
                              (λ x, forallb (holds x) (concat tss)) src))) ∧
    cache_of h3 (length (nodes h0) + length calls) =
      Some (take k (List.filter (λ x, forallb (holds x) (concat tss)) src)).
Proof.
  intros Hts Hnr. apply calls_tests_Forall2 in Hts.
  destruct (bound_root_view src h0) as (h1 & l0 & Hroot & HV0 & _ & Hlen).
  destruct (chain_view _ _ _ _ _ _ _ HV0 (eq_sym Hlen) Hts)
    as (h2 & l' & below' & Hch & HV & _ & Htests & _ & Hj).
  simpl in Htests. rewrite app_nil_r in Htests.
  destruct (partial_view _ _ _ _ _ k HV) as (fuel & h3 & Hp & _ & Hc).
  { intros x Hx. rewrite Htests. by apply (no_raise_total src). }
  rewrite Htests in Hp, Hc.
  rewrite (List.filter_ext _ (λ x, forallb (holds x) (concat tss)))
    in Hp, Hc by (intros x; apply passes_rev).
  by exists h1, h2, fuel, h3.
Qed.

(** * Main results *)

(** ** Deferred comparisons *)

Lemma rbind_assoc {A B C : Type} (m : res A) (f : A → res B) (g : B → res C) :
  rbind (rbind m f) g = rbind m (λ a, rbind (f a) g).
Proof. by destruct m. Qed.

Lemma accessor_getattr (v : Value) name x :
  accessor (Value_getattr v name) x = rbind (accessor v x) (λ o, getattr o name).
Proof. unfold accessor, Value_getattr. simpl. by destruct (_getattr v). Qed.

Lemma accessor_chain names : ∀ (v : Value) x,
  accessor (Value_chain v names) x = rbind (accessor v x) (resolve names).
Proof.
  induction names as [|name names IH]; intros v x; simpl.
  - by destruct (accessor v x).
  - unfold Value_chain in *. simpl. rewrite IH, accessor_getattr.
    by rewrite rbind_assoc.
Qed.

Lemma check_attr_accessor (v : Value) comp x :
  Value_check_attr v comp x = rbind (accessor v x) comp.
Proof. unfold Value_check_attr, accessor. by destruct (_getattr v). Qed.

(** C2. A comparison built on [value.a1.a2...ak], applied to an element
    [x], looks the names up one after the other starting from [x] and
    compares what it finds with the literal; this holds for every depth,
    and every attribute access gives a new [Value] whose accessor is the
    parent's followed by one more lookup. *)
Theorem deferred_chain_resolves_in_order (names : list string) (x c : obj) :
  Value_gt (Value_chain (Value_init None) names) c x
    = rbind (resolve names x) (λ y, py_gt y c) ∧
  Value_lt (Value_chain (Value_init None) names) c x
    = rbind (resolve names x) (λ y, py_lt y c) ∧
  Value_eq (Value_chain (Value_init None) names) c x
    = rbind (resolve names x) (λ y, Ok (py_eq y c)) ∧
  (∀ (v : Value) name,
     ∃ ga, _getattr (Value_getattr v name) = Some ga ∧
           ∀ o, ga o = rbind (accessor v o) (λ o', getattr o' name)) ∧
  (∀ (v : Value) name,
     Value_chain v (names ++ [name]) = Value_getattr (Value_chain v names) name).
Proof.
  unfold Value_gt, Value_lt, Value_eq.
  rewrite !check_attr_accessor, !accessor_chain. split_and!; try done.
  - intros v name. eexists. split; [done|].
    intros o. unfold accessor. by destruct (_getattr v).
  - intros v name. unfold Value_chain. by rewrite fold_left_app.
Qed.

(** ** [exclude] with one argument *)

Lemma single_call h0 src a args kwargs ts :
  call_tests (Call a args kwargs) = Some ts →
  ∃ h1 h2 fuel h3,
    bound_root src h0 = Some (h1, length (nodes h0)) ∧
    call_method (length (nodes h0)) (action_name a) args kwargs h1 =
      Some (Ok (h2, S (length (nodes h0)))) ∧
    cache_of h2 (length (nodes h0)) = Some [] ∧
    cache_of h2 (S (length (nodes h0))) = Some [] ∧
    py_list fuel (S (length (nodes h0))) h2 = Some (h3, run (rev ts) src).
Proof.
  intros Ht.
  destruct (bound_root_view src h0) as (h1 & l0 & Hroot & HV0 & _ & Hlen).
  destruct (view_call _ _ _ _ _ _ _ _ _ HV0 Ht)
    as (h2 & l1 & below1 & Hcall & HV1 & Hext & Hlen2 & Hts & Hnc).
  rewrite Hlen in Hcall, HV1.
  destruct (py_list_view _ _ _ _ _ HV1) as (fuel & h3 & Hp & _).
  pose proof HV1 as ((n1 & Hn1 & Hl1 & _) & Hc1 & _ & HI).
  exists h1, h2, fuel, h3. split_and!; try done.
  - apply (Inv_caches_fresh _ _ _ _ l0 [] HI). rewrite Hnc.
    apply elem_of_cons. by left.
  - unfold cache_of. rewrite Hn1. simpl. by rewrite Hl1.
  - rewrite Hp, Hts. simpl. by rewrite app_nil_r.
Qed.

Lemma run_single_total t src :
  (∀ x, x ∈ src → ∃ b, eval_cond t.1 t.2 x = Ok b) →
  run [t] src = Ok (List.filter (λ x, holds x t) src).
Proof.
  intros Hok. rewrite run_total.
  - f_equal. apply List.filter_ext. intros x. rewrite passes_holds. simpl.
    apply andb_true_r.
  - intros x Hx. destruct t as [k v]. simpl. by apply Hok.
Qed.

(** C6. [exclude(v)] with a literal [v], on a view bound to [src], gives
    the elements of [src] that are not equal to [v], in their order and
    with their multiplicity. *)
Theorem exclude_literal_removes_equal (h0 : heap) (src : list obj) (v : obj) :
  ∃ h1 Q h2 q fuel h3,
    bound_root src h0 = Some (h1, Q) ∧
    call_method Q "exclude" [VObj v] [] h1 = Some (Ok (h2, q)) ∧
    py_list fuel q h2 =
      Some (h3, Ok (List.filter (λ r, negb (py_eq r v)) src)).
Proof.
  destruct (single_call h0 src ActExclude [VObj v] [] [(CondNe, VObj v)] eq_refl)
    as (h1 & h2 & fuel & h3 & Hroot & Hcall & _ & _ & Hp).
  cbn [rev app] in Hp.
  exists h1, (length (nodes h0)), h2, (S (length (nodes h0))), fuel, h3.
  split_and!; try done.
  rewrite Hp, run_single_total by (intros x _; by eexists).
  do 3 f_equal. apply List.filter_ext. intros x.
  unfold holds. simpl. by destruct (py_eq x v).
Qed.

(** A single keyword, of any name but [result], makes one generator
    expression that calls its value. *)
Lemma call_tests_exclude_named (key : string) v :
  key ≠ "result" → callable v = true →
  call_tests (Call ActExclude [] [(key, v)]) = Some [(CondCall, v)].
Proof.
  intros Hkey Hc. unfold call_tests, rounds, gives_result_twice. simpl.
  apply String.eqb_neq in Hkey. rewrite Hkey, Hc. done.
Qed.

(** The parts of the text on [exclude] that the code does have, for a
    single argument: a named predicate, under any name that can be
    passed, keeps the elements on which it returns true, as [filter]
    does; a positional argument is compared with the elements by [!=]. *)
Lemma exclude_named_keeps_positional_compares (h0 : heap) (src : list obj)
    (key : string) (f : obj → res bool) (v : pyval) :
  key ≠ "result" →
  forallb (λ x, is_ok (f x)) src = true →
  (∃ h1 Q h2 q fuel h3,
     bound_root src h0 = Some (h1, Q) ∧
     call_method Q "exclude" [] [(key, VFun f)] h1 = Some (Ok (h2, q)) ∧
     py_list fuel q h2 =
       Some (h3, Ok (List.filter
                       (λ x, match f x with Ok true => true | _ => false end)
                       src))) ∧
  (∃ h1 Q h2 q fuel h3,
     bound_root src h0 = Some (h1, Q) ∧
     call_method Q "exclude" [v] [] h1 = Some (Ok (h2, q)) ∧
     py_list fuel q h2 = Some (h3, Ok (List.filter (λ r, py_ne r v) src))).
Proof.
  intros Hkey Hf. split.
  - destruct (single_call h0 src ActExclude [] [(key, VFun f)]
                [(CondCall, VFun f)] (call_tests_exclude_named key (VFun f) Hkey eq_refl))
      as (h1 & h2 & fuel & h3 & Hroot & Hcall & _ & _ & Hp).
    cbn [rev app] in Hp.
    exists h1, (length (nodes h0)), h2, (S (length (nodes h0))), fuel, h3.
    split_and!; try done. rewrite Hp, run_single_total; [done|].
    intros x Hx. rewrite forallb_forall in Hf.
    specialize (Hf x ltac:(by apply list_elem_of_In)). simpl.
    destruct (f x) as [b|e]; [by exists b|done].
  - destruct (single_call h0 src ActExclude [v] [] [(CondNe, v)] eq_refl)
      as (h1 & h2 & fuel & h3 & Hroot & Hcall & _ & _ & Hp).
    cbn [rev app] in Hp.
    exists h1, (length (nodes h0)), h2, (S (length (nodes h0))), fuel, h3.
    split_and!; try done.
    rewrite Hp, run_single_total by (intros x _; by eexists).
    do 3 f_equal. apply List.filter_ext. intros x.
    unfold holds. simpl. by destruct (py_ne x v).
Qed.

(** C7.  What the code does with a positional callable: the first loop
    of [exclude] has no [callable] test, so [exclude(f)] compares every
    element with the function [f] by [!=] and never calls [f].  Whatever
    [f] would return or raise, the view gives every element of the
    source: nothing is excluded, and nothing is filtered. *)
Theorem exclude_never_calls_a_positional_callable (h0 : heap) (src : list obj)
    (f : obj → res bool) :
  ∃ h1 Q h2 q fuel h3,
    bound_root src h0 = Some (h1, Q) ∧
    call_method Q "exclude" [VFun f] [] h1 = Some (Ok (h2, q)) ∧
    py_list fuel q h2 = Some (h3, Ok src).
Proof.
  destruct (single_call h0 src ActExclude [VFun f] [] [(CondNe, VFun f)] eq_refl)
    as (h1 & h2 & fuel & h3 & Hroot & Hcall & _ & _ & Hp).
  cbn [rev app] in Hp.
  exists h1, (length (nodes h0)), h2, (S (length (nodes h0))), fuel, h3.
  split_and!; try done.
  rewrite Hp, run_single_total by (intros x _; by eexists).
  do 3 f_equal. clear. induction src as [|x src IH]; simpl; [done|].
  by rewrite IH.
Qed.

(** ** [filter] with several predicates: only the last one is applied *)

Lemma call_tests_filter args kwargs vs' v :
  gives_result_twice kwargs = false →
  args ++ map snd kwargs = vs' ++ [v] → forallb callable (vs' ++ [v]) = true →
  call_tests (Call ActFilter args kwargs) =
  Some (map (λ _, (CondCall, v)) (vs' ++ [v])).
Proof.
  intros Hkw Hvs Hc. unfold call_tests, rounds. rewrite Hkw, Hvs, Hc. unfold test.
  destruct (map (λ v0, (CondCall, v0)) (vs' ++ [v])) as [|r rs] eqn:EL.
  { apply map_eq_nil in EL. by destruct vs'. }
  rewrite <- EL. unfold applied, test.
  assert (last (map (λ v0, (CondCall, v0)) (vs' ++ [v])) = Some (CondCall, v))
    as -> by (rewrite map_app; apply last_snoc).
  by rewrite map_map.
Qed.

Lemma forallb_const_tests (f : test → bool) (t : test (obj := obj)) vs' v :
  forallb f (map (λ _, t) (vs' ++ [v])) = f t.
Proof.
  induction vs' as [|v' vs' IH]; simpl; [apply andb_true_r|].
  rewrite IH. apply andb_diag.
Qed.

(** What the code does on [filter(p1, ..., pn)], for any number of
    predicates, positional or named (under names that can be passed): the
    view gives the elements on which the last one holds; the others are
    never called. *)
Lemma filter_applies_last_predicate h0 src args kwargs vs' v :
  gives_result_twice kwargs = false →
  args ++ map snd kwargs = vs' ++ [v] →
  forallb callable (vs' ++ [v]) = true →
  forallb (λ x, is_ok (eval_cond CondCall v x)) src = true →
  ∃ h1 h2 fuel h3,
    bound_root src h0 = Some (h1, length (nodes h0)) ∧
    call_method (length (nodes h0)) "filter" args kwargs h1 =
      Some (Ok (h2, S (length (nodes h0)))) ∧
    py_list fuel (S (length (nodes h0))) h2 =
      Some (h3, Ok (List.filter (λ x, holds x (CondCall, v)) src)).
Proof.
  intros Hkw Hvs Hc Hok.
  destruct (single_call h0 src ActFilter args kwargs _
              (call_tests_filter _ _ _ _ Hkw Hvs Hc))
    as (h1 & h2 & fuel & h3 & Hroot & Hcall & _ & _ & Hp).
  exists h1, h2, fuel, h3. split_and!; try done.
  rewrite Hp, run_total.
  - do 3 f_equal. apply List.filter_ext. intros x.
    by rewrite passes_rev, forallb_const_tests.
  - intros x Hx. apply thr_total. rewrite forallb_rev, forallb_const_tests.
    rewrite forallb_forall in Hok. apply Hok. by apply list_elem_of_In.
Qed.

(** Two calls chained apply both predicates. *)
Lemma filter_chained_applies_both h0 src (f1 f2 : obj → res bool) :
  no_raise src [(CondCall, VFun f1); (CondCall, VFun f2)] = true →
  ∃ h1 h2 fuel h3,
    bound_root src h0 = Some (h1, length (nodes h0)) ∧
    chain [Call ActFilter [VFun f1] []; Call ActFilter [VFun f2] []]
      (length (nodes h0)) h1 = Some (Ok (h2, length (nodes h0) + 2)) ∧
    py_list fuel (length (nodes h0) + 2) h2 =
      Some (h3, Ok (List.filter
                      (λ x, holds x (CondCall, VFun f1) &&
                            holds x (CondCall, VFun f2)) src)).
Proof.
  intros Hnr.
  destruct (chain_iterated h0 src
              [Call ActFilter [VFun f1] []; Call ActFilter [VFun f2] []]
              [[(CondCall, VFun f1)]; [(CondCall, VFun f2)]] eq_refl Hnr)
    as (h1 & h2 & fuel & h3 & Hroot & Hch & _ & Hp & _).
  cbn [length] in Hch, Hp.
  exists h1, h2, fuel, h3. split_and!; try done.
  rewrite Hp. do 3 f_equal. apply List.filter_ext. intros x. simpl.
  by rewrite andb_true_r.
Qed.

(** ** A missing attribute *)

(** C8. A predicate whose accessor chain fails on an element [x] of the
    source: building the view raises nothing and takes no element (both
    caches are still empty), and iterating the view raises the error of
    the lookup once [x] is reached; [AttributeError] when the attribute
    is missing. *)
Theorem missing_attribute_raises_on_iteration (h0 : heap)
    (pre post : list obj) (x : obj) (names : list string)
    (comp : obj → res bool) (e : exn) :
  let pred := Value_check_attr (Value_chain (Value_init None) names) comp in
  forallb (λ y, is_ok (pred y)) pre = true →
  resolve names x = Raise e →
  ∃ h1 Q h2 q,
    bound_root (pre ++ x :: post) h0 = Some (h1, Q) ∧
    call_method Q "filter" [VFun pred] [] h1 = Some (Ok (h2, q)) ∧
    cache_of h2 Q = Some [] ∧ cache_of h2 q = Some [] ∧
    ∃ fuel h3, py_list fuel q h2 = Some (h3, Raise e).
Proof.
  intros pred Hpre Hx.
  destruct (single_call h0 (pre ++ x :: post) ActFilter [VFun pred] []
              [(CondCall, VFun pred)] eq_refl)
    as (h1 & h2 & fuel & h3 & Hroot & Hcall & Hc0 & Hc1 & Hp).
  cbn [rev app] in Hp.
  exists h1, (length (nodes h0)), h2, (S (length (nodes h0))).
  split_and!; try done. exists fuel, h3. rewrite Hp.
  do 2 f_equal. apply run_raise.
  - intros y Hy. rewrite forallb_forall in Hpre.
    specialize (Hpre y ltac:(by apply list_elem_of_In)). simpl.
    destruct (pred y) as [b|e']; [by exists b|done].
  - simpl. unfold pred. rewrite check_attr_accessor, accessor_chain.
    simpl. by rewrite Hx.
Qed.

(** ** The effective result *)

Lemma Query_result_from_enough h : parents_below h →
  ∀ fuel fuel' q, q < fuel → q < fuel' →
    Query_result_from fuel h q = Query_result_from fuel' h q.
Proof.
  intros Hwf. induction fuel as [|fuel IH]; intros fuel' q Hq Hq'; [lia|].
  destruct fuel' as [|fuel']; [lia|]. simpl.
  destruct (nodes h !! q) as [n|] eqn:Hn; [|done].
  destruct (_result n); [done|].
  destruct (_parent n) as [p|] eqn:Hp; [|done].
  pose proof (Hwf q n p Hn Hp). apply IH; lia.
Qed.

Lemma Query_result_call h q o h' :
  Query_call q o h = Some h' → Query_result h' q = Some (Some o).
Proof.
  unfold Query_call. destruct (nodes h !! q) as [n|] eqn:Hn; [|done].
  simpl. intros [= <-]. apply lookup_lt_Some in Hn.
  eapply Query_result_own;
    [simpl; by apply list_lookup_insert_eq|reflexivity].
Qed.

Lemma Query_result_wrapper h a self args kwargs h' q' :
  func_wrapper a self args kwargs h = Some (Ok (h', q')) →
  ∃ r, Query_result h' q' = Some (Some r).
Proof.
  unfold func_wrapper. destruct (nodes h !! self) as [n|]; [|done].
  cbn [mbind option_bind].
  destruct (Query_init (map snd (_actions n)) (Some self) h) as [h1 query].
  destruct (run_action a self args kwargs h1) as [[h2 result]|e];
    [|intros; simplify_eq].
  unfold Query_set_result.
  destruct (nodes h2 !! query) as [n'|] eqn:Hn'; [|intros; simplify_eq].
  cbn [mbind option_bind]. intros ?; simplify_eq.
  exists result. apply lookup_lt_Some in Hn'.
  eapply Query_result_own;
    [simpl; by apply list_lookup_insert_eq|reflexivity].
Qed.

(** C9, as the code has it.  The effective result of a node is its own
    result when that is set; otherwise it is the effective result of its
    parent; with neither, as for a root that was constructed and not
    bound, it is [None].  A node that was bound, and the node an operation
    returns, have their own result. *)
Theorem result_read_through (h : heap) (q : nat) (n : Query) :
  nodes h !! q = Some n → parents_below h →
  match _result n, _parent n with
  | Some r, _ => Query_result h q = Some (Some r)
  | None, Some p => Query_result h q = Query_result h p
  | None, None => Query_result h q = Some None
  end ∧
  (∀ o h', Query_call q o h = Some h' → Query_result h' q = Some (Some o)) ∧
  (∀ a args kwargs h' q',
     func_wrapper a q args kwargs h = Some (Ok (h', q')) →
     ∃ r, Query_result h' q' = Some (Some r)).
Proof.
  intros Hn Hwf. split_and!.
  - destruct (_result n) as [r|] eqn:Hr; [by eapply Query_result_own|].
    unfold Query_result. pose proof (lookup_lt_Some _ _ _ Hn) as Hlt.
    destruct (length (nodes h)) as [|m] eqn:Hm; [lia|].
    destruct (_parent n) as [p|] eqn:Hp.
    + pose proof (Hwf q n p Hn Hp).
      transitivity (Query_result_from m h p).
      * simpl. by rewrite Hn, Hr, Hp.
      * apply Query_result_from_enough; [done|lia..].
    + simpl. by rewrite Hn, Hr, Hp.
  - intros o h'. apply Query_result_call.
  - intros a args kwargs h' q'. apply Query_result_wrapper.
Qed.

(** ** Caches *)

(** C4, as the code has it.  A partial iteration that took [k] elements
    of a view leaves them in the cache of the view; and a fresh iteration
    of a node whose cache is not empty, in any store, gives exactly the
    cached elements: nothing is taken from the source of the node, which
    is neither restarted nor resumed, and the store only gains the
    finished iterator. *)
Theorem fresh_iteration_replays_cached_prefix (h0 : heap) (src : list obj)
    (calls : list call) (tss : list (list test)) (k : nat) :
  calls_tests calls = Some tss → no_raise src (concat tss) = true →
  (∃ h1 Q h2 q fuel h3 prefix,
     bound_root src h0 = Some (h1, Q) ∧
     chain calls Q h1 = Some (Ok (h2, q)) ∧
     partial_iter fuel k q h2 = Some (h3, Ok prefix) ∧
     prefix = take k (List.filter (λ x, forallb (holds x) (concat tss)) src) ∧
     cache_of h3 q = Some prefix ∧
     (prefix ≠ [] →
      ∃ fuel', py_list fuel' q h3 = Some ((alloc_gen GenDone h3).1, Ok prefix))) ∧
  (∀ (h : heap) q xs,
     cache_of h q = Some xs → xs ≠ [] →
     ∃ fuel, py_list fuel q h = Some ((alloc_gen GenDone h).1, Ok xs)).
Proof.
  intros Hts Hnr.
  assert (∀ (h : heap) q xs,
            cache_of h q = Some xs → xs ≠ [] →
            ∃ fuel, py_list fuel q h = Some ((alloc_gen GenDone h).1, Ok xs))
    as Hreplay.
  { intros h q xs. unfold cache_of.
    destruct (nodes h !! q) as [n|] eqn:Hn; [|done]. simpl.
    intros Hl Hne. by apply (py_list_replay h q n). }
  split; [|done].
  destruct (chain_partial h0 src calls tss k Hts Hnr)
    as (h1 & h2 & fuel & h3 & Hroot & Hch & Hp & Hc).
  exists h1, (length (nodes h0)), h2, (length (nodes h0) + length calls),
    fuel, h3, (take k (List.filter (λ x, forallb (holds x) (concat tss)) src)).
  split_and!; try done. intros Hne. by apply Hreplay.
Qed.

(** C3, where it holds.  A view made of a root bound to a sequence and a
    chain of calls, iterated to the end and then again: the second
    iteration gives the same elements, and leaves the store as it was but
    for its own finished iterator, so that no source is walked and no
    predicate called again.  And in any store, a node whose cache is not
    empty gives the cached elements at every iteration. *)
Theorem second_iteration_replays_cache (h0 : heap) (src : list obj)
    (calls : list call) (tss : list (list test)) :
  calls_tests calls = Some tss → no_raise src (concat tss) = true →
  (∃ h1 Q h2 q fuel h3 rs fuel',
     bound_root src h0 = Some (h1, Q) ∧
     chain calls Q h1 = Some (Ok (h2, q)) ∧
     py_list fuel q h2 = Some (h3, Ok rs) ∧
     py_list fuel' q h3 = Some ((alloc_gen GenDone h3).1, Ok rs)) ∧
  (∀ (h : heap) q xs,
     cache_of h q = Some xs → xs ≠ [] →
     ∃ fuel fuel',
       py_list fuel q h = Some ((alloc_gen GenDone h).1, Ok xs) ∧
       py_list fuel' q (alloc_gen GenDone h).1 =
         Some ((alloc_gen GenDone (alloc_gen GenDone h).1).1, Ok xs)).
Proof.
  intros Hts Hnr. split.
  - destruct (chain_iterated h0 src calls tss Hts Hnr)
      as (h1 & h2 & fuel & h3 & Hroot & Hch & _ & Hp & _ & _ & fuel' & Hp2).
    by exists h1, (length (nodes h0)), h2, (length (nodes h0) + length calls),
      fuel, h3, (List.filter (λ x, forallb (holds x) (concat tss)) src), fuel'.
  - intros h q xs. unfold cache_of.
    destruct (nodes h !! q) as [n|] eqn:Hn; [|done]. simpl. intros Hl Hne.
    destruct (py_list_replay h q n xs Hn Hl Hne) as [fuel Hp].
    destruct (py_list_replay (alloc_gen GenDone h).1 q n xs Hn Hl Hne)
      as [fuel' Hp'].
    by exists fuel, fuel'.
Qed.



End QuandryFacts.

(** * The program on concrete data *)

(** The assertions of the test usage hold in the embedding. *)
Example test_usage_ints_ok :
  test_usage_ints =
  Some [Ok (ints [3; 4; 5]%Z); Ok (ints [3; 4; 5]%Z);
        Ok (ints [4; 5]%Z); Ok (ints [4]%Z)].
Proof. reflexivity. Qed.

Example test_usage_nested_ok :
  test_usage_nested = Some (Ok [Bleh 4 (Bleh 5 (Bleh 6 (PInt 6%Z)))]).
Proof. reflexivity. Qed.

(** ** [filter] with several predicates *)

(** C1, at [filter(value > 1, value < 3)] on [[1, 2, 3]]: the view gives
    [[1, 2]], the elements below 3, and not [[2]], the only element on
    which both predicates hold.  Both generator expressions read the
    variable [value] of the call when they run, and by then it holds the
    last predicate. *)
Theorem filter_two_predicates_keeps_last_only :
  filter_two_script = Some (Ok (ints [1; 2]%Z)) ∧
  List.filter (λ x, holds x (CondCall, gt 1) && holds x (CondCall, lt 3))
    (ints [1; 2; 3]%Z) = ints [2]%Z.
Proof. split; reflexivity. Qed.

(** C5, at the same predicates: the two calls chained give [[2]], the
    single call with both predicates gives [[1, 2]]. *)
Theorem chained_and_single_filter_differ :
  filter_chained_script = Some (Ok (ints [2]%Z)) ∧
  filter_two_script = Some (Ok (ints [1; 2]%Z)).
Proof. split; reflexivity. Qed.

(** ** Counterexamples *)

(** C3 fails on a root that is bound again to a view that draws on an
    older iterator of the root itself: what that iterator yields lands
    in the new cache of the root once more than the iteration of the
    root yields it.  The first full iteration gives [[2]], the second
    [[2, 2]]. *)
Lemma second_iteration_differs_after_rebinding :
  rebinding_script = Some (Ok (ints [2]%Z), Ok (ints [2; 2]%Z)) ∧
  ints [2]%Z ≠ ints [2; 2]%Z.
Proof. split; [reflexivity|discriminate]. Qed.

(** C4 fails: after a partial iteration that took one element of
    [[1, 2, 3]], a fresh iteration gives the cached [[1]] and stops; the
    source is not walked again, the cache is still [[1]]. *)
Lemma fresh_iteration_after_partial_does_not_restart :
  partial_script =
    Some (Ok (ints [1]%Z), Ok (ints [1]%Z), Some (ints [1]%Z)) ∧
  ints [1]%Z ≠ ints [1; 2; 3]%Z.
Proof. split; [reflexivity|discriminate]. Qed.

(** A positional callable on concrete data: [exclude(value > 2)] keeps
    every element of [[1, 2, 3]], where [filter(value > 2)] keeps [[3]]. *)
Lemma exclude_positional_callable_is_not_a_predicate :
  exclude_callable_script = Some (Ok (ints [1; 2; 3]%Z), Ok (ints [3]%Z)) ∧
  ints [1; 2; 3]%Z ≠ ints [3]%Z.
Proof. split; [reflexivity|discriminate]. Qed.


(** C9 fails for a root that was constructed and not bound: its
    effective result is [None], and iterating it raises [TypeError]. *)
Lemma unbound_root_has_no_result :
  unbound_script = Some (None, Raise TypeError).
Proof. reflexivity. Qed.

(** ** The theorems at concrete inputs *)

Lemma second_iteration_replays_cache_witness :
  calls_tests [Call ActFilter [gt 2] []; Call ActExclude [VObj (PInt 5%Z)] []]
    = Some [[(CondCall, gt 2)]; [(CondNe, VObj (PInt 5%Z))]] ∧
  no_raise (ints [1; 2; 3; 4; 5]%Z)
    (concat [[(CondCall, gt 2)]; [(CondNe, VObj (PInt 5%Z))]]) = true ∧
  (∃ h1 Q h2 q fuel h3 rs fuel',
     bound_root (ints [1; 2; 3; 4; 5]%Z) empty_heap = Some (h1, Q) ∧
     chain [Call ActFilter [gt 2] []; Call ActExclude [VObj (PInt 5%Z)] []] Q h1
       = Some (Ok (h2, q)) ∧
     py_list fuel q h2 = Some (h3, Ok rs) ∧
     py_list fuel' q h3 = Some ((alloc_gen GenDone h3).1, Ok rs)) ∧
  (∀ (h : heap) q xs,
     cache_of h q = Some xs → xs ≠ [] →
     ∃ fuel fuel',
       py_list fuel q h = Some ((alloc_gen GenDone h).1, Ok xs) ∧
       py_list fuel' q (alloc_gen GenDone h).1 =
         Some ((alloc_gen GenDone (alloc_gen GenDone h).1).1, Ok xs)).
Proof.
  split; [reflexivity|]. split; [reflexivity|].
  exact (second_iteration_replays_cache empty_heap (ints [1; 2; 3; 4; 5]%Z)
           [Call ActFilter [gt 2] []; Call ActExclude [VObj (PInt 5%Z)] []]
           [[(CondCall, gt 2)]; [(CondNe, VObj (PInt 5%Z))]] eq_refl eq_refl).
Defined.


Lemma fresh_iteration_replays_cached_prefix_witness :
  calls_tests [Call ActFilter [gt 2] []] = Some [[(CondCall, gt 2)]] ∧
  no_raise (ints [1; 2; 3; 4; 5]%Z) (concat [[(CondCall, gt 2)]]) = true ∧
  (∃ h1 Q h2 q fuel h3 prefix,
     bound_root (ints [1; 2; 3; 4; 5]%Z) empty_heap = Some (h1, Q) ∧
     chain [Call ActFilter [gt 2] []] Q h1 = Some (Ok (h2, q)) ∧
     partial_iter fuel 2 q h2 = Some (h3, Ok prefix) ∧
     prefix = ints [3; 4]%Z ∧
     cache_of h3 q = Some prefix ∧
     (prefix ≠ [] →
      ∃ fuel', py_list fuel' q h3 = Some ((alloc_gen GenDone h3).1, Ok prefix))) ∧
  (∀ (h : heap) q xs,
     cache_of h q = Some xs → xs ≠ [] →
     ∃ fuel, py_list fuel q h = Some ((alloc_gen GenDone h).1, Ok xs)).
Proof.
  split; [reflexivity|]. split; [reflexivity|].
  exact (fresh_iteration_replays_cached_prefix empty_heap
           (ints [1; 2; 3; 4; 5]%Z) [Call ActFilter [gt 2] []]
           [[(CondCall, gt 2)]] 2 eq_refl eq_refl).
Defined.

Example exclude_named_keeps_positional_compares_ints :
  (∃ h1 Q h2 q fuel h3,
     bound_root (ints [1; 2; 3]%Z) empty_heap = Some (h1, Q) ∧
     call_method Q "exclude" [] [("keep"%string, gt 2)] h1 = Some (Ok (h2, q)) ∧
     py_list fuel q h2 = Some (h3, Ok (ints [3]%Z))) ∧
  (∃ h1 Q h2 q fuel h3,
     bound_root (ints [1; 2; 3]%Z) empty_heap = Some (h1, Q) ∧
     call_method Q "exclude" [VObj (PInt 2%Z)] [] h1 = Some (Ok (h2, q)) ∧
     py_list fuel q h2 = Some (h3, Ok (ints [1; 3]%Z))).
Proof.
  assert ("keep"%string ≠ "result"%string) as Hkey by discriminate.
  exact (exclude_named_keeps_positional_compares empty_heap (ints [1; 2; 3]%Z)
           "keep" (Value_gt value (PInt 2%Z)) (VObj (PInt 2%Z)) Hkey eq_refl).
Qed.

Lemma missing_attribute_raises_on_iteration_witness :
  let pred := Value_check_attr (Value_chain value ["prop"; "nope"])
                (λ y, py_gt y (PInt 2%Z)) in
  forallb (λ y, is_ok (pred y)) [] = true ∧
  resolve ["prop"; "nope"] (Bleh 1 (Bleh 2 (PInt 5%Z))) = Raise AttributeError ∧
  ∃ h1 Q h2 q,
    bound_root ([] ++ Bleh 1 (Bleh 2 (PInt 5%Z)) :: [PInt 7%Z]) empty_heap
      = Some (h1, Q) ∧
    call_method Q "filter" [VFun pred] [] h1 = Some (Ok (h2, q)) ∧
    cache_of h2 Q = Some [] ∧ cache_of h2 q = Some [] ∧
    ∃ fuel h3, py_list fuel q h2 = Some (h3, Raise AttributeError).
Proof.
  intros pred. split; [reflexivity|]. split; [reflexivity|].
  apply (missing_attribute_raises_on_iteration empty_heap []
           [PInt 7%Z] (Bleh 1 (Bleh 2 (PInt 5%Z))) ["prop"; "nope"]
           (λ y, py_gt y (PInt 2%Z)) AttributeError); reflexivity.
Defined.

Lemma result_read_through_witness :
  let root := mkQuery (Some (IList (ints [1; 2]%Z))) 0 None std_actions in
  let child := mkQuery None 1 (Some 0) std_actions in
  let h := mkHeap [root; child] [] [] [[]; []] in
  nodes h !! 1 = Some child ∧ parents_below h ∧
  Query_result h 1 = Query_result h 0 ∧
  (∀ o h', Query_call 1 o h = Some h' → Query_result h' 1 = Some (Some o)) ∧
  (∀ a args kwargs h' q',
     func_wrapper a 1 args kwargs h = Some (Ok (h', q')) →
     ∃ r, Query_result h' q' = Some (Some r)).
Proof.
  intros root child h.
  assert (parents_below h) as Hwf.
  { intros [|[|q]] n p Hn Hp; simpl in Hn; simplify_eq; simpl in Hp;
      simplify_eq. lia. }
  split; [reflexivity|]. split; [exact Hwf|].
  exact (result_read_through h 1 child eq_refl Hwf).
Defined.

(** * Further properties of the program *)

Section QuandryMore.
Context {obj : Type} `{PyModel obj}.
Implicit Types (h : heap (obj := obj)) (stk below : list (layer (obj := obj))).
Implicit Types (x : obj) (done todo rest src xs : list obj).
Implicit Types (calls : list (call (obj := obj))) (ts : list (test (obj := obj))).
Implicit Types (vs : list (pyval (obj := obj))) (tss : list (list (test (obj := obj)))).
Implicit Types (v : pyval (obj := obj)).

(** ** Deferred comparisons on a chain of attributes, in two parts *)

Lemma resolve_app names1 names2 x :
  resolve (names1 ++ names2) x = rbind (resolve names1 x) (resolve names2).
Proof.
  revert x. induction names1 as [|name names1 IH]; intros x; simpl; [done|].
  destruct (getattr x name) as [y|e]; simpl; [apply IH|done].
Qed.

Lemma check_chain_resolve names comp x :
  Value_check_attr (Value_chain (Value_init None) names) comp x =
  rbind (resolve names x) comp.
Proof. by rewrite check_attr_accessor, accessor_chain. Qed.

(** X18. A comparison on a chain of attributes, applied to an element,
    is the comparison on the rest of the chain applied to what the first
    part of the chain resolves to; when the first part fails, the error
    is the result, whatever follows. *)
Theorem deferred_comparison_splits (names1 names2 : list string) (c x : obj) :
  Value_gt (Value_chain (Value_init None) (names1 ++ names2)) c x =
    rbind (resolve names1 x)
          (Value_gt (Value_chain (Value_init None) names2) c) ∧
  Value_lt (Value_chain (Value_init None) (names1 ++ names2)) c x =
    rbind (resolve names1 x)
          (Value_lt (Value_chain (Value_init None) names2) c) ∧
  Value_eq (Value_chain (Value_init None) (names1 ++ names2)) c x =
    rbind (resolve names1 x)
          (Value_eq (Value_chain (Value_init None) names2) c) ∧
  (∀ e, resolve names1 x = Raise e →
     Value_gt (Value_chain (Value_init None) (names1 ++ names2)) c x = Raise e ∧
     Value_lt (Value_chain (Value_init None) (names1 ++ names2)) c x = Raise e ∧
     Value_eq (Value_chain (Value_init None) (names1 ++ names2)) c x = Raise e).
Proof.
  assert (∀ comp,
    Value_check_attr (Value_chain (Value_init None) (names1 ++ names2)) comp x =
    rbind (resolve names1 x)
      (Value_check_attr (Value_chain (Value_init None) names2) comp)) as Hsplit.
  { intros comp. rewrite check_chain_resolve, resolve_app, rbind_assoc.
    destruct (resolve names1 x) as [y|e]; simpl; [|done].
    by rewrite check_chain_resolve. }
  unfold Value_gt, Value_lt, Value_eq. split_and!; try apply Hsplit.
  intros e He. rewrite !Hsplit, He. done.
Qed.

(** ** The loops of [filter] and [exclude] *)

Lemma filter_loop_app c vs1 vs2 (st : heap * iterable) :
  filter_loop c (vs1 ++ vs2) st =
  rbind (filter_loop c vs1 st) (filter_loop c vs2).
Proof.
  revert st. induction vs1 as [|v vs1 IH]; intros st; simpl; [done|].
  destruct (callable v); [apply IH|done].
Qed.

Lemma filter_loop_not_callable c vs (st : heap * iterable) :
  forallb callable vs = false → filter_loop c vs st = Raise NotImplementedError.
Proof.
  revert st. induction vs as [|v vs IH]; intros st; simpl; [done|].
  destruct (callable v); simpl; [apply IH|done].
Qed.

(** A round changes no node and no list, and leaves what the store had
    before the call as it was. *)
Lemma wrap_exp_extends k c v h0 (st : heap * iterable) :
  length (cells h0) ≤ c → extends h0 st.1 →
  extends h0 (wrap_exp k c v st).1 ∧
  nodes (wrap_exp k c v st).1 = nodes st.1 ∧
  lists (wrap_exp k c v st).1 = lists st.1.
Proof.
  intros Hc (E1 & E2 & E3 & E4). destruct st as [h1 r]. simpl in *.
  assert (∀ i y, cells h0 !! i = Some y →
                 <[c := Some v]> (cells h1) !! i = Some y) as Hcells.
  { intros i y E. pose proof (lookup_lt_Some _ _ _ E).
    rewrite list_lookup_insert_ne by lia. by apply E3. }
  destruct r as [l|g|q]; simpl; (split; [|done]);
    split_and!; simpl; try done; intros i y E;
    repeat apply lookup_app_l_Some; by apply E2.
Qed.

Lemma fold_wrap_extends k c h0 vs : ∀ (st : heap * iterable),
  length (cells h0) ≤ c → extends h0 st.1 →
  extends h0 (fold_left (λ st v, wrap_exp k c v st) vs st).1 ∧
  nodes (fold_left (λ st v, wrap_exp k c v st) vs st).1 = nodes st.1 ∧
  lists (fold_left (λ st v, wrap_exp k c v st) vs st).1 = lists st.1.
Proof.
  induction vs as [|v vs IH]; intros st Hc Hext; simpl; [done|].
  destruct (wrap_exp_extends k c v h0 st Hc Hext) as (E & N & L).
  destruct (IH _ Hc E) as (E' & N' & L'). split_and!; congruence.
Qed.

Lemma filter_loop_extends c h0 vs : ∀ (st st' : heap * iterable),
  length (cells h0) ≤ c → extends h0 st.1 →
  filter_loop c vs st = Ok st' →
  extends h0 st'.1 ∧ nodes st'.1 = nodes st.1 ∧ lists st'.1 = lists st.1.
Proof.
  induction vs as [|v vs IH]; intros st st' Hc Hext; simpl.
  - by intros [= <-].
  - destruct (callable v); [|done]. intros E.
    destruct (wrap_exp_extends CondCall c v h0 st Hc Hext) as (E1 & N & L).
    destruct (IH _ _ Hc E1 E) as (E' & N' & L'). split_and!; congruence.
Qed.

Lemma run_action_extends a self args kwargs h h' r :
  run_action a self args kwargs h = Ok (h', r) →
  extends h h' ∧ nodes h' = nodes h ∧ lists h' = lists h.
Proof.
  assert (extends h (alloc_cell h).1) as Hext.
  { split_and!; simpl; try done. intros i y. apply lookup_app_l_Some. }
  destruct a; cbn [run_action]; unfold q_filter, q_exclude;
    (destruct (gives_result_twice kwargs); [done|]);
    cbn [alloc_cell fst].
  - destruct (filter_loop (length (cells h)) args _) as [st1|e] eqn:E1; [|done].
    simpl. rewrite filter_items_values. intros E2.
    destruct (filter_loop_extends _ h _ ((alloc_cell h).1, IQuery self) _
                ltac:(done) Hext E1) as (X1 & N1 & L1).
    destruct (filter_loop_extends _ h _ _ _ ltac:(done) X1 E2) as (X2 & N2 & L2).
    simpl in *. split_and!; congruence.
  - rewrite filter_items_values. intros E2. unfold exclude_loop in E2.
    destruct (fold_wrap_extends CondNe (length (cells h)) h args
                ((alloc_cell h).1, IQuery self) ltac:(done) Hext) as (X1 & N1 & L1).
    destruct (filter_loop_extends _ h _ _ _ ltac:(done) X1 E2) as (X2 & N2 & L2).
    simpl in *. split_and!; congruence.
Qed.

(** ** Calls of operations *)

(** The store after a call that returns: one more node, one more list,
    and the generators and the cell of the call. *)
Lemma func_wrapper_store a self args kwargs h h' q' :
  func_wrapper a self args kwargs h = Some (Ok (h', q')) →
  ∃ n r,
    nodes h !! self = Some n ∧ q' = length (nodes h) ∧
    nodes h' = nodes h ++
      [mkQuery (Some r) (length (lists h)) (Some self)
         (make_actions (map snd (_actions n)))] ∧
    lists h' = lists h ++ [[]] ∧
    (∀ i g, gens h !! i = Some g → gens h' !! i = Some g) ∧
    (∀ i c, cells h !! i = Some c → cells h' !! i = Some c).
Proof.
  unfold func_wrapper.
  destruct (nodes h !! self) as [n|] eqn:Hn; [|done]. cbn [mbind option_bind].
  unfold Query_init. cbn [alloc_list alloc_node fst snd].
  set (n0 := mkQuery None _ _ _). set (h1 := mkHeap _ _ _ _).
  destruct (run_action a self args kwargs h1) as [[h2 r]|e] eqn:Hrun; [|done].
  destruct (run_action_extends _ _ _ _ _ _ _ Hrun)
    as ((E1 & E2 & E3 & E4) & Hnodes & Hlists).
  unfold Query_set_result. rewrite Hnodes. cbn [nodes h1].
  rewrite lookup_snoc_new. cbn [mbind option_bind].
  intros [= <- <-]. exists n, r. split_and!; try done.
  simpl. rewrite Hnodes. simpl. apply insert_snoc.
Qed.

Lemma call_method_wrapper self name args kwargs h h' q' :
  call_method self name args kwargs h = Some (Ok (h', q')) →
  ∃ a, func_wrapper a self args kwargs h = Some (Ok (h', q')).
Proof.
  unfold call_method, Query_getattr.
  destruct (nodes h !! self) as [n|]; [|done]. cbn [mbind option_bind].
  destruct (dict_get name (_actions n)) as [a|]; [|done]. eauto.
Qed.

(** X3. A call of an operation that returns creates the new view and
    nothing else happens: the view is a new node whose parent is the node
    the operation was called on, with a result of its own and a new,
    empty cache; every node, generator, cell and list the store had is
    unchanged, so no element was taken from any source and no cache was
    written. *)
Theorem operation_call_builds_lazily (h : heap (obj := obj)) (self : nat)
    (name : string) (args : list (pyval (obj := obj)))
    (kwargs : list (string * pyval)) (h' : heap (obj := obj)) (q' : nat) :
  call_method self name args kwargs h = Some (Ok (h', q')) →
  q' = length (nodes h) ∧ extends h h' ∧
  length (nodes h') = S (length (nodes h)) ∧
  length (lists h') = S (length (lists h)) ∧
  ∃ n' r,
    nodes h' !! q' = Some n' ∧
    _parent n' = Some self ∧ _result n' = Some r ∧
    _cached_result n' = length (lists h) ∧
    lists h' !! length (lists h) = Some [].
Proof.
  intros [a Hw]%call_method_wrapper.
  destruct (func_wrapper_store _ _ _ _ _ _ _ Hw)
    as (n & r & Hn & -> & Hnodes & Hlists & Hgens & Hcells).
  split; [done|]. split_and!.
  - split_and!; try done; intros i y E.
    + rewrite Hnodes. by apply lookup_app_l_Some.
    + rewrite Hlists. by apply lookup_app_l_Some.
  - rewrite Hnodes, length_app. simpl. lia.
  - rewrite Hlists, length_app. simpl. lia.
  - eexists _, r. rewrite Hnodes, Hlists. split_and!.
    + apply lookup_snoc_new.
    + done.
    + done.
    + done.
    + apply lookup_snoc_new.
Qed.

Lemma run_action_nodes a self args kwargs h h' r :
  run_action a self args kwargs h = Ok (h', r) → nodes h' = nodes h.
Proof. intros E. by destruct (run_action_extends _ _ _ _ _ _ _ E) as (_ & ? & _). Qed.

(** The two loops of [filter], one after the other, are one loop over
    the positional values followed by the named ones. *)
Lemma filter_both_loops c vs (kwargs : list (string * pyval (obj := obj)))
    (st : heap * iterable) :
  rbind (filter_loop c vs st) (filter_items c kwargs) =
  filter_loop c (vs ++ map snd kwargs) st.
Proof.
  rewrite filter_loop_app. destruct (filter_loop c vs st) as [st'|e]; [|done].
  apply filter_items_values.
Qed.

(** X4. A call of [filter] with a keyword named [result] raises
    [TypeError]: the operation gets the node as its parameter [result]
    already.  Otherwise [filter] accepts callables only: with an
    argument, positional or named, that is not callable, the call raises
    [NotImplementedError], at once and whatever the data; with callables
    only (or no argument) it returns a view. *)
Theorem filter_requires_callables (h : heap (obj := obj)) (self : nat) (n : Query)
    (args : list (pyval (obj := obj))) (kwargs : list (string * pyval)) :
  nodes h !! self = Some n →
  dict_get "filter" (_actions n) = Some ActFilter →
  (gives_result_twice kwargs = true →
   call_method self "filter" args kwargs h = Some (Raise TypeError)) ∧
  (gives_result_twice kwargs = false →
   forallb callable (args ++ map snd kwargs) = false →
   call_method self "filter" args kwargs h = Some (Raise NotImplementedError)) ∧
  (gives_result_twice kwargs = false →
   forallb callable (args ++ map snd kwargs) = true →
   ∃ h' q', call_method self "filter" args kwargs h = Some (Ok (h', q'))).
Proof.
  intros Hn Ha. unfold call_method, Query_getattr, func_wrapper.
  rewrite Hn. cbn [mbind option_bind]. rewrite Ha. cbn [mbind option_bind].
  unfold Query_init. cbn [alloc_list alloc_node fst snd].
  set (h1 := mkHeap _ _ _ _). split_and!.
  - intros Hkw. cbn [run_action]. unfold q_filter. by rewrite Hkw.
  - intros Hkw Hc. cbn [run_action]. unfold q_filter. rewrite Hkw.
    cbn [alloc_cell fst snd].
    by rewrite filter_both_loops, filter_loop_not_callable.
  - intros Hkw Hc.
    destruct (run_action ActFilter self args kwargs h1) as [[h2 r]|e] eqn:Hrun.
    + unfold Query_set_result. rewrite (run_action_nodes _ _ _ _ _ _ _ Hrun).
      cbn [nodes h1]. rewrite lookup_snoc_new. cbn [mbind option_bind]. eauto.
    + exfalso. cbn [run_action] in Hrun. unfold q_filter in Hrun.
      rewrite Hkw in Hrun. cbn [alloc_cell fst snd] in Hrun.
      rewrite filter_both_loops in Hrun.
      by rewrite filter_loop_callable in Hrun.
Qed.

(** X5. A call of [exclude] with a keyword named [result] raises
    [TypeError], as for [filter].  Otherwise [exclude] tests its named
    arguments only: a named argument that is not callable raises
    [NotImplementedError]; positional arguments of any kind are
    accepted. *)
Theorem exclude_requires_named_callables (h : heap (obj := obj)) (self : nat) (n : Query)
    (args : list (pyval (obj := obj))) (kwargs : list (string * pyval)) :
  nodes h !! self = Some n →
  dict_get "exclude" (_actions n) = Some ActExclude →
  (gives_result_twice kwargs = true →
   call_method self "exclude" args kwargs h = Some (Raise TypeError)) ∧
  (gives_result_twice kwargs = false →
   forallb callable (map snd kwargs) = false →
   call_method self "exclude" args kwargs h = Some (Raise NotImplementedError)) ∧
  (gives_result_twice kwargs = false →
   forallb callable (map snd kwargs) = true →
   ∃ h' q', call_method self "exclude" args kwargs h = Some (Ok (h', q'))).
Proof.
  intros Hn Ha. unfold call_method, Query_getattr, func_wrapper.
  rewrite Hn. cbn [mbind option_bind]. rewrite Ha. cbn [mbind option_bind].
  unfold Query_init. cbn [alloc_list alloc_node fst snd].
  set (h1 := mkHeap _ _ _ _). split_and!.
  - intros Hkw. cbn [run_action]. unfold q_exclude. by rewrite Hkw.
  - intros Hkw Hc. cbn [run_action]. unfold q_exclude. rewrite Hkw.
    cbn [alloc_cell fst snd].
    by rewrite filter_items_values, filter_loop_not_callable.
  - intros Hkw Hc.
    destruct (run_action ActExclude self args kwargs h1) as [[h2 r]|e] eqn:Hrun.
    + unfold Query_set_result. rewrite (run_action_nodes _ _ _ _ _ _ _ Hrun).
      cbn [nodes h1]. rewrite lookup_snoc_new. cbn [mbind option_bind]. eauto.
    + exfalso. cbn [run_action] in Hrun. unfold q_exclude in Hrun.
      rewrite Hkw in Hrun. cbn [alloc_cell fst snd] in Hrun.
      rewrite filter_items_values in Hrun.
      by rewrite filter_loop_callable in Hrun.
Qed.

(** X6. In [filter] the names of named predicates, none of which is
    [result], play no role: the call is the call with the same
    predicates given by position, after the positional ones. *)
Theorem filter_named_as_positional (h : heap (obj := obj)) (self : nat)
    (args : list (pyval (obj := obj))) (kwargs : list (string * pyval)) :
  gives_result_twice kwargs = false →
  func_wrapper ActFilter self args kwargs h =
  func_wrapper ActFilter self (args ++ map snd kwargs) [] h.
Proof.
  intros Hkw. unfold func_wrapper. destruct (nodes h !! self) as [n|]; [|done].
  cbn [mbind option_bind]. destruct (Query_init _ _ h) as [h1 query].
  cbn [run_action]. unfold q_filter. rewrite Hkw. cbn [gives_result_twice existsb].
  destruct (alloc_cell h1) as [h2 c].
  rewrite !filter_both_loops. cbn [map]. by rewrite app_nil_r.
Qed.


(** ** Iterating a node *)

Lemma Query_result_nodes h h' q :
  nodes h' = nodes h → Query_result h' q = Query_result h q.
Proof.
  intros E. unfold Query_result. rewrite E.
  generalize (length (nodes h)). intros fuel. revert q.
  induction fuel as [|fuel IH]; intros q; simpl; [done|].
  rewrite E. destruct (nodes h !! q) as [n|]; [|done].
  destruct (_result n); [done|]. destruct (_parent n); [apply IH|done].
Qed.

(** X14. A node with an empty cache and no result of its own or of an
    ancestor cannot be iterated: [list] raises [TypeError], every time,
    and leaves nothing behind but its finished iterator. *)
Theorem iterating_without_result_raises (h : heap (obj := obj)) (q : nat)
    (n : Query) (fuel : nat) :
  nodes h !! q = Some n → lists h !! _cached_result n = Some [] →
  Query_result h q = Some None →
  py_list (S (S fuel)) q h = Some ((alloc_gen GenDone h).1, Raise TypeError) ∧
  py_list (S (S fuel)) q (alloc_gen GenDone h).1 =
    Some ((alloc_gen GenDone (alloc_gen GenDone h).1).1, Raise TypeError).
Proof.
  assert (∀ h, nodes h !! q = Some n → lists h !! _cached_result n = Some [] →
    Query_result h q = Some None →
    py_list (S (S fuel)) q h = Some ((alloc_gen GenDone h).1, Raise TypeError))
    as Hone.
  { clear h. intros h Hn Hc Hr. unfold py_list. cbn [alloc_gen fst snd].
    rewrite drain_S. cbn [next]. unfold next_body.
    cbn [gens]. rewrite lookup_snoc_new. cbn [mbind option_bind].
    unfold step_start. cbn [nodes lists set_gen]. rewrite Hn.
    cbn [mbind option_bind]. rewrite Hc. cbn [mbind option_bind].
    rewrite (Query_result_nodes h) by done. rewrite Hr.
    unfold finish, set_gen. cbn [nodes gens cells lists].
    by rewrite insert_snoc, insert_snoc. }
  intros Hn Hc Hr. split; [by apply Hone|].
  apply Hone; [done|done|]. by rewrite (Query_result_nodes h).
Qed.

(** X12. Binding a node to a sequence discards what the node had cached,
    whatever it was: the cache of the node is a new, empty list, the
    next [list] gives exactly the new sequence and caches it, and the
    lists the store had before, among them the old cache, keep their
    contents. *)
Theorem binding_resets_the_node (h : heap (obj := obj)) (q : nat)
    (src : list obj) (h1 : heap (obj := obj)) :
  Query_call q (IList src) h = Some h1 →
  cache_of h1 q = Some [] ∧
  ∃ fuel h2,
    py_list fuel q h1 = Some (h2, Ok src) ∧
    cache_of h2 q = Some src ∧
    (∀ l xs, lists h !! l = Some xs → lists h2 !! l = Some xs) ∧
    (∀ q' n', q' ≠ q → nodes h !! q' = Some n' → nodes h2 !! q' = Some n').
Proof.
  unfold Query_call. destruct (nodes h !! q) as [n|] eqn:Hn; [|done].
  cbn [mbind option_bind alloc_list]. intros [= <-].
  set (l := length (lists h)).
  set (n1 := mkQuery (Some (IList src)) l (_parent n) (_actions n)).
  set (h1 := set_node q n1 _).
  assert (nodes h1 !! q = Some n1) as Hn1.
  { simpl. apply list_lookup_insert_eq. by apply lookup_lt_Some in Hn. }
  assert (lists h1 !! l = Some []) as Hl1 by apply lookup_snoc_new.
  split. { unfold cache_of. by rewrite Hn1. }
  set (g := length (gens h1)).
  assert (Inv [LNode g q l] [] src (alloc_gen (QIterStart q) h1).1) as HI.
  { simpl. split_and!; try done; [|apply not_elem_of_nil..].
    exists n1. split_and!; try done. right. split_and!; try done.
    apply lookup_snoc_new. }
  destruct (drain_stack _ _ _ _ _ HI) as (fuel & h2 & Hd & Hf & HF).
  cbn [tests_of] in Hd, HF. rewrite run_nil in Hd.
  destruct (HF src (run_nil src)) as (_ & (n2 & Hn2 & Hl2) & Hc2 & _).
  destruct Hf as (F1 & F2 & F3 & F4 & F5 & F6).
  cbn [alloc_gen fst nodes lists] in *. rewrite F1 in Hn2.
  rewrite Hn1 in Hn2. injection Hn2 as <-.
  exists fuel, h2. split_and!.
  - done.
  - unfold cache_of. rewrite F1, Hn1. cbn [mbind option_bind n1 _cached_result].
    rewrite Hc2. cbn [tests_of app]. f_equal.
    clear. induction src as [|x src IH]; simpl; [done|]. by rewrite IH.
  - intros l' xs E. pose proof (lookup_lt_Some _ _ _ E) as Hlt.
    rewrite F6.
    + simpl. by apply lookup_app_l_Some.
    + simpl. intros Hin. apply list_elem_of_singleton in Hin. unfold l in Hin. lia.
  - intros q' n' Hne E. rewrite F1. simpl.
    rewrite list_lookup_insert_ne by done. done.
Qed.


(** ** The operations a node offers *)

Lemma action_name_inj a b : action_name a = action_name b → a = b.
Proof. by destruct a, b. Qed.

Lemma dict_get_set name k a d :
  dict_get name (dict_set k a d) =
  if String.eqb name k then Some a else dict_get name d.
Proof.
  induction d as [|[k' a'] d IH]; simpl; [done|].
  destruct (String.eqb_spec k k') as [->|Hne]; simpl.
  - by destruct (String.eqb name k').
  - rewrite IH.
    destruct (String.eqb_spec name k') as [->|?]; [|done].
    by destruct (String.eqb_spec k' k) as [->|?].
Qed.

Lemma dict_get_fold name args : ∀ d,
  dict_get name (fold_left (λ d a, dict_set (action_name a) a d) args d) =
  match find (λ a, String.eqb name (action_name a)) args with
  | Some a => Some a
  | None => dict_get name d
  end.
Proof.
  induction args as [|a args IH]; intros d; simpl; [done|].
  rewrite IH, dict_get_set.
  destruct (String.eqb_spec name (action_name a)) as [->|Hne]; [|done].
  destruct (find _ args) as [b|] eqn:E; [|done].
  apply find_some in E as [_ E]. apply String.eqb_eq in E.
  by rewrite (action_name_inj _ _ E).
Qed.

(** X1. A node offers the operations it was constructed with, under their
    names; any other name that reaches [__getattr__] raises
    [AttributeError]. *)
Theorem getattr_offers_registered_operations (args : list action)
    (parent : option nat) (h : heap (obj := obj)) (name : string) :
  Query_getattr (Query_init args parent h).2 name (Query_init args parent h).1 =
  Some (match find (λ a, String.eqb name (action_name a)) args with
        | Some a => Ok a
        | None => Raise AttributeError
        end).
Proof.
  unfold Query_getattr, Query_init. cbn [alloc_list alloc_node fst snd nodes].
  rewrite lookup_snoc_new. cbn [mbind option_bind _actions].
  unfold make_actions. rewrite dict_get_fold. simpl.
  by destruct (find _ args).
Qed.

(** A registry built by [Query.__init__] is rebuilt as it is from its
    values. *)
Lemma make_actions_rebuild (args : list action) :
  make_actions (map snd (make_actions args)) = make_actions args.
Proof.
  set (f := ("filter"%string, ActFilter)). set (e := ("exclude"%string, ActExclude)).
  assert (∀ d, d ∈ [[]; [f]; [e]; [f; e]; [e; f]] →
               fold_left (λ d a, dict_set (action_name a) a d) args d
                 ∈ [[]; [f]; [e]; [f; e]; [e; f]]) as Hnf.
  { induction args as [|a args IH]; intros d Hd; [done|]. simpl. apply IH.
    repeat (apply elem_of_cons in Hd as [->|Hd]); [..|by apply elem_of_nil in Hd];
      destruct a; apply list_elem_of_In; simpl; auto 10. }
  specialize (Hnf [] ltac:(by left)). fold (make_actions args) in Hnf.
  repeat (apply elem_of_cons in Hnf as [->|Hnf]); [..|by apply elem_of_nil in Hnf];
    reflexivity.
Qed.

(** X2. A view offers what the node it was derived from offers: the
    registry is handed down unchanged, so a chain can go on with any
    operation of its root. *)
Theorem views_inherit_operations (h : heap (obj := obj)) (self : nat)
    (n : Query) (args0 : list action) (name : string)
    (args : list (pyval (obj := obj))) (kwargs : list (string * pyval))
    (h' : heap (obj := obj)) (q' : nat) :
  nodes h !! self = Some n → _actions n = make_actions args0 →
  call_method self name args kwargs h = Some (Ok (h', q')) →
  (∃ n', nodes h' !! q' = Some n' ∧ _actions n' = _actions n) ∧
  ∀ name', Query_getattr q' name' h' = Query_getattr self name' h.
Proof.
  intros Hn Ha [a Hw]%call_method_wrapper.
  destruct (func_wrapper_store _ _ _ _ _ _ _ Hw)
    as (n0 & r & Hn0 & -> & Hnodes & _).
  rewrite Hn in Hn0. injection Hn0 as <-.
  assert (nodes h' !! length (nodes h) =
          Some (mkQuery (Some r) (length (lists h)) (Some self) (_actions n)))
    as Hn'.
  { rewrite Hnodes, Ha, make_actions_rebuild. apply lookup_snoc_new. }
  split; [by eexists|].
  intros name'. unfold Query_getattr. by rewrite Hn', Hn.
Qed.


(** ** Several predicates in one call of [filter] *)

Lemma forallb_pointwise {A : Type} (f g : A → bool) (l : list A) :
  (∀ a, f a = g a) → forallb f l = forallb g l.
Proof. intros E. induction l as [|a l IH]; simpl; [done|]. by rewrite E, IH. Qed.

Lemma forallb_map' {A B : Type} (f : B → bool) (g : A → B) (l : list A) :
  forallb f (map g l) = forallb (λ a, f (g a)) l.
Proof. induction l as [|a l IH]; simpl; [done|]. by rewrite IH. Qed.

(** X7. [filter(p1, ..., pn)] tests the elements with [pn] only: the
    generator expressions of one call read the same variable, which holds
    the last predicate by the time they run.  The view gives the elements
    on which [pn] returns true; the other predicates are never called. *)
Theorem filter_tests_with_last_predicate (h0 : heap (obj := obj))
    (src : list obj) (fs : list (obj → res bool)) (f : obj → res bool) :
  forallb (λ x, is_ok (f x)) src = true →
  ∃ h1 Q h2 q fuel h3,
    bound_root src h0 = Some (h1, Q) ∧
    call_method Q "filter" (map VFun (fs ++ [f])) [] h1 = Some (Ok (h2, q)) ∧
    py_list fuel q h2 =
      Some (h3, Ok (List.filter
                      (λ x, match f x with Ok true => true | _ => false end)
                      src)).
Proof.
  intros Hok.
  assert (map VFun (fs ++ [f]) ++
            map snd ([] : list (string * pyval (obj := obj))) =
          map VFun fs ++ [VFun f]) as Hvs
    by (by rewrite app_nil_r, map_app).
  assert (forallb callable (map (VFun (obj := obj)) fs ++ [VFun f]) = true) as Hc.
  { rewrite forallb_app, forallb_map'. simpl. rewrite andb_true_r.
    by apply forallb_forall. }
  destruct (filter_applies_last_predicate h0 src _ [] _ _ eq_refl Hvs Hc Hok)
    as (h1 & h2 & fuel & h3 & Hroot & Hcall & Hp).
  eexists h1, _, h2, _, fuel, h3. split_and!; done.
Qed.

(** ** Several values in one call of [exclude] *)

Lemma call_tests_exclude args v :
  call_tests (Call ActExclude (args ++ [v]) []) =
  Some (map (λ _, (CondNe, v)) (args ++ [v])).
Proof.
  unfold call_tests, rounds. cbn [gives_result_twice existsb map forallb app].
  rewrite app_nil_r. unfold test.
  destruct (map (λ v0, (CondNe, v0)) (args ++ [v])) as [|r rs] eqn:EL.
  { apply map_eq_nil in EL. by destruct args. }
  rewrite <- EL. unfold applied, test.
  assert (last (map (λ v0, (CondNe, v0)) (args ++ [v])) = Some (CondNe, v))
    as -> by (rewrite map_app; apply last_snoc).
  by rewrite map_map.
Qed.

(** X8. [exclude(v1, ..., vn)] compares the elements with [vn] only: the
    generator expressions of one call read the same variable, which holds
    the last value by the time they run.  The view gives the elements
    that are not equal to [vn], and those equal to an earlier value stay. *)
Theorem exclude_compares_with_last_value (h0 : heap (obj := obj))
    (src : list obj) (args : list (pyval (obj := obj))) (v : pyval) :
  ∃ h1 Q h2 q fuel h3,
    bound_root src h0 = Some (h1, Q) ∧
    call_method Q "exclude" (args ++ [v]) [] h1 = Some (Ok (h2, q)) ∧
    py_list fuel q h2 = Some (h3, Ok (List.filter (λ r, py_ne r v) src)).
Proof.
  destruct (single_call h0 src ActExclude (args ++ [v]) [] _
              (call_tests_exclude args v))
    as (h1 & h2 & fuel & h3 & Hroot & Hcall & _ & _ & Hp).
  exists h1, (length (nodes h0)), h2, (S (length (nodes h0))), fuel, h3.
  split_and!; try done.
  rewrite Hp, run_total.
  - do 3 f_equal. apply List.filter_ext. intros x.
    rewrite passes_rev.
    etrans; [apply (forallb_const_tests (holds x) (CondNe, v) args v)|].
    unfold holds. simpl. by destruct (py_ne x v).
  - intros x Hx. apply thr_total. rewrite forallb_rev.
    etrans; [apply (forallb_const_tests _ (CondNe, v) args v)|]. done.
Qed.

(** ** Chains of calls with one argument *)

Lemma calls_tests_map {A : Type} (mk : A → call (obj := obj))
    (t : A → test (obj := obj)) (xs : list A) :
  (∀ a, call_tests (mk a) = Some [t a]) →
  calls_tests (map mk xs) = Some (map (λ a, [t a]) xs) ∧
  concat (map (λ a, [t a]) xs) = map t xs.
Proof.
  intros Hmk. induction xs as [|a xs [IH1 IH2]]; [done|]. simpl.
  rewrite Hmk, IH1, IH2. done.
Qed.

(** X9. Chained calls of [filter] with one predicate each give the
    elements on which every predicate returns true, in the order of the
    source. *)
Theorem chained_filters_keep_where_all_hold (h0 : heap (obj := obj))
    (src : list obj) (fs : list (obj → res bool)) :
  forallb (λ x, forallb (λ f, is_ok (f x)) fs) src = true →
  ∃ h1 Q h2 q fuel h3,
    bound_root src h0 = Some (h1, Q) ∧
    chain (map (λ f, Call ActFilter [VFun f] []) fs) Q h1 = Some (Ok (h2, q)) ∧
    py_list fuel q h2 =
      Some (h3, Ok (List.filter
                      (λ x, forallb (λ f, match f x with
                                          | Ok true => true
                                          | _ => false
                                          end) fs) src)).
Proof.
  intros Hok.
  destruct (calls_tests_map (λ f, Call ActFilter [VFun f] [])
              (λ f, (CondCall, VFun f)) fs ltac:(done)) as [Hct Hcc].
  destruct (chain_iterated h0 src _ _ Hct) as
    (h1 & h2 & fuel & h3 & Hroot & Hch & _ & Hp & _).
  { rewrite Hcc. unfold no_raise. rewrite <- Hok.
    apply forallb_pointwise. intros x. by rewrite forallb_map'. }
  eexists h1, (length (nodes h0)), h2, _, fuel, h3. split_and!; try done.
  rewrite Hp, Hcc. do 3 f_equal. apply List.filter_ext. intros x.
  by rewrite forallb_map'.
Qed.

(** X10. Chained calls of [exclude] with one value each remove the
    elements equal to any of the values. *)
Theorem chained_excludes_remove_every_value (h0 : heap (obj := obj))
    (src : list obj) (lits : list obj) :
  ∃ h1 Q h2 q fuel h3,
    bound_root src h0 = Some (h1, Q) ∧
    chain (map (λ o, Call ActExclude [VObj o] []) lits) Q h1 = Some (Ok (h2, q)) ∧
    py_list fuel q h2 =
      Some (h3, Ok (List.filter
                      (λ x, forallb (λ o, negb (py_eq x o)) lits) src)).
Proof.
  destruct (calls_tests_map (λ o, Call ActExclude [VObj o] [])
              (λ o, (CondNe, VObj o)) lits ltac:(done)) as [Hct Hcc].
  destruct (chain_iterated h0 src _ _ Hct) as
    (h1 & h2 & fuel & h3 & Hroot & Hch & _ & Hp & _).
  { rewrite Hcc. unfold no_raise. apply forallb_forall. intros x _.
    rewrite forallb_map'. by apply forallb_forall. }
  eexists h1, (length (nodes h0)), h2, _, fuel, h3. split_and!; try done.
  rewrite Hp, Hcc. do 3 f_equal. apply List.filter_ext. intros x.
  rewrite forallb_map'. apply forallb_pointwise. intros o. unfold holds. simpl.
  by destruct (py_eq x o).
Qed.


(** ** A call with no argument *)

Lemma drain_same_next h h' g :
  (∀ fuel, next fuel h g = next fuel h' g) →
  ∀ fuel, drain fuel h g = drain fuel h' g.
Proof. intros E [|fuel]; [done|]. simpl. by rewrite E. Qed.

(** With no argument the loops of an operation do not run, and the
    result of the new view is the node the operation was called on.
    Iterating the new view starts an iterator of that node and passes on
    what it gives. *)
Lemma view_call_noargs q l below src h a :
  View q l below src h →
  ∃ h1 fuel h2,
    call_method q (action_name a) [] [] h = Some (Ok (h1, length (nodes h))) ∧
    py_list fuel (length (nodes h)) h1 = Some (h2, run (tests_of below) src) ∧
    (∀ rs, run (tests_of below) src = Ok rs →
       cache_of h2 q = Some rs ∧ cache_of h2 (length (nodes h)) = Some rs).
Proof.
  intros ((n & Hn & Hl & Hr & Ha) & Hc & Hlb & HI).
  unfold call_method, Query_getattr, func_wrapper. rewrite Hn.
  cbn [mbind option_bind]. rewrite Ha, dict_get_std. cbn [mbind option_bind].
  unfold Query_init. cbn [alloc_list alloc_node fst snd].
  assert (∀ h0 : heap (obj := obj), run_action a q [] [] h0 =
            Ok ((alloc_cell h0).1, IQuery q)) as -> by (by destruct a).
  unfold Query_set_result. cbn [alloc_cell fst nodes gens cells lists].
  rewrite lookup_snoc_new.
  cbn [mbind option_bind _cached_result _parent _actions].
  unfold set_node. cbn [nodes gens cells lists]. rewrite insert_snoc.
  set (q' := length (nodes h)). set (l' := length (lists h)).
  set (n' := mkQuery (Some (IQuery q)) l' (Some q) _).
  set (h1 := mkHeap _ _ _ _).
  set (g' := length (gens h)).
  set (hW := mkHeap (nodes h1) (gens h ++ [QIterWalk q' (ItGen (S g')); QIterStart q])
               (cells h1) (lists h1)).
  assert (nodes h1 !! q' = Some n') as Hn' by apply lookup_snoc_new.
  assert (q ≠ q') as Hq by (apply lookup_lt_Some in Hn; unfold q'; lia).
  assert (∀ g, g ∈ gids below → g < g') as Hgs.
  { intros g. by apply (Inv_gids_lt _ _ _ _ _ HI). }
  assert (∀ l0, l0 ∈ lids below → l0 < l') as Hls.
  { intros l0. by apply (Inv_lids_lt _ _ _ _ _ HI). }
  assert (l < l') as Hll by (by apply lookup_lt_Some in Hc).
  assert (extends h hW) as Hext.
  { split_and!; simpl; intros i y E; by apply lookup_app_l_Some. }
  assert (Inv (LNode g' q' l' :: LNode (S g') q l :: below) [] src hW) as HIW.
  { cbn [Inv src_it lgid tests_of List.filter]. split_and!.
    - exists n'. split_and!; [done|done|]. left. simpl.
      by apply list_lookup_middle.
    - simpl. apply lookup_snoc_new.
    - cbn [gids map lgid]. intros Hin.
      apply elem_of_cons in Hin as [?|Hin]; [lia|]. apply Hgs in Hin. lia.
    - cbn [lids]. intros Hin.
      apply elem_of_cons in Hin as [?|Hin]; [lia|]. apply Hls in Hin. lia.
    - exists n. split_and!; [by apply lookup_app_l_Some|done|].
      right. split_and!; [|done|done]. simpl.
      rewrite lookup_app_r by (fold g'; lia).
      by replace (S g' - length (gens h)) with 1 by (unfold g'; lia).
    - simpl. by apply lookup_app_l_Some.
    - intros Hin. apply Hgs in Hin. lia.
    - done.
    - by apply (Inv_extends _ _ _ h). }
  assert (∀ fuel, next fuel (alloc_gen (QIterStart q') h1).1 g' = next fuel hW g')
    as Hsame.
  { intros [|fuel]; [done|].
    rewrite (next_node_unfold _ _ _ _ _ _ _ _ HIW).
    cbn [next]. unfold next_body. cbn [alloc_gen fst gens h1].
    assert ((gens h ++ [QIterStart q']) !! g' = Some (QIterStart q')) as ->
      by apply lookup_snoc_new.
    cbn [mbind option_bind].
    unfold step_start. cbn [set_gen nodes gens cells lists].
    rewrite Hn'. cbn [mbind option_bind n' _cached_result].
    assert (lists h1 !! l' = Some []) as -> by apply lookup_snoc_new.
    cbn [mbind option_bind].
    erewrite Query_result_own; [|exact Hn'|reflexivity].
    cbn [iter alloc_gen fst snd nodes gens cells lists src_it lgid hW set_gen].
    assert (<[g' := GenRunning]> (gens h ++ [QIterStart q']) =
            gens h ++ [GenRunning]) as -> by apply insert_snoc.
    assert (length (gens h ++ [GenRunning]) = S g') as ->
      by (rewrite length_app; simpl; unfold g'; lia).
    unfold set_gen, hW. cbn [nodes gens cells lists].
    assert (<[g' := GenRunning]>
              (gens h ++ [QIterWalk q' (ItGen (S g')); QIterStart q]) =
            (gens h ++ [GenRunning]) ++ [QIterStart q]) as ->; [|done].
    rewrite insert_app_r_alt by (unfold g'; lia).
    replace (g' - length (gens h)) with 0 by (unfold g'; lia).
    simpl. by rewrite <- app_assoc. }
  destruct (drain_stack _ _ _ _ _ HIW) as (fuel & h2 & Hd & Hf & HF).
  exists h1, fuel, h2. split_and!.
  - done.
  - unfold py_list.
    change (alloc_gen (QIterStart q') h1) with
      ((alloc_gen (QIterStart q') h1).1, g').
    cbv beta iota. by rewrite (drain_same_next _ _ _ Hsame).
  - cbn [tests_of] in HF. intros rs Hrs. specialize (HF rs Hrs).
    cbn [app] in HF. rewrite (run_Ok_filter _ _ _ Hrs). split.
    + apply (Final_caches _ _ _ _ l _ HF). cbn [node_caches].
      apply elem_of_cons. right. apply elem_of_cons. by left.
    + apply (Final_caches _ _ _ _ l' _ HF). cbn [node_caches tests_of].
      apply elem_of_cons. by left.
Qed.

(** X11. An operation called with no argument gives a view that is
    transparent: iterating it gives what the node it was called on gives,
    and fills the cache of that node as well as its own. *)
Theorem call_without_argument_is_transparent (h0 : heap (obj := obj))
    (src : list obj) (calls : list call) (tss : list (list test)) (a : action) :
  calls_tests calls = Some tss → no_raise src (concat tss) = true →
  ∃ h1 Q h2 q h3 q' fuel h4 rs,
    bound_root src h0 = Some (h1, Q) ∧
    chain calls Q h1 = Some (Ok (h2, q)) ∧
    call_method q (action_name a) [] [] h2 = Some (Ok (h3, q')) ∧
    py_list fuel q' h3 = Some (h4, Ok rs) ∧
    rs = List.filter (λ x, forallb (holds x) (concat tss)) src ∧
    cache_of h4 q = Some rs ∧ cache_of h4 q' = Some rs.
Proof.
  intros Hct Hnr.
  destruct (bound_root_view src h0) as (h1 & l0 & Hroot & HV0 & _ & Hlen).
  destruct (chain_view calls tss _ _ _ _ _ HV0 ltac:(lia)
              (calls_tests_Forall2 _ _ Hct))
    as (h2 & l2 & below & Hch & HV & _ & Hts & _).
  destruct (view_call_noargs _ _ _ _ _ a HV) as (h3 & fuel & h4 & Hcall & Hp & Hcs).
  cbn [tests_of] in Hts. rewrite app_nil_r in Hts.
  rewrite Hts, (run_no_raise _ _ Hnr) in Hp, Hcs.
  destruct (Hcs _ eq_refl) as [Hc1 Hc2].
  eexists h1, _, h2, _, h3, _, fuel, h4, _. split_and!; done.
Qed.


(** ** An exception in the middle of an iteration *)

Lemma Inv_caches stk done todo h q l ts :
  Inv stk done todo h → (q, l, ts) ∈ node_caches stk →
  cache_of h q = Some (List.filter (passes ts) done).
Proof.
  induction stk as [|[g' q' l'|g' k c v] below IH]; simpl.
  - intros _ Hin. by apply elem_of_nil in Hin.
  - intros ((n & Hn & Hl & _) & Hc & _ & _ & Hbelow) Hin.
    apply elem_of_cons in Hin as [Heq|Hin]; [|by apply IH].
    simplify_eq. unfold cache_of. by rewrite Hn.
  - intros (_ & _ & _ & Hbelow) Hin. by apply IH.
Qed.

Lemma cache_of_same h h' q :
  nodes h' = nodes h → lists h' = lists h → cache_of h' q = cache_of h q.
Proof. intros E1 E2. unfold cache_of. by rewrite E1, E2. Qed.

(** Pulling an element on which a test raises: the exception comes out
    at the top, the generators it passed through are finished, and the
    caches hold the element up to the test that raised. *)
Lemma step_raise stk : ∀ done x rest h e,
  Inv stk done (x :: rest) h → thr (tests_of stk) x = Raise e →
  ∃ h',
    pulls h (src_it stk (x :: rest)) (h', Err e, src_it stk rest) ∧
    frame stk h h' ∧
    (∀ g, head (gids stk) = Some g → gens h' !! g = Some GenDone) ∧
    (∀ q l ts, (q, l, ts) ∈ node_caches stk →
       cache_of h' q = Some (List.filter (passes ts) (done ++ [x]))).
Proof.
  induction stk as [|[g q l|g k c v] below IH]; intros done x rest h e HI Ht.
  - done.
  - pose proof HI as ((n & Hn & Hl & Hst) & Hc & Hg & Hlb & Hbelow).
    assert (g < length (gens h)) as Hlt.
    { destruct Hst as [Hst|[Hst _]]; by apply lookup_lt_Some in Hst. }
    cbn [tests_of] in Ht.
    destruct (IH done x rest (set_gen g GenRunning h) e
                (Inv_set_gen _ _ _ _ _ _ Hg Hbelow) Ht)
      as (h1 & [f Hp] & Hf1 & _ & Hcs).
    destruct (under_running _ _ _ _ Hg Hlt Hf1) as (N1 & C1 & G1 & L1 & X1).
    exists (set_gen g GenDone h1). split_and!.
    + apply pulls_gen. exists (S f).
      by rewrite (next_node_unfold _ _ _ _ _ _ _ _ HI), Hp.
    + apply (frame_top_set (LNode g q l)). by apply (frame_top (LNode g q l)).
    + intros g0 [= <-]. by apply list_lookup_insert_eq.
    + intros q0 l0 ts0 Hin. rewrite (cache_of_same h1) by done.
      cbn [node_caches] in Hin. apply elem_of_cons in Hin as [Heq|Hin].
      * simplify_eq. unfold cache_of. rewrite N1, Hn. simpl.
        rewrite X1 by done. rewrite Hc. f_equal. symmetry.
        apply filter_snoc_false. unfold passes. by rewrite Ht.
      * by apply (Hcs _ l0).
  - pose proof HI as (Hst & Hc & Hg & Hbelow).
    assert (g < length (gens h)) as Hlt by by apply lookup_lt_Some in Hst.
    cbn [tests_of thr] in Ht.
    destruct (thr (tests_of below) x) as [[|]|e'] eqn:Et; [|done|].
    + (* the test of this generator expression raises *)
      pose proof (step_stack below done x rest (set_gen g GenRunning h)
                    (Inv_set_gen _ _ _ _ _ _ Hg Hbelow)) as Hs.
      rewrite Et in Hs. destruct Hs as (h1 & [f Hp] & HI1 & Hf1).
      destruct (under_running _ _ _ _ Hg Hlt Hf1) as (N1 & C1 & G1 & L1 & X1).
      exists (set_gen g GenDone h1). split_and!.
      * apply pulls_gen. exists (S f).
        rewrite (next_exp_unfold _ _ _ _ _ _ _ _ _ HI), Hp.
        simpl. by rewrite C1, Hc, Ht.
      * apply (frame_top_set (LExp g k c v)). by apply (frame_top (LExp g k c v)).
      * intros g0 [= <-]. by apply list_lookup_insert_eq.
      * intros q0 l0 ts0 Hin. rewrite (cache_of_same h1) by done.
        by apply (Inv_caches _ _ _ _ _ l0 _ HI1).
    + (* a test below raised *)
      injection Ht as ->.
      destruct (IH done x rest (set_gen g GenRunning h) e
                  (Inv_set_gen _ _ _ _ _ _ Hg Hbelow) Et)
        as (h1 & [f Hp] & Hf1 & _ & Hcs).
      destruct (under_running _ _ _ _ Hg Hlt Hf1) as (N1 & C1 & G1 & L1 & X1).
      exists (set_gen g GenDone h1). split_and!.
      * apply pulls_gen. exists (S f).
        by rewrite (next_exp_unfold _ _ _ _ _ _ _ _ _ HI), Hp.
      * apply (frame_top_set (LExp g k c v)). by apply (frame_top (LExp g k c v)).
      * intros g0 [= <-]. by apply list_lookup_insert_eq.
      * intros q0 l0 ts0 Hin. rewrite (cache_of_same h1) by done.
        by apply (Hcs _ l0).
Qed.

(** The same, seen from a node at the top: the generator the node pulls
    from is finished as well. *)
Lemma step_raise_node g q l below done x rest h e :
  Inv (LNode g q l :: below) done (x :: rest) h →
  thr (tests_of below) x = Raise e →
  ∃ h',
    pulls h (ItGen g) (h', Err e, ItGen g) ∧
    frame (LNode g q l :: below) h h' ∧
    (∀ g0, head (gids below) = Some g0 → gens h' !! g0 = Some GenDone) ∧
    cache_of h' q = Some (List.filter (passes (tests_of below)) done).
Proof.
  intros HI Ht.
  pose proof HI as ((n & Hn & Hl & Hst) & Hc & Hg & Hlb & Hbelow).
  assert (g < length (gens h)) as Hlt.
  { destruct Hst as [Hst|[Hst _]]; by apply lookup_lt_Some in Hst. }
  destruct (step_raise below done x rest (set_gen g GenRunning h) e
              (Inv_set_gen _ _ _ _ _ _ Hg Hbelow) Ht)
    as (h1 & [f Hp] & Hf1 & Htop & _).
  destruct (under_running _ _ _ _ Hg Hlt Hf1) as (N1 & C1 & G1 & L1 & X1).
  exists (set_gen g GenDone h1). split_and!.
  - apply pulls_gen. exists (S f).
    by rewrite (next_node_unfold _ _ _ _ _ _ _ _ HI), Hp.
  - apply (frame_top_set (LNode g q l)). by apply (frame_top (LNode g q l)).
  - intros g0 Hg0. simpl. rewrite list_lookup_insert_ne; [by apply Htop|].
    intros ->. apply Hg. destruct below as [|ly below']; [done|].
    simpl in Hg0. injection Hg0 as <-. apply elem_of_cons. by left.
  - unfold cache_of. simpl. rewrite N1, Hn. simpl. rewrite Hl, X1 by done.
    by rewrite Hc.
Qed.

Lemma drain_raise g q l below pre x post e : ∀ done h,
  Inv (LNode g q l :: below) done (pre ++ x :: post) h →
  (∀ y, y ∈ pre → ∃ b, thr (tests_of below) y = Ok b) →
  thr (tests_of below) x = Raise e →
  ∃ fuel h',
    drain fuel h g = Some (h', Raise e) ∧
    frame (LNode g q l :: below) h h' ∧
    (∀ g0, head (gids below) = Some g0 → gens h' !! g0 = Some GenDone) ∧
    cache_of h' q = Some (List.filter (passes (tests_of below)) (done ++ pre)).
Proof.
  induction pre as [|y pre IH]; intros done h HI Hok Ht.
  - destruct (step_raise_node _ _ _ _ _ _ _ _ _ HI Ht)
      as (h' & Hp & Hf & Htop & Hc).
    apply pulls_gen_inv in Hp as (f & h2 & o & ? & Hp). simplify_eq.
    exists (S (S f)), h2. rewrite app_nil_r. split_and!; try done.
    cbn [drain]. by rewrite Hp.
  - cbn [app] in HI.
    pose proof (step_stack _ _ _ _ _ HI) as Hs. cbn [tests_of src_it lgid] in Hs.
    destruct (Hok y ltac:(by left)) as [b Hb].
    assert (∀ z, z ∈ pre → ∃ b, thr (tests_of below) z = Ok b) as Hok'
      by (intros z Hz; apply Hok; by right).
    rewrite Hb in Hs.
    replace (done ++ y :: pre) with ((done ++ [y]) ++ pre)
      by (by rewrite <- app_assoc).
    destruct b.
    + destruct Hs as (h1 & Hp & HI1 & Hf1).
      apply pulls_gen_inv in Hp as (f & h2 & o & ? & Hp). simplify_eq.
      destruct (IH _ _ HI1 Hok' Ht) as (f2 & h' & Hd & Hf2 & Htop & Hc).
      exists (S (S f `max` f2)), h'. split_and!; try done.
      * cbn [drain]. rewrite (next_mono (S f) (S f `max` f2) _ _ _ ltac:(lia) Hp).
        by rewrite (drain_mono f2 (S f `max` f2) _ _ _ ltac:(lia) Hd).
      * by eapply frame_trans.
    + destruct Hs as (h1 & HI1 & Hf1 & Hk).
      destruct (IH _ _ HI1 Hok' Ht) as (f2 & h' & Hd & Hf2 & Htop & Hc).
      destruct (drain_transfer h h1 g Hk _ _ Hd) as [f' Hd'].
      exists f', h'. split_and!; try done. by eapply frame_trans.
Qed.

(** [list] on a view whose tests raise on an element: the exception,
    and then the elements that came out before it. *)
Lemma view_raise q l below pre x post h e :
  View q l below (pre ++ x :: post) h →
  (∀ y, y ∈ pre → ∃ b, thr (tests_of below) y = Ok b) →
  thr (tests_of below) x = Raise e →
  ∃ fuel h' fuel',
    py_list fuel q h = Some (h', Raise e) ∧
    cache_of h' q = Some (List.filter (passes (tests_of below)) pre) ∧
    py_list fuel' q h' =
      Some ((alloc_gen GenDone h').1,
            Ok (List.filter (passes (tests_of below)) pre)).
Proof.
  intros HV Hok Ht.
  pose proof HV as ((n & Hn & Hl & Hr & _) & Hc & Hlb & HI).
  set (g := length (gens h)).
  assert (Inv (LNode g q l :: below) [] (pre ++ x :: post)
            (alloc_gen (QIterStart q) h).1) as HI'.
  { simpl. split_and!; try done.
    - exists n. split_and!; try done. right. split_and!; try done.
      by apply list_lookup_middle.
    - intros Hg. apply (Inv_gids_lt _ _ _ _ _ HI) in Hg. unfold g in Hg. lia.
    - eapply Inv_extends; [apply extends_alloc_gen|done]. }
  destruct (drain_raise _ _ _ _ _ _ _ _ _ _ HI' Hok Ht)
    as (fuel & h' & Hd & Hf & Htop & Hcache).
  cbn [app] in Hcache.
  destruct Hf as (F1 & _). cbn [alloc_gen fst nodes] in F1.
  assert (nodes h' !! q = Some n) as Hn' by (by rewrite F1).
  assert (lists h' !! _cached_result n =
          Some (List.filter (passes (tests_of below)) pre)) as Hl'.
  { unfold cache_of in Hcache. by rewrite Hn' in Hcache. }
  assert (∃ fuel', py_list fuel' q h' =
            Some ((alloc_gen GenDone h').1,
                  Ok (List.filter (passes (tests_of below)) pre))) as [fuel' Hp'].
  { destruct (List.filter (passes (tests_of below)) pre) as [|r rs] eqn:E.
    - destruct below as [|ly below']; [done|].
      eapply (py_list_exhausted h' q n (ly :: below')); try done.
      by apply Htop.
    - eapply py_list_replay; try done. }
  exists fuel, h', fuel'. split_and!; done.
Qed.

(** X15. When a test raises on an element, [list] on the view raises
    that exception; the cache of the view keeps the elements that came
    out before, and the next [list] gives these elements and raises
    nothing: the rest of the source is not looked at again. *)
Theorem exception_truncates_the_view (h0 : heap (obj := obj))
    (pre post : list obj) (x : obj) (calls : list call)
    (tss : list (list test)) (e : exn) :
  calls_tests calls = Some tss → no_raise pre (concat tss) = true →
  thr (rev (concat tss)) x = Raise e →
  ∃ h1 Q h2 q fuel h3 fuel',
    bound_root (pre ++ x :: post) h0 = Some (h1, Q) ∧
    chain calls Q h1 = Some (Ok (h2, q)) ∧
    py_list fuel q h2 = Some (h3, Raise e) ∧
    cache_of h3 q =
      Some (List.filter (λ y, forallb (holds y) (concat tss)) pre) ∧
    py_list fuel' q h3 =
      Some ((alloc_gen GenDone h3).1,
            Ok (List.filter (λ y, forallb (holds y) (concat tss)) pre)).
Proof.
  intros Hct Hnr Ht.
  destruct (bound_root_view (pre ++ x :: post) h0)
    as (h1 & l0 & Hroot & HV0 & _ & Hlen).
  destruct (chain_view calls tss _ _ _ _ _ HV0 ltac:(lia)
              (calls_tests_Forall2 _ _ Hct))
    as (h2 & l2 & below & Hch & HV & _ & Hts & _).
  cbn [tests_of] in Hts. rewrite app_nil_r in Hts.
  destruct (view_raise _ _ _ _ _ _ _ e HV) as (fuel & h3 & fuel' & Hp & Hc & Hp').
  { intros y Hy. rewrite Hts. by apply (no_raise_total pre). }
  { by rewrite Hts. }
  assert (List.filter (passes (tests_of below)) pre =
          List.filter (λ y, forallb (holds y) (concat tss)) pre) as Hfl.
  { apply List.filter_ext. intros y. by rewrite Hts, passes_rev. }
  rewrite Hfl in Hc, Hp'.
  eexists h1, _, h2, _, fuel, h3, fuel'. split_and!; done.
Qed.


(** ** Binding the root again before a view is iterated *)

(** A view made by a call on a bound root, and the root bound to another
    sequence afterwards: the generator of the root has not started, so
    it will read the new binding; the view is a view of the new
    sequence. *)
Lemma view_call_rebind q l src src' h a args kwargs ts :
  View q l [] src h →
  call_tests (Call a args kwargs) = Some ts →
  ∃ h1 h2 l' below',
    call_method q (action_name a) args kwargs h = Some (Ok (h1, length (nodes h))) ∧
    Query_call q (IList src') h1 = Some h2 ∧
    View (length (nodes h)) l' below' src' h2 ∧
    tests_of below' = rev ts.
Proof.
  intros ((n & Hn & Hl & Hr & Ha) & Hc & Hlb & HI) Ht.
  unfold call_tests in Ht.
  destruct (rounds (Call a args kwargs)) as [[|r rs]|] eqn:Hrounds; try done.
  injection Ht as <-.
  unfold call_method, Query_getattr, func_wrapper. rewrite Hn.
  cbn [mbind option_bind]. rewrite Ha, dict_get_std. cbn [mbind option_bind].
  unfold Query_init. cbn [alloc_list alloc_node fst snd].
  rewrite (run_action_rounds _ _ _ _ _ _ Hrounds), fold_wrap.
  cbn [nodes gens cells lists].
  unfold Query_set_result. cbn [nodes]. rewrite lookup_snoc_new.
  cbn [mbind option_bind _cached_result _parent _actions].
  set (G := length (gens h)). set (c := length (cells h)).
  set (v := (default r (last rs)).2). set (ks := map fst (r :: rs)).
  set (h1 := set_node _ _ _).
  assert (q < length (nodes h)) as Hq by (by apply lookup_lt_Some in Hn).
  assert (nodes h1 !! q = Some n) as Hn1.
  { simpl. by apply lookup_insert_snoc_old. }
  set (h2 := set_node q (mkQuery (Some (IList src')) (length (lists h1))
                            (_parent n) (_actions n)) (alloc_list h1).1).
  assert (Query_call q (IList src') h1 = Some h2) as Hbind.
  { unfold Query_call. by rewrite Hn1. }
  exists h1, h2, (length (lists h)),
    (exp_stack G c v ks [LNode G q (S (length (lists h)))]).
  split_and!; try done.
  - split_and!.
    + eexists. split_and!.
      * simpl. rewrite list_lookup_insert_ne by lia. apply lookup_insert_snoc_new.
      * done.
      * cbn [_result]. rewrite (src_ible_exp_stack G c v ks) by done.
        unfold ks. by rewrite length_map.
      * done.
    + simpl. apply lookup_app_l_Some. apply lookup_snoc_new.
    + rewrite lids_exp_stack. simpl. intros Hin.
      apply list_elem_of_singleton in Hin. lia.
    + apply Inv_exp_stack; try done.
      * simpl. split_and!; try done; [| |apply not_elem_of_nil..].
        -- eexists. split_and!.
           ++ apply list_lookup_insert_eq. rewrite length_insert, length_app.
              simpl. lia.
           ++ simpl. rewrite length_app. simpl. lia.
           ++ right. split_and!; try done. by apply list_lookup_middle.
        -- replace (S (length (lists h))) with (length (lists h ++ [[]]))
             by (rewrite length_app; simpl; lia).
           apply lookup_snoc_new.
      * intros g Hin. simpl in Hin. apply list_elem_of_singleton in Hin. lia.
      * intros i k Hi. simpl.
        rewrite lookup_app_r by (fold G; lia).
        replace (G + 1 + i - length (gens h)) with (S i) by (unfold G; lia).
        simpl. unfold exp_gens. rewrite list_lookup_imap. fold ks. by rewrite Hi.
      * simpl. apply lookup_snoc_new.
  - rewrite tests_of_exp_stack. simpl. rewrite app_nil_r. f_equal.
    rewrite last_applied. by fold v ks.
Qed.

(** X13. A view reads the binding of its root when it is first
    iterated, not when it is built: when the root is bound to another
    sequence after the call and before the iteration, the view gives the
    elements of the new sequence that pass its tests. *)
Theorem view_follows_a_later_binding (h0 : heap (obj := obj))
    (src src' : list obj) (a : action) (args : list (pyval (obj := obj)))
    (kwargs : list (string * pyval)) (ts : list test) :
  call_tests (Call a args kwargs) = Some ts → no_raise src' ts = true →
  ∃ h1 Q h2 q h3 fuel h4,
    bound_root src h0 = Some (h1, Q) ∧
    call_method Q (action_name a) args kwargs h1 = Some (Ok (h2, q)) ∧
    Query_call Q (IList src') h2 = Some h3 ∧
    py_list fuel q h3 =
      Some (h4, Ok (List.filter (λ x, forallb (holds x) ts) src')).
Proof.
  intros Ht Hnr.
  destruct (bound_root_view src h0) as (h1 & l0 & Hroot & HV0 & _ & Hlen).
  destruct (view_call_rebind _ _ _ src' _ _ _ _ _ HV0 Ht)
    as (h2 & h3 & l' & below' & Hcall & Hbind & HV & Hts).
  destruct (py_list_view _ _ _ _ _ HV) as (fuel & h4 & Hp & _).
  rewrite Hts, (run_no_raise _ _ Hnr) in Hp.
  eexists h1, _, h2, _, h3, fuel, h4. split_and!; done.
Qed.

(** ** Stacks over a cache that is replayed *)

Lemma src_it_on_base gP stk todo :
  src_it (on_base gP stk) todo = src_it (on_base gP stk) [].
Proof. by destruct stk. Qed.

Lemma src_ible_on_base gP stk todo :
  src_ible (on_base gP stk) todo = src_ible (on_base gP stk) [].
Proof. by destruct stk. Qed.

Lemma gids_on_base gP stk : gids (on_base gP stk) = gids stk ++ [gP].
Proof. unfold gids, on_base. by rewrite map_app. Qed.

Lemma lids_on_base gP stk : lids (on_base gP stk) = lids stk.
Proof.
  unfold on_base. induction stk as [|[g q l|g k c v] stk IH]; simpl;
    [done|by rewrite IH|done].
Qed.

Lemma InvR_set_gen gP p lP xs stk done todo h g st :
  g ∉ gids (on_base gP stk) →
  InvR gP p lP xs stk done todo h → InvR gP p lP xs stk done todo (set_gen g st h).
Proof.
  induction stk as [|[g' q l|g' k c v] below IH]; simpl.
  - intros Hg (Hl & Hx & Hst). apply not_elem_of_cons in Hg as [Hne _].
    split_and!; try done.
    destruct Hst as [Hst|(? & ? & Hst & ?)]; [left|right; split_and!; try done];
      by rewrite list_lookup_insert_ne.
  - intros Hg ((n & Hn & Hl & Hst) & Hc & Hg' & Hl' & HlP & Hbelow).
    apply not_elem_of_cons in Hg as [Hne Hg].
    split_and!; try done; [|by apply IH].
    exists n. split_and!; try done.
    by rewrite list_lookup_insert_ne.
  - intros Hg (Hst & Hc & Hg' & Hbelow).
    apply not_elem_of_cons in Hg as [Hne Hg].
    split_and!; try done; [|by apply IH].
    by rewrite list_lookup_insert_ne.
Qed.

Lemma InvR_list_append gP p lP xs stk done todo h l x :
  l ∉ lids stk → l ≠ lP →
  InvR gP p lP xs stk done todo h →
  InvR gP p lP xs stk done todo (list_append l x h).
Proof.
  induction stk as [|[g' q l'|g' k c v] below IH]; simpl.
  - intros _ Hne (Hl & Hx & Hst). split_and!; try done.
    by rewrite list_lookup_alter_ne.
  - intros Hl Hne ((n & Hn & Hl0 & Hst) & Hc & Hg' & Hl' & HlP & Hbelow).
    apply not_elem_of_cons in Hl as [Hne' Hl].
    split_and!; try done; [by exists n| |by apply IH].
    by rewrite list_lookup_alter_ne.
  - intros Hl Hne (Hst & Hc & Hg' & Hbelow). split_and!; try done. by apply IH.
Qed.

Lemma InvR_base gP p lP xs stk done todo h :
  InvR gP p lP xs stk done todo h →
  lists h !! lP = Some xs ∧ done ++ todo = xs ∧ gP < length (gens h).
Proof.
  induction stk as [|[g' q l'|g' k c v] below IH]; simpl.
  - intros (Hl & Hx & Hst). split_and!; try done.
    destruct Hst as [Hst|(? & ? & Hst & ?)]; by apply lookup_lt_Some in Hst.
  - intros (_ & _ & _ & _ & _ & Hbelow). by apply IH.
  - intros (_ & _ & _ & Hbelow). by apply IH.
Qed.

Lemma InvR_caches gP p lP xs stk done todo h q l ts :
  InvR gP p lP xs stk done todo h → (q, l, ts) ∈ node_caches stk →
  cache_of h q = Some (List.filter (passes ts) done).
Proof.
  induction stk as [|[g' q' l'|g' k c v] below IH]; simpl.
  - intros _ Hin. by apply elem_of_nil in Hin.
  - intros ((n & Hn & Hl & _) & Hc & _ & _ & _ & Hbelow) Hin.
    apply elem_of_cons in Hin as [Heq|Hin]; [|by apply IH].
    simplify_eq. unfold cache_of. by rewrite Hn.
  - intros (_ & _ & _ & Hbelow) Hin. by apply IH.
Qed.

Lemma next_node_unfoldR fuel gP p lP xs g q l below done todo h :
  InvR gP p lP xs (LNode g q l :: below) done todo h →
  next (S fuel) h g =
  walk_k g q (pull (next fuel) (set_gen g GenRunning h)
                (src_it (on_base gP below) [])).
Proof.
  intros ((n & Hn & Hl & Hst) & Hc & _). simpl. unfold next_body.
  rewrite (src_it_on_base gP below todo) in Hst.
  rewrite (src_ible_on_base gP below todo) in Hst.
  destruct Hst as [Hst|(Hst & Hemp & Hres)]; rewrite Hst; simpl; [done|].
  unfold step_start. cbn [nodes lists set_gen]. rewrite Hn. simpl.
  rewrite Hl, Hc, Hemp. simpl.
  rewrite (Query_result_own (set_gen g GenRunning h) q n _ Hn Hres).
  by destruct below as [|ly below'].
Qed.

Lemma next_exp_unfoldR fuel gP p lP xs g k c v below done todo h :
  InvR gP p lP xs (LExp g k c v :: below) done todo h →
  next (S fuel) h g =
  exp_k (next fuel) g k c
    (pull (next fuel) (set_gen g GenRunning h) (src_it (on_base gP below) [])).
Proof.
  intros (Hst & _). simpl. unfold next_body.
  rewrite (src_it_on_base gP below todo) in Hst. by rewrite Hst.
Qed.

(** The generator that replays the cache. *)
Lemma next_base gP p lP xs done todo h fuel :
  InvR gP p lP xs [] done todo h →
  next (S fuel) h gP =
  match todo with
  | x :: _ => Some (set_gen gP (QIterReplay lP (S (length done))) h, Yield x)
  | [] => Some (set_gen gP GenDone h, Stop)
  end.
Proof.
  intros (Hl & Hx & Hst).
  assert (xs !! length done = head todo) as Hlook.
  { rewrite <- Hx. rewrite lookup_app_r by lia. rewrite Nat.sub_diag.
    by destruct todo. }
  simpl. unfold next_body.
  destruct Hst as [Hst|(-> & Hne & Hst & n & Hn & Hc)]; rewrite Hst;
    cbn [mbind option_bind].
  - unfold step_replay. cbn [set_gen lists]. rewrite Hl. cbn [mbind option_bind].
    rewrite Hlook. destruct todo as [|x rest]; simpl; unfold finish;
      by rewrite set_gen_twice.
  - unfold step_start. cbn [set_gen nodes lists]. rewrite Hn.
    cbn [mbind option_bind]. rewrite Hc, Hl. cbn [mbind option_bind].
    simpl in Hx. subst xs. destruct todo as [|x rest]; [done|].
    unfold step_replay. cbn [set_gen lists]. rewrite Hl. cbn [mbind option_bind].
    simpl. by rewrite set_gen_twice.
Qed.

Lemma stepR_base gP p lP xs : stepR_spec gP p lP xs [].
Proof.
  intros done x rest h HI. cbn [tests_of thr].
  pose proof HI as (Hl & Hx & Hst).
  destruct (InvR_base _ _ _ _ _ _ _ _ HI) as (_ & _ & Hlt).
  exists (set_gen gP (QIterReplay lP (S (length done))) h). split_and!.
  - apply pulls_gen. exists 1. by rewrite (next_base _ _ _ _ _ _ _ _ HI).
  - simpl. split_and!.
    + done.
    + by rewrite <- app_assoc.
    + left. rewrite length_app. simpl. rewrite Nat.add_1_r.
      by apply list_lookup_insert_eq.
  - apply frame_set_gen. simpl. apply elem_of_cons. by left.
Qed.

Lemma stopR_base gP p lP xs : stopR_spec gP p lP xs [].
Proof.
  intros done h HI.
  exists (set_gen gP GenDone h). split_and!.
  - apply pulls_gen. exists 1. by rewrite (next_base _ _ _ _ _ _ _ _ HI).
  - apply frame_set_gen. simpl. apply elem_of_cons. by left.
  - done.
Qed.

Lemma on_base_cons gP ly stk : on_base gP (ly :: stk) = ly :: on_base gP stk.
Proof. done. Qed.

Lemma stepR_node gP p lP xs g q l below :
  stepR_spec gP p lP xs below → stepR_spec gP p lP xs (LNode g q l :: below).
Proof.
  intros IH done x rest h HI.
  pose proof HI as ((n & Hn & Hl & Hst) & Hc & Hg & Hlb & HlP & Hbelow).
  assert (g < length (gens h)) as Hlt.
  { destruct Hst as [Hst|[Hst _]]; by apply lookup_lt_Some in Hst. }
  specialize (IH done x rest (set_gen g GenRunning h)
                (InvR_set_gen _ _ _ _ _ _ _ _ _ _ Hg Hbelow)).
  rewrite on_base_cons. cbn [thr tests_of src_it lgid].
  assert (l ∉ lids (on_base gP below)) as Hlb' by (by rewrite lids_on_base).
  destruct (thr (tests_of below) x) as [[|]|e] eqn:Et.
  - destruct IH as (h1 & [f Hp] & HI1 & Hf1).
    destruct (under_running _ _ _ _ Hg Hlt Hf1) as (N1 & C1 & G1 & L1 & X1).
    set (h' := set_gen g (QIterWalk q (src_it (on_base gP below) []))
                 (list_append l x h1)).
    assert (frame (LNode g q l :: on_base gP below) h h') as Hf'.
    { apply (frame_top_set (LNode g q l)).
      eapply frame_trans; [by apply (frame_top (LNode g q l))|].
      apply frame_list_append. simpl. apply elem_of_cons. by left. }
    exists h'. split_and!; [|simpl; split_and!|]; try done.
    + apply pulls_gen. exists (S f).
      rewrite (next_node_unfoldR _ _ _ _ _ _ _ _ _ _ _ _ HI), Hp.
      simpl. unfold cache_append. rewrite N1, Hn. simpl. by rewrite Hl.
    + exists n. split_and!; try done; [by rewrite N1|].
      left. rewrite (src_it_on_base gP below rest).
      by apply list_lookup_insert_eq.
    + rewrite list_lookup_alter_eq, (X1 l Hlb'), Hc. simpl.
      f_equal. symmetry. apply filter_snoc_true. unfold passes. by rewrite Et.
    + apply InvR_set_gen; [done|]. by apply InvR_list_append.
  - destruct IH as (h1 & HI1 & Hf1 & Hk).
    destruct (under_running _ _ _ _ Hg Hlt Hf1) as (N1 & C1 & G1 & L1 & X1).
    set (h' := set_gen g (QIterWalk q (src_it (on_base gP below) [])) h1).
    assert (InvR gP p lP xs (LNode g q l :: below) (done ++ [x]) rest h') as HI'.
    { simpl; split_and!; try done.
      - exists n. split_and!; try done; [by rewrite N1|].
        left. rewrite (src_it_on_base gP below rest).
        by apply list_lookup_insert_eq.
      - simpl. rewrite X1 by done. rewrite Hc. f_equal. symmetry.
        apply filter_snoc_false. unfold passes. by rewrite Et.
      - by apply InvR_set_gen. }
    exists h'. split_and!; try done.
    + apply (frame_top_set (LNode g q l)). by apply (frame_top (LNode g q l)).
    + intros r Hp. apply pulls_gen_inv in Hp as (f & h2 & o & -> & Hp).
      rewrite (next_node_unfoldR _ _ _ _ _ _ _ _ _ _ _ _ HI') in Hp.
      unfold h' in Hp. rewrite set_gen_twice, (set_gen_same _ _ _ G1) in Hp.
      destruct (pull (next f) h1 (src_it (on_base gP below) [])) as [r|] eqn:Ep;
        [|done].
      destruct (Hk r (ex_intro _ f Ep)) as [f' Ep'].
      apply pulls_gen. exists (S f').
      by rewrite (next_node_unfoldR _ _ _ _ _ _ _ _ _ _ _ _ HI), Ep'.
  - destruct IH as (h1 & [f Hp] & Hf1).
    exists (set_gen g GenDone h1). split.
    + apply pulls_gen. exists (S f).
      by rewrite (next_node_unfoldR _ _ _ _ _ _ _ _ _ _ _ _ HI), Hp.
    + apply (frame_top_set (LNode g q l)). by apply (frame_top (LNode g q l)).
Qed.

Lemma stepR_exp gP p lP xs g k c v below :
  stepR_spec gP p lP xs below → stepR_spec gP p lP xs (LExp g k c v :: below).
Proof.
  intros IH done x rest h HI.
  pose proof HI as (Hst & Hc & Hg & Hbelow).
  assert (g < length (gens h)) as Hlt by by apply lookup_lt_Some in Hst.
  specialize (IH done x rest (set_gen g GenRunning h)
                (InvR_set_gen _ _ _ _ _ _ _ _ _ _ Hg Hbelow)).
  rewrite on_base_cons. cbn [thr tests_of src_it lgid].
  destruct (thr (tests_of below) x) as [[|]|e] eqn:Et.
  - destruct IH as (h1 & [f Hp] & HI1 & Hf1).
    destruct (under_running _ _ _ _ Hg Hlt Hf1) as (N1 & C1 & G1 & L1 & X1).
    set (h' := set_gen g (GenExp k (src_it (on_base gP below) []) c) h1).
    assert (InvR gP p lP xs (LExp g k c v :: below) (done ++ [x]) rest h') as HI'.
    { simpl; split_and!; try done.
      - rewrite (src_it_on_base gP below rest). by apply list_lookup_insert_eq.
      - by rewrite C1.
      - by apply InvR_set_gen. }
    assert (frame (LExp g k c v :: on_base gP below) h h') as Hf'.
    { apply (frame_top_set (LExp g k c v)). by apply (frame_top (LExp g k c v)). }
    assert (∀ f', f ≤ f' → next (S f') h g =
      match eval_cond k v x with
      | Ok true => Some (h', Yield x)
      | Ok false => next f' h' g
      | Raise e => finish g (Err e) h1
      end) as Hnext.
    { intros f' Hle. rewrite (next_exp_unfoldR _ _ _ _ _ _ _ _ _ _ _ _ _ HI).
      rewrite (pulls_mono_fuel f f' _ _ _ Hle Hp). simpl. by rewrite C1, Hc. }
    destruct (eval_cond k v x) as [[|]|e].
    + exists h'. split_and!; try done.
      apply pulls_gen. exists (S f). by apply Hnext.
    + exists h'. split_and!; try done.
      intros r Hp'. apply pulls_gen_inv in Hp' as (f' & h2 & o & -> & Hp').
      apply pulls_gen. exists (S (S (f `max` f'))).
      rewrite Hnext by lia. apply (next_mono (S f')); [lia|done].
    + exists (set_gen g GenDone h1). split.
      * apply pulls_gen. exists (S f). by apply Hnext.
      * apply (frame_top_set (LExp g k c v)). by apply (frame_top (LExp g k c v)).
  - destruct IH as (h1 & HI1 & Hf1 & Hk).
    destruct (under_running _ _ _ _ Hg Hlt Hf1) as (N1 & C1 & G1 & L1 & X1).
    set (h' := set_gen g (GenExp k (src_it (on_base gP below) []) c) h1).
    assert (InvR gP p lP xs (LExp g k c v :: below) (done ++ [x]) rest h') as HI'.
    { simpl; split_and!; try done.
      - rewrite (src_it_on_base gP below rest). by apply list_lookup_insert_eq.
      - by rewrite C1.
      - by apply InvR_set_gen. }
    exists h'. split_and!; try done.
    + apply (frame_top_set (LExp g k c v)). by apply (frame_top (LExp g k c v)).
    + intros r Hp. apply pulls_gen_inv in Hp as (f & h2 & o & -> & Hp).
      rewrite (next_exp_unfoldR _ _ _ _ _ _ _ _ _ _ _ _ _ HI') in Hp.
      unfold h' in Hp. rewrite set_gen_twice, (set_gen_same _ _ _ G1) in Hp.
      destruct (pull (next f) h1 (src_it (on_base gP below) [])) as [r|] eqn:Ep;
        [|done].
      destruct (Hk r (ex_intro _ f Ep)) as [f' Ep'].
      apply pulls_gen. exists (S (f `max` f')).
      rewrite (next_exp_unfoldR _ _ _ _ _ _ _ _ _ _ _ _ _ HI).
      rewrite (pulls_mono_fuel f' (f `max` f') _ _ _ ltac:(lia) Ep').
      eapply exp_k_mono; [|done].
      intros h0 g0 r0. apply next_mono. lia.
  - destruct IH as (h1 & [f Hp] & Hf1).
    exists (set_gen g GenDone h1). split.
    + apply pulls_gen. exists (S f).
      by rewrite (next_exp_unfoldR _ _ _ _ _ _ _ _ _ _ _ _ _ HI), Hp.
    + apply (frame_top_set (LExp g k c v)). by apply (frame_top (LExp g k c v)).
Qed.

Lemma stepR_stack gP p lP xs stk : stepR_spec gP p lP xs stk.
Proof.
  induction stk as [|[g q l|g k c v] below IH].
  - apply stepR_base.
  - by apply stepR_node.
  - by apply stepR_exp.
Qed.

Lemma stopR_stack gP p lP xs stk : stopR_spec gP p lP xs stk.
Proof.
  induction stk as [|[g q l|g k c v] below IH]; intros done h HI.
  - exact (stopR_base gP p lP xs done h HI).
  - pose proof HI as ((n & Hn & Hl & Hst) & Hc & Hg & Hlb & HlP & Hbelow).
    assert (g < length (gens h)) as Hlt.
    { destruct Hst as [Hst|[Hst _]]; by apply lookup_lt_Some in Hst. }
    destruct (IH done (set_gen g GenRunning h)
                (InvR_set_gen _ _ _ _ _ _ _ _ _ _ Hg Hbelow))
      as (h1 & [f Hp] & Hf1 & Hls).
    exists (set_gen g GenDone h1). rewrite on_base_cons. split_and!.
    + apply pulls_gen. exists (S f).
      by rewrite (next_node_unfoldR _ _ _ _ _ _ _ _ _ _ _ _ HI), Hp.
    + apply (frame_top_set (LNode g q l)). by apply (frame_top (LNode g q l)).
    + done.
  - pose proof HI as (Hst & Hc & Hg & Hbelow).
    assert (g < length (gens h)) as Hlt by by apply lookup_lt_Some in Hst.
    destruct (IH done (set_gen g GenRunning h)
                (InvR_set_gen _ _ _ _ _ _ _ _ _ _ Hg Hbelow))
      as (h1 & [f Hp] & Hf1 & Hls).
    exists (set_gen g GenDone h1). rewrite on_base_cons. split_and!.
    + apply pulls_gen. exists (S f).
      by rewrite (next_exp_unfoldR _ _ _ _ _ _ _ _ _ _ _ _ _ HI), Hp.
    + apply (frame_top_set (LExp g k c v)). by apply (frame_top (LExp g k c v)).
    + done.
Qed.

(** [list] at the top of a stack over a replayed cache: the cached
    elements that pass the tests; the cache that is replayed is not written,
    and the caches of the stack hold what came out below them. *)
Lemma drainR_stack gP p lP xs ly below todo : ∀ done h,
  InvR gP p lP xs (ly :: below) done todo h →
  ∃ fuel h',
    drain fuel h (lgid ly) = Some (h', run (tests_of (ly :: below)) todo) ∧
    frame (on_base gP (ly :: below)) h h' ∧
    (∀ rs, run (tests_of (ly :: below)) todo = Ok rs →
       lists h' !! lP = Some xs ∧
       ∀ q l ts, (q, l, ts) ∈ node_caches (ly :: below) →
         cache_of h' q = Some (List.filter (passes ts) (done ++ todo))).
Proof.
  induction todo as [|x rest IH]; intros done h HI.
  - destruct (stopR_stack _ _ _ _ _ _ _ HI) as (h' & Hp & Hf & Hls).
    apply pulls_gen_inv in Hp as (f & h2 & o & ? & Hp). simplify_eq.
    exists (S (S f)), h2. split_and!; try done.
    + cbn [drain]. by rewrite Hp.
    + intros rs _. rewrite app_nil_r.
      destruct (InvR_base _ _ _ _ _ _ _ _ HI) as (HlP & _).
      split; [by rewrite Hls|]. intros q l ts Hin.
      rewrite (cache_of_same h); [|by destruct Hf|done].
      by apply (InvR_caches _ _ _ _ _ _ _ _ _ l _ HI).
  - pose proof (stepR_stack _ _ _ _ _ _ _ _ _ HI) as Hs. cbn [run].
    rewrite on_base_cons in Hs. cbn [src_it] in Hs.
    destruct (thr (tests_of (ly :: below)) x) as [[|]|e].
    + destruct Hs as (h1 & Hp & HI1 & Hf1).
      apply pulls_gen_inv in Hp as (f & h2 & o & ? & Hp). simplify_eq.
      destruct (IH _ _ HI1) as (f2 & h' & Hd & Hf2 & HF).
      exists (S (S f `max` f2)), h'. split_and!.
      * cbn [drain]. rewrite (next_mono (S f) (S f `max` f2) _ _ _ ltac:(lia) Hp).
        rewrite (drain_mono f2 (S f `max` f2) _ _ _ ltac:(lia) Hd).
        by destruct (run _ rest).
      * by eapply frame_trans.
      * intros rs Hrs. destruct (run _ rest) as [rs'|] eqn:Er; [|done].
        replace (done ++ x :: rest) with ((done ++ [x]) ++ rest)
          by (by rewrite <- app_assoc).
        by eapply HF.
    + destruct Hs as (h1 & HI1 & Hf1 & Hk).
      destruct (IH _ _ HI1) as (f2 & h' & Hd & Hf2 & HF).
      destruct (drain_transfer h h1 (lgid ly) Hk _ _ Hd) as [f' Hd'].
      exists f', h'. split_and!; try done.
      * by eapply frame_trans.
      * intros rs Hrs.
        replace (done ++ x :: rest) with ((done ++ [x]) ++ rest)
          by (by rewrite <- app_assoc).
        by eapply HF.
    + destruct Hs as (h1 & Hp & Hf1).
      apply pulls_gen_inv in Hp as (f & h2 & o & ? & Hp). simplify_eq.
      exists (S (S f)), h2. split_and!; try done.
      cbn [drain]. by rewrite Hp.
Qed.


(** ** Views over a cache that is replayed *)

Lemma InvR_extends gP p lP xs stk done todo h h' :
  extends h h' → InvR gP p lP xs stk done todo h → InvR gP p lP xs stk done todo h'.
Proof.
  intros (E1 & E2 & E3 & E4).
  induction stk as [|[g q l|g k c v] below IH]; simpl.
  - intros (Hl & Hx & Hst). split_and!; auto.
    destruct Hst as [Hst|(? & ? & Hst & n & Hn & Hc)]; [left|right]; auto.
    split_and!; auto. exists n. auto.
  - intros ((n & Hn & Hl & Hst) & Hc & Hg & Hlb & HlP & Hbelow).
    split_and!; auto. exists n. split_and!; auto.
    destruct Hst as [Hst|(Hst & ? & ?)]; [left|right]; auto.
  - intros (Hst & Hc & Hg & Hbelow). split_and!; auto.
Qed.

Lemma InvR_gids_lt gP p lP xs stk done todo h g :
  InvR gP p lP xs stk done todo h → g ∈ gids (on_base gP stk) →
  g < length (gens h).
Proof.
  induction stk as [|[g' q l|g' k c v] below IH]; simpl.
  - intros HI Hg. apply list_elem_of_singleton in Hg as ->.
    by destruct (InvR_base gP p lP xs [] _ _ _ HI) as (_ & _ & ?).
  - intros ((n & Hn & Hl & Hst) & Hc & Hg & Hlb & HlP & Hbelow) Hin.
    apply elem_of_cons in Hin as [->|Hin]; [|by apply IH].
    destruct Hst as [Hst|[Hst _]]; by apply lookup_lt_Some in Hst.
  - intros (Hst & Hc & Hg & Hbelow) Hin.
    apply elem_of_cons in Hin as [->|Hin]; [|by apply IH].
    by apply lookup_lt_Some in Hst.
Qed.

Lemma src_ible_exp_stackR gP G c v ks : ∀ base t,
  src_ible (on_base gP base) t = IGen G →
  src_ible (on_base gP (exp_stack G c v ks base)) t = IGen (G + length ks).
Proof.
  revert G. induction ks as [|k ks IH]; intros G base t HG; simpl.
  - by rewrite HG, Nat.add_0_r.
  - rewrite (IH (S G)) by done. f_equal. lia.
Qed.

Lemma InvR_exp_stack gP p lP xs c v h : ∀ ks G base,
  InvR gP p lP xs base [] xs h →
  src_it (on_base gP base) [] = ItGen G →
  (∀ g, g ∈ gids (on_base gP base) → g ≤ G) →
  (∀ i k, ks !! i = Some k →
          gens h !! (G + 1 + i) = Some (GenExp k (ItGen (G + i)) c)) →
  cells h !! c = Some (Some v) →
  InvR gP p lP xs (exp_stack G c v ks base) [] xs h.
Proof.
  induction ks as [|k ks IH]; intros G base HI HG Hle Hgens Hc; [done|].
  cbn [exp_stack]. apply IH; try done.
  - cbn [InvR]. rewrite (src_it_on_base gP base xs), HG. split_and!; try done.
    + specialize (Hgens 0 k eq_refl). by rewrite !Nat.add_0_r, Nat.add_1_r in Hgens.
    + intros Hin. apply Hle in Hin. lia.
  - intros g Hin. rewrite on_base_cons in Hin. cbn [gids map lgid] in Hin.
    apply elem_of_cons in Hin as [->|Hin]; [lia|].
    apply Hle in Hin. lia.
  - intros i k' Hi. specialize (Hgens (S i) k' Hi).
    by replace (S G + 1 + i) with (G + 1 + S i) by lia;
      replace (S G + i) with (G + S i) by lia.
Qed.

(** [list(q)] on a node whose result is the top of a stack over a
    replayed cache. *)
Lemma py_list_over_cache gP p lP xs q l below h n :
  nodes h !! q = Some n → _cached_result n = l →
  _result n = Some (src_ible (on_base gP below) []) →
  lists h !! l = Some [] → l ∉ lids below → l ≠ lP →
  InvR gP p lP xs below [] xs h →
  ∃ fuel h',
    py_list fuel q h = Some (h', run (tests_of below) xs) ∧
    nodes h' = nodes h ∧
    (∀ rs, run (tests_of below) xs = Ok rs →
       lists h' !! lP = Some xs ∧ cache_of h' q = Some rs ∧
       ∀ q0 l0 ts, (q0, l0, ts) ∈ node_caches below →
         cache_of h' q0 = Some (List.filter (passes ts) xs)).
Proof.
  intros Hn Hl Hr Hc Hlb HlP HI.
  set (g := length (gens h)).
  assert (InvR gP p lP xs (LNode g q l :: below) [] xs
            (alloc_gen (QIterStart q) h).1) as HI'.
  { simpl. split_and!; try done.
    - exists n. split_and!; try done. right. split_and!; try done.
      + by apply list_lookup_middle.
      + by rewrite (src_ible_on_base gP below xs).
    - intros Hg. apply (InvR_gids_lt _ _ _ _ _ _ _ _ _ HI) in Hg.
      unfold g in Hg. lia.
    - eapply InvR_extends; [apply extends_alloc_gen|done]. }
  destruct (drainR_stack _ _ _ _ _ _ _ _ _ HI') as (fuel & h' & Hd & Hf & HF).
  exists fuel, h'. cbn [tests_of] in Hd, HF. split_and!.
  - done.
  - by destruct Hf as (-> & _).
  - intros rs Hrs. destruct (HF rs Hrs) as (HlP' & Hcs). cbn [app] in Hcs.
    split_and!; try done.
    + rewrite (run_Ok_filter _ _ _ Hrs).
      apply (Hcs q l). cbn [node_caches]. apply elem_of_cons. by left.
    + intros q0 l0 ts Hin. apply (Hcs q0 l0). cbn [node_caches].
      apply elem_of_cons. by right.
Qed.

(** A call on a node whose cache is not empty: the generator created for
    the node will replay the cache. *)
Lemma cached_call h p n xs a args kwargs ts :
  nodes h !! p = Some n → _actions n = std_actions →
  lists h !! _cached_result n = Some xs → xs ≠ [] →
  call_tests (Call a args kwargs) = Some ts →
  ∃ h1 fuel h2,
    call_method p (action_name a) args kwargs h =
      Some (Ok (h1, length (nodes h))) ∧
    py_list fuel (length (nodes h)) h1 = Some (h2, run (rev ts) xs) ∧
    (∀ rs, run (rev ts) xs = Ok rs →
       cache_of h2 p = Some xs ∧ cache_of h2 (length (nodes h)) = Some rs).
Proof.
  intros Hn Ha Hc Hne Ht.
  unfold call_tests in Ht.
  destruct (rounds (Call a args kwargs)) as [[|r rs]|] eqn:Hrounds; try done.
  injection Ht as <-.
  unfold call_method, Query_getattr, func_wrapper. rewrite Hn.
  cbn [mbind option_bind]. rewrite Ha, dict_get_std. cbn [mbind option_bind].
  unfold Query_init. cbn [alloc_list alloc_node fst snd].
  rewrite (run_action_rounds _ _ _ _ _ _ Hrounds), fold_wrap.
  cbn [nodes gens cells lists].
  unfold Query_set_result. cbn [nodes]. rewrite lookup_snoc_new.
  cbn [mbind option_bind _cached_result _parent _actions].
  set (G := length (gens h)). set (c := length (cells h)).
  set (v := (default r (last rs)).2). set (ks := map fst (r :: rs)).
  set (lP := _cached_result n) in *.
  set (h1 := set_node _ _ _).
  assert (lP < length (lists h)) as HlP by (by apply lookup_lt_Some in Hc).
  assert (nodes h1 !! p = Some n) as Hn1.
  { simpl. by apply lookup_insert_snoc_old. }
  assert (InvR G p lP xs (exp_stack G c v ks []) [] xs h1) as HI.
  { apply InvR_exp_stack; try done.
    - simpl. split_and!; try done.
      + by apply lookup_app_l_Some.
      + right. split_and!; try done; [by apply list_lookup_middle|by exists n].
    - intros g Hin. apply list_elem_of_singleton in Hin. simpl in Hin. lia.
    - intros i k Hi. simpl.
      rewrite lookup_app_r by (fold G; lia).
      replace (G + 1 + i - length (gens h)) with (S i) by (unfold G; lia).
      simpl. unfold exp_gens. rewrite list_lookup_imap. fold ks. by rewrite Hi.
    - simpl. apply lookup_snoc_new. }
  edestruct (py_list_over_cache G p lP xs (length (nodes h)) (length (lists h))
               (exp_stack G c v ks []) h1) as (fuel & h2 & Hp & Hnodes & Hcs);
    try exact HI.
  - simpl. apply lookup_insert_snoc_new.
  - done.
  - cbn [_result]. rewrite (src_ible_exp_stackR G G c v ks [] []) by done.
    unfold ks. by rewrite length_map.
  - simpl. apply lookup_snoc_new.
  - rewrite lids_exp_stack. apply not_elem_of_nil.
  - lia.
  - assert (tests_of (exp_stack G c v ks []) = rev (applied (r :: rs))) as Hts.
    { rewrite tests_of_exp_stack. simpl. rewrite app_nil_r. f_equal.
      rewrite last_applied. by fold v ks. }
    rewrite Hts in Hp, Hcs.
    exists h1, fuel, h2. split_and!; try done.
    intros rs' Hrs. destruct (Hcs rs' Hrs) as (HlP' & Hq & _). split; [|done].
    unfold cache_of. rewrite Hnodes, Hn1. done.
Qed.


(** ** A view above a node that was iterated first *)

Lemma exp_stack_app G c v ks : ∀ base1 base2,
  exp_stack G c v ks (base1 ++ base2) = exp_stack G c v ks base1 ++ base2.
Proof.
  revert G. induction ks as [|k ks IH]; intros G base1 base2; simpl; [done|].
  by rewrite <- IH.
Qed.

Lemma tests_of_app stk1 stk2 :
  tests_of (stk1 ++ stk2) = tests_of stk1 ++ tests_of stk2.
Proof.
  induction stk1 as [|[g q l|g k c v] stk1 IH]; simpl; [done|done|].
  by rewrite IH.
Qed.

Lemma lids_app stk1 stk2 : lids (stk1 ++ stk2) = lids stk1 ++ lids stk2.
Proof.
  induction stk1 as [|[g q l|g k c v] stk1 IH]; simpl; [done| |done].
  by rewrite IH.
Qed.

Lemma src_it_over (upper : list (layer (obj := obj))) ly lower todo todo' :
  src_it (upper ++ ly :: lower) todo = src_it (on_base (lgid ly) upper) todo'.
Proof. by destruct upper. Qed.

Lemma src_ible_over (upper : list (layer (obj := obj))) ly lower todo todo' :
  src_ible (upper ++ ly :: lower) todo = src_ible (on_base (lgid ly) upper) todo'.
Proof. by destruct upper. Qed.

Lemma View_extends q l below src h h' :
  extends h h' → View q l below src h → View q l below src h'.
Proof.
  intros Hext ((n & Hn & Hl & Hr & Ha) & Hc & Hlb & HI).
  pose proof Hext as (E1 & E2 & E3 & E4).
  split_and!; try done; [|by apply E4|by apply (Inv_extends _ _ _ h)].
  exists n. split_and!; try done. by apply E1.
Qed.

(** The generators and lists of the upper part of a stack are not among
    those of the lower part. *)
Lemma Inv_upper_apart (upper lower : list (layer (obj := obj))) done todo h :
  Inv (upper ++ lower) done todo h →
  (∀ g, g ∈ gids upper → g ∉ gids lower) ∧
  (∀ l, l ∈ lids upper → l ∉ lids lower).
Proof.
  induction upper as [|[g' q l'|g' k c v] upper IH]; simpl.
  - intros _. split; intros ? Hin; by apply elem_of_nil in Hin.
  - intros (_ & _ & Hg & Hl & Hrest). destruct (IH Hrest) as [IHg IHl].
    unfold gids in Hg. rewrite map_app in Hg. rewrite lids_app in Hl.
    apply not_elem_of_app in Hg as [_ Hg]. apply not_elem_of_app in Hl as [_ Hl].
    split; intros ? Hin; apply elem_of_cons in Hin as [->|Hin]; auto.
  - intros (_ & _ & Hg & Hrest). destruct (IH Hrest) as [IHg IHl].
    unfold gids in Hg. rewrite map_app in Hg.
    apply not_elem_of_app in Hg as [_ Hg].
    split; [|done]. intros ? Hin; apply elem_of_cons in Hin as [->|Hin]; auto.
Qed.

(** The upper part of a stack none of whose generators has started,
    over a node [q] whose cache was filled in the meantime: a stack over
    the replayed cache. *)
Lemma Inv_over_cache G q l xs (lower : list (layer (obj := obj))) src :
  ∀ (upper : list (layer (obj := obj))) h h',
  Inv (upper ++ LNode G q l :: lower) [] src h →
  nodes h' = nodes h → cells h' = cells h →
  (∀ g, g ∈ gids upper → gens h' !! g = gens h !! g) →
  (∀ l0, l0 ∈ lids upper → lists h' !! l0 = lists h !! l0) →
  InvR G q l xs [] [] xs h' →
  InvR G q l xs upper [] xs h'.
Proof.
  induction upper as [|[g q0 l0|g k c v] upper IH];
    intros h h' HI Hnodes Hcells Hgens Hlists Hbase; [done|..].
  - cbn [app Inv] in HI.
    destruct HI as ((n & Hn & Hl & Hst) & Hc & Hg & Hlb & Hrest).
    cbn [InvR].
    rewrite (src_it_over upper (LNode G q l) lower src xs) in Hst.
    rewrite (src_ible_over upper (LNode G q l) lower src xs) in Hst.
    cbn [lgid] in Hst.
    unfold gids in Hg. rewrite map_app in Hg. rewrite lids_app in Hlb.
    apply not_elem_of_app in Hg as [Hg1 Hg2]. apply not_elem_of_app in Hlb as [Hl1 Hl2].
    apply not_elem_of_cons in Hg2 as [Hg2 _]. apply not_elem_of_cons in Hl2 as [Hl2 _].
    split_and!.
    + exists n. split_and!; [by rewrite Hnodes|done|].
      rewrite Hgens by (apply elem_of_cons; by left).
      destruct Hst as [Hst|(Hst & _ & Hr)]; [by left|right]. done.
    + rewrite Hlists by (apply elem_of_cons; by left). done.
    + rewrite gids_on_base. apply not_elem_of_app. split; [done|].
      apply not_elem_of_cons. split; [done|apply not_elem_of_nil].
    + done.
    + done.
    + apply (IH h); try done.
      * intros g0 Hin. apply Hgens. apply elem_of_cons. by right.
      * intros l1 Hin. apply Hlists. apply elem_of_cons. by right.
  - cbn [app Inv] in HI. destruct HI as (Hst & Hc & Hg & Hrest).
    cbn [InvR].
    rewrite (src_it_over upper (LNode G q l) lower src xs) in Hst.
    cbn [lgid] in Hst.
    unfold gids in Hg. rewrite map_app in Hg.
    apply not_elem_of_app in Hg as [Hg1 Hg2].
    apply not_elem_of_cons in Hg2 as [Hg2 _].
    split_and!.
    + rewrite Hgens by (apply elem_of_cons; by left). done.
    + by rewrite Hcells.
    + rewrite gids_on_base. apply not_elem_of_app. split; [done|].
      apply not_elem_of_cons. split; [done|apply not_elem_of_nil].
    + apply (IH h); try done.
      intros g0 Hin. apply Hgens. apply elem_of_cons. by right.
Qed.

(** [view_call], with the stack it builds. *)
Lemma view_call_stack q l below src h a args kwargs ts :
  View q l below src h →
  call_tests (Call a args kwargs) = Some ts →
  ∃ h' l' upper,
    call_method q (action_name a) args kwargs h = Some (Ok (h', length (nodes h))) ∧
    View (length (nodes h)) l' (upper ++ LNode (length (gens h)) q l :: below)
      src h' ∧
    extends h h' ∧ length (nodes h') = S (length (nodes h)) ∧
    length (gens h) < length (gens h') ∧
    gens h' !! length (gens h) = Some (QIterStart q) ∧
    tests_of upper = rev ts.
Proof.
  intros ((n & Hn & Hl & Hr & Ha) & Hc & Hlb & HI) Ht.
  unfold call_tests in Ht.
  destruct (rounds (Call a args kwargs)) as [[|r rs]|] eqn:Hrounds; try done.
  injection Ht as <-.
  unfold call_method, Query_getattr, func_wrapper. rewrite Hn.
  cbn [mbind option_bind]. rewrite Ha, dict_get_std. cbn [mbind option_bind].
  unfold Query_init. cbn [alloc_list alloc_node fst snd].
  rewrite (run_action_rounds _ _ _ _ _ _ Hrounds), fold_wrap.
  cbn [nodes gens cells lists].
  unfold Query_set_result. cbn [nodes]. rewrite lookup_snoc_new.
  cbn [mbind option_bind _cached_result _parent _actions].
  set (G := length (gens h)). set (c := length (cells h)).
  set (v := (default r (last rs)).2). set (ks := map fst (r :: rs)).
  set (h' := set_node _ _ _).
  assert (extends h h') as Hext.
  { split_and!; simpl; intros i y E.
    - by apply lookup_insert_snoc_old.
    - by apply lookup_app_l_Some.
    - by apply lookup_app_l_Some.
    - by apply lookup_app_l_Some. }
  assert (∀ g, g ∈ gids below → g < G) as Hgs.
  { intros g. by apply (Inv_gids_lt _ _ _ _ _ HI). }
  assert (∀ l, l ∈ lids below → l < length (lists h)) as Hls.
  { intros l0. by apply (Inv_lids_lt _ _ _ _ _ HI). }
  exists h', (length (lists h)), (exp_stack G c v ks []).
  rewrite <- (exp_stack_app G c v ks [] (LNode G q l :: below)). cbn [app].
  split_and!; try done.
  - split_and!.
    + eexists. split_and!; [apply lookup_insert_snoc_new|try done..].
      cbn [_result]. rewrite (src_ible_exp_stack G c v ks) by done.
      unfold ks. by rewrite length_map.
    + simpl. apply lookup_snoc_new.
    + rewrite lids_exp_stack. simpl. intros Hin.
      apply elem_of_cons in Hin as [Heq|Hin].
      * apply lookup_lt_Some in Hc. lia.
      * apply Hls in Hin. lia.
    + apply Inv_exp_stack; try done.
      * simpl. split_and!; try done.
        -- exists n. split_and!; try done.
           ++ by apply lookup_insert_snoc_old.
           ++ right. split_and!; try done. by apply list_lookup_middle.
        -- by apply lookup_app_l_Some.
        -- intros Hin. apply Hgs in Hin. lia.
        -- by apply (Inv_extends _ _ _ h).
      * intros g Hin. simpl in Hin. apply elem_of_cons in Hin as [->|Hin]; [lia|].
        apply Hgs in Hin. lia.
      * intros i k Hi. simpl.
        rewrite lookup_app_r by (fold G; lia).
        replace (G + 1 + i - length (gens h)) with (S i) by (unfold G; lia).
        simpl. unfold exp_gens. rewrite list_lookup_imap. fold ks. by rewrite Hi.
      * simpl. apply lookup_snoc_new.
  - simpl. rewrite length_insert, length_app. simpl. lia.
  - simpl. rewrite length_app. simpl. fold G. lia.
  - simpl. by apply list_lookup_middle.
  - rewrite tests_of_exp_stack. simpl. rewrite app_nil_r. f_equal.
    rewrite last_applied. by fold v ks.
Qed.

Lemma chain_stack calls tss : ∀ c ts q l below src h,
  View q l below src h → S q = length (nodes h) →
  call_tests c = Some ts →
  Forall2 (λ c ts, call_tests c = Some ts) calls tss →
  ∃ h' l' upper,
    chain (c :: calls) q h = Some (Ok (h', q + S (length calls))) ∧
    View (q + S (length calls)) l'
      (upper ++ LNode (length (gens h)) q l :: below) src h' ∧
    extends h h' ∧ length (gens h) < length (gens h') ∧
    gens h' !! length (gens h) = Some (QIterStart q) ∧
    tests_of upper = rev (concat (ts :: tss)).
Proof.
  intros c ts q l below src h HV Hq Ht Hall. revert c ts q l below h HV Hq Ht.
  induction Hall as [|c' ts' calls tss Ht' Hall IH];
    intros [a args kwargs] ts q l below h HV Hq Ht.
  - destruct (view_call_stack _ _ _ _ _ _ _ _ _ HV Ht)
      as (h1 & l1 & E & Hcall & HV1 & Hext1 & Hlen1 & Hg1 & HG & Hts).
    rewrite <- Hq in *.
    exists h1, l1, E. cbn [chain length concat]. rewrite Hcall.
    rewrite Nat.add_1_r, app_nil_r. split_and!; done.
  - destruct (view_call_stack _ _ _ _ _ _ _ _ _ HV Ht)
      as (h1 & l1 & E & Hcall & HV1 & Hext1 & Hlen1 & Hg1 & HG & Hts).
    rewrite <- Hq in *.
    destruct (IH c' ts' _ _ _ _ HV1 ltac:(lia) Ht')
      as (h' & l' & upper & Hch & HV' & Hext' & Hg' & HG' & Hts').
    exists h', l', (upper ++ LNode (length (gens h1)) (S q) l1 :: E).
    cbn [chain length]. rewrite Hcall.
    replace (q + S (S (length calls))) with (S q + S (length calls)) by lia.
    split_and!.
    + done.
    + by rewrite <- app_assoc.
    + by eapply extends_trans.
    + lia.
    + destruct Hext' as (_ & E2 & _). by apply E2.
    + rewrite tests_of_app. cbn [tests_of]. rewrite Hts', Hts.
      cbn [concat]. by rewrite (rev_app_distr ts).
Qed.

Lemma chain_nodes calls : ∀ q h h' q',
  chain calls q h = Some (Ok (h', q')) →
  length (nodes h') = length (nodes h) + length calls.
Proof.
  induction calls as [|[a args kwargs] calls IH]; intros q h h' q'; simpl.
  - intros [= <- <-]. lia.
  - destruct (call_method q (action_name a) args kwargs h)
      as [[[h1 q1]|e]|] eqn:Hcall; try done.
    intros Hch. rewrite (IH _ _ _ _ Hch).
    apply call_method_wrapper in Hcall as [a' Hw].
    destruct (func_wrapper_store _ _ _ _ _ _ _ Hw) as (n & r & _ & _ & Hnodes & _).
    rewrite Hnodes, length_app. simpl. lia.
Qed.



Lemma no_raise_app src ts1 ts2 :
  no_raise src (ts1 ++ ts2) = true →
  no_raise src ts1 = true ∧ no_raise src ts2 = true.
Proof.
  unfold no_raise. induction src as [|x src IH]; simpl; [done|].
  rewrite forallb_app. intros [[H1 H2]%andb_true_iff Hrest]%andb_true_iff.
  destruct (IH Hrest) as [IH1 IH2]. by rewrite H1, H2, IH1, IH2.
Qed.

Lemma no_raise_filter (f : obj → bool) src ts :
  no_raise src ts = true → no_raise (List.filter f src) ts = true.
Proof.
  unfold no_raise. induction src as [|x src IH]; simpl; [done|].
  intros [H1 Hrest]%andb_true_iff. destruct (f x); simpl; [|by apply IH].
  by rewrite H1, IH.
Qed.

Lemma filter_filter_app (f : obj → test → bool) ts1 ts2 src :
  List.filter (λ x, forallb (f x) ts2) (List.filter (λ x, forallb (f x) ts1) src) =
  List.filter (λ x, forallb (f x) (ts1 ++ ts2)) src.
Proof.
  induction src as [|x src IH]; simpl; [done|]. rewrite forallb_app.
  destruct (forallb (f x) ts1); simpl; [|done].
  by destruct (forallb (f x) ts2); rewrite IH.
Qed.

(** X16. A view built on a node that already has cached elements gives
    the cached elements that pass its tests, and nothing else: the
    generator created for the node replays the cache, which stays as it
    is, whether it holds all the node would give or only the part a
    partial iteration left. *)
Theorem derived_view_reads_the_cache (h : heap (obj := obj)) (p : nat)
    (n : Query) (xs : list obj) (a : action)
    (args : list (pyval (obj := obj))) (kwargs : list (string * pyval))
    (ts : list test) :
  nodes h !! p = Some n → _actions n = std_actions →
  cache_of h p = Some xs → xs ≠ [] →
  call_tests (Call a args kwargs) = Some ts → no_raise xs ts = true →
  ∃ h1 q fuel h2,
    call_method p (action_name a) args kwargs h = Some (Ok (h1, q)) ∧
    py_list fuel q h1 =
      Some (h2, Ok (List.filter (λ x, forallb (holds x) ts) xs)) ∧
    cache_of h2 p = Some xs ∧
    cache_of h2 q = Some (List.filter (λ x, forallb (holds x) ts) xs).
Proof.
  intros Hn Ha Hc Hne Ht Hnr.
  unfold cache_of in Hc. rewrite Hn in Hc. cbn [mbind option_bind] in Hc.
  destruct (cached_call _ _ _ _ _ _ _ _ Hn Ha Hc Hne Ht)
    as (h1 & fuel & h2 & Hcall & Hp & Hcs).
  rewrite (run_no_raise _ _ Hnr) in Hp, Hcs.
  destruct (Hcs _ eq_refl) as [Hc1 Hc2].
  eexists h1, _, fuel, h2. split_and!; done.
Qed.

(** X17. Iterating a node of a chain first does not change what the
    views above it give: a view built before gives the same elements when
    it is iterated afterwards, now taken from the cache of the node, which
    its own generator for the node replays. *)
Theorem view_after_its_ancestor (h0 : heap (obj := obj)) (src : list obj)
    (calls1 : list call) (tss1 : list (list test))
    (c : call) (calls2 : list call) (tss2 : list (list test)) :
  calls_tests calls1 = Some tss1 → calls_tests (c :: calls2) = Some tss2 →
  no_raise src (concat tss1 ++ concat tss2) = true →
  List.filter (λ x, forallb (holds x) (concat tss1)) src ≠ [] →
  ∃ h1 Q h2 a h3 d fa h4 fd h5,
    bound_root src h0 = Some (h1, Q) ∧
    chain calls1 Q h1 = Some (Ok (h2, a)) ∧
    chain (c :: calls2) a h2 = Some (Ok (h3, d)) ∧
    py_list fa a h3 =
      Some (h4, Ok (List.filter (λ x, forallb (holds x) (concat tss1)) src)) ∧
    py_list fd d h4 =
      Some (h5, Ok (List.filter
                      (λ x, forallb (holds x) (concat tss1 ++ concat tss2))
                      src)) ∧
    cache_of h5 a =
      Some (List.filter (λ x, forallb (holds x) (concat tss1)) src).
Proof.
  intros Hct1 Hct2 Hnr Hne.
  destruct (no_raise_app _ _ _ Hnr) as [Hnr1 Hnr2].
  set (xs := List.filter (λ x, forallb (holds x) (concat tss1)) src) in *.
  (* the root and the first chain *)
  destruct (bound_root_view src h0) as (h1 & l0 & Hroot & HV0 & _ & Hlen).
  destruct (chain_view calls1 tss1 _ _ _ _ _ HV0 ltac:(lia)
              (calls_tests_Forall2 _ _ Hct1))
    as (h2 & la & below & Hch1 & HVa & _ & Htsa & _).
  cbn [tests_of] in Htsa. rewrite app_nil_r in Htsa.
  pose proof (chain_nodes _ _ _ _ _ Hch1) as Hn2.
  set (a := length (nodes h0) + length calls1) in *.
  (* the second chain, with the stack it builds *)
  cbn [calls_tests] in Hct2.
  destruct (call_tests c) as [ts|] eqn:Htc; [|done].
  destruct (calls_tests calls2) as [tss2'|] eqn:Hct2'; [|done].
  injection Hct2 as <-.
  destruct (chain_stack calls2 tss2' c ts a la below src h2 HVa ltac:(lia) Htc
              (calls_tests_Forall2 _ _ Hct2'))
    as (h3 & lv & upper & Hch2 & HVv & Hext & HGlt & HG & Htsu).
  set (G := length (gens h2)) in *.
  set (d := a + S (length calls2)) in *.
  (* the ancestor is iterated *)
  pose proof (View_extends _ _ _ _ _ _ Hext HVa) as HVa3.
  destruct (py_list_view _ _ _ _ _ HVa3) as (fa & h4 & Hpa & Hf & HF).
  rewrite Htsa, (run_no_raise _ _ Hnr1) in Hpa, HF. fold xs in Hpa, HF.
  specialize (HF _ eq_refl).
  destruct HF as (_ & (na & Hna & Hla) & Hca & _).
  assert (List.filter (passes (tests_of below)) src = xs) as Hxs.
  { unfold xs. apply List.filter_ext. intros x. by rewrite Htsa, passes_rev. }
  rewrite Hxs in Hca.
  destruct Hf as (F1 & F2 & F3 & F4 & F5 & F6).
  cbn [alloc_gen fst nodes cells gens lists] in F1, F2, F5, F6.
  pose proof HVv as ((nv & Hnv & Hlv & Hrv & _) & Hcv & Hlbv & HIv).
  pose proof HVa as (_ & _ & _ & HIa).
  destruct (Inv_upper_apart _ _ _ _ _ HIv) as [Hgu Hlu].
  assert (∀ g, g ∈ gids upper → g < length (gens h3)) as Hgu3.
  { intros g Hin. apply (Inv_gids_lt _ _ _ _ _ HIv).
    unfold gids. rewrite map_app. apply elem_of_app. by left. }
  assert (∀ g, g < length (gens h3) → g ∉ gids below →
               gens h4 !! g = gens h3 !! g) as Hg4.
  { intros g Hlt Hnin. rewrite F5.
    - by rewrite lookup_app_l.
    - cbn [gids map lgid]. apply not_elem_of_cons. split; [lia|done]. }
  assert (G ∉ gids below) as HGb.
  { intros Hin. apply (Inv_gids_lt _ _ _ _ _ HIa) in Hin. unfold G in Hin. lia. }
  assert (InvR G a la xs [] [] xs h4) as Hbase.
  { cbn [InvR]. split_and!; try done. right. split_and!; try done.
    - by rewrite Hg4.
    - by exists na. }
  assert (InvR G a la xs upper [] xs h4) as HIR.
  { apply (Inv_over_cache G a la xs below src upper h3); try done.
    - intros g Hin. apply Hg4; [by apply Hgu3|].
      intros Hb. apply (Hgu g Hin). cbn [gids map]. apply elem_of_cons. by right.
    - intros l1 Hin. apply F6. by apply Hlu. }
  (* the view is iterated *)
  assert ((lv ∉ lids upper) ∧ (lv ∉ la :: lids below)) as [Hlv1 Hlv2].
  { rewrite lids_app in Hlbv. by apply not_elem_of_app in Hlbv. }
  destruct (py_list_over_cache G a la xs d lv upper h4 nv)
    as (fv & h5 & Hpv & Hn5 & Hcs); try done.
  - by rewrite F1.
  - by rewrite Hrv, (src_ible_over upper (LNode G a la) below src []).
  - by rewrite F6.
  - by apply not_elem_of_cons in Hlv2 as [? _].
  - rewrite Htsu in Hpv, Hcs.
    assert (no_raise xs (concat (ts :: tss2')) = true) as Hnr2'
      by (by apply no_raise_filter).
    rewrite (run_no_raise _ _ Hnr2') in Hpv, Hcs.
    destruct (Hcs _ eq_refl) as (Hla5 & _).
    unfold xs in Hpv. rewrite filter_filter_app in Hpv.
    eexists h1, _, h2, a, h3, d, fa, h4, fv, h5. split_and!; try done.
    unfold cache_of. rewrite Hn5, Hna. cbn [mbind option_bind].
    by rewrite Hla.
Qed.

End QuandryMore.

(** ** The further properties on concrete data *)

Lemma views_inherit_operations_witness :
  let h := (default (empty_heap, 0)
              (bound_root (ints [1; 2; 3]%Z) empty_heap)).1 in
  let n := mkQuery (Some (IList (ints [1; 2; 3]%Z))) 1 None std_actions in
  let r := default (h, 0) (ok (call_method 0 "filter" [gt 1] [] h)) in
  nodes h !! 0 = Some n ∧
  _actions n = make_actions [ActFilter; ActExclude] ∧
  call_method 0 "filter" [gt 1] [] h = Some (Ok (r.1, r.2)) ∧
  (∃ n', nodes r.1 !! r.2 = Some n' ∧ _actions n' = _actions n) ∧
  ∀ name', Query_getattr r.2 name' r.1 = Query_getattr 0 name' h.
Proof.
  intros h n r. split; [reflexivity|]. split; [reflexivity|].
  split; [reflexivity|].
  exact (views_inherit_operations h 0 n [ActFilter; ActExclude] "filter"
           [gt 1] [] r.1 r.2 eq_refl eq_refl eq_refl).
Defined.

Lemma operation_call_builds_lazily_witness :
  let h := (default (empty_heap, 0)
              (bound_root (ints [1; 2; 3]%Z) empty_heap)).1 in
  let r := default (h, 0) (ok (call_method 0 "exclude" [VObj (PInt 2%Z)] [] h)) in
  call_method 0 "exclude" [VObj (PInt 2%Z)] [] h = Some (Ok (r.1, r.2)) ∧
  r.2 = length (nodes h) ∧ extends h r.1 ∧
  length (nodes r.1) = S (length (nodes h)) ∧
  length (lists r.1) = S (length (lists h)) ∧
  ∃ n' res,
    nodes r.1 !! r.2 = Some n' ∧
    _parent n' = Some 0 ∧ _result n' = Some res ∧
    _cached_result n' = length (lists h) ∧
    lists r.1 !! length (lists h) = Some [].
Proof.
  intros h r. split; [reflexivity|].
  exact (operation_call_builds_lazily h 0 "exclude" [VObj (PInt 2%Z)] []
           r.1 r.2 eq_refl).
Defined.

Lemma filter_requires_callables_witness :
  let h := (default (empty_heap, 0)
              (bound_root (ints [1; 2; 3]%Z) empty_heap)).1 in
  let n := mkQuery (Some (IList (ints [1; 2; 3]%Z))) 1 None std_actions in
  nodes h !! 0 = Some n ∧
  dict_get "filter" (_actions n) = Some ActFilter ∧
  gives_result_twice [("result"%string, gt 1)] = true ∧
  call_method 0 "filter" [] [("result"%string, gt 1)] h =
    Some (Raise TypeError) ∧
  gives_result_twice ([] : list (string * pyval (obj := pyobj))) = false ∧
  forallb callable
    ([gt 1; VObj (PInt 3%Z)] ++
     map snd ([] : list (string * pyval (obj := pyobj)))) = false ∧
  call_method 0 "filter" [gt 1; VObj (PInt 3%Z)] [] h =
    Some (Raise NotImplementedError) ∧
  gives_result_twice [("big"%string, gt 2)] = false ∧
  forallb callable ([gt 1] ++ map snd [("big"%string, gt 2)]) = true ∧
  ∃ h' q',
    call_method 0 "filter" [gt 1] [("big"%string, gt 2)] h = Some (Ok (h', q')).
Proof.
  intros h n. split; [reflexivity|]. split; [reflexivity|].
  split; [reflexivity|]. split.
  { exact (proj1 (filter_requires_callables h 0 n [] [("result"%string, gt 1)]
                    eq_refl eq_refl) eq_refl). }
  split; [reflexivity|]. split; [reflexivity|]. split.
  { exact (proj1 (proj2 (filter_requires_callables h 0 n
                           [gt 1; VObj (PInt 3%Z)] [] eq_refl eq_refl))
             eq_refl eq_refl). }
  split; [reflexivity|]. split; [reflexivity|].
  exact (proj2 (proj2 (filter_requires_callables h 0 n [gt 1]
                         [("big"%string, gt 2)] eq_refl eq_refl))
           eq_refl eq_refl).
Defined.

Lemma exclude_requires_named_callables_witness :
  let h := (default (empty_heap, 0)
              (bound_root (ints [1; 2; 3]%Z) empty_heap)).1 in
  let n := mkQuery (Some (IList (ints [1; 2; 3]%Z))) 1 None std_actions in
  nodes h !! 0 = Some n ∧
  dict_get "exclude" (_actions n) = Some ActExclude ∧
  gives_result_twice [("result"%string, gt 1)] = true ∧
  call_method 0 "exclude" [] [("result"%string, gt 1)] h =
    Some (Raise TypeError) ∧
  gives_result_twice [("key"%string, VObj (PInt 3%Z))] = false ∧
  forallb callable (map snd [("key"%string, VObj (PInt 3%Z))]) = false ∧
  call_method 0 "exclude" [VObj (PInt 1%Z)] [("key"%string, VObj (PInt 3%Z))] h =
    Some (Raise NotImplementedError) ∧
  gives_result_twice [("big"%string, gt 2)] = false ∧
  forallb callable (map snd [("big"%string, gt 2)]) = true ∧
  ∃ h' q',
    call_method 0 "exclude" [VObj (PInt 1%Z); gt 1] [("big"%string, gt 2)] h =
      Some (Ok (h', q')).
Proof.
  intros h n. split; [reflexivity|]. split; [reflexivity|].
  split; [reflexivity|]. split.
  { exact (proj1 (exclude_requires_named_callables h 0 n []
                    [("result"%string, gt 1)] eq_refl eq_refl) eq_refl). }
  split; [reflexivity|]. split; [reflexivity|]. split.
  { exact (proj1 (proj2 (exclude_requires_named_callables h 0 n
                           [VObj (PInt 1%Z)] [("key"%string, VObj (PInt 3%Z))]
                           eq_refl eq_refl))
             eq_refl eq_refl). }
  split; [reflexivity|]. split; [reflexivity|].
  exact (proj2 (proj2 (exclude_requires_named_callables h 0 n
                         [VObj (PInt 1%Z); gt 1] [("big"%string, gt 2)]
                         eq_refl eq_refl))
           eq_refl eq_refl).
Defined.

Lemma filter_named_as_positional_witness :
  let h := (default (empty_heap, 0)
              (bound_root (ints [1; 2; 3]%Z) empty_heap)).1 in
  gives_result_twice [("big"%string, gt 2)] = false ∧
  func_wrapper ActFilter 0 [gt 1] [("big"%string, gt 2)] h =
  func_wrapper ActFilter 0 ([gt 1] ++ map snd [("big"%string, gt 2)]) [] h.
Proof.
  intros h. split; [reflexivity|].
  exact (filter_named_as_positional h 0 [gt 1] [("big"%string, gt 2)] eq_refl).
Defined.

Lemma filter_tests_with_last_predicate_witness :
  forallb (λ x, is_ok (Value_lt value (PInt 3%Z) x)) (ints [1; 2; 3]%Z) = true ∧
  ∃ h1 Q h2 q fuel h3,
    bound_root (ints [1; 2; 3]%Z) empty_heap = Some (h1, Q) ∧
    call_method Q "filter"
      (map VFun ([Value_gt value (PInt 1%Z)] ++ [Value_lt value (PInt 3%Z)]))
      [] h1 = Some (Ok (h2, q)) ∧
    py_list fuel q h2 = Some (h3, Ok (ints [1; 2]%Z)).
Proof.
  split; [reflexivity|].
  exact (filter_tests_with_last_predicate empty_heap (ints [1; 2; 3]%Z)
           [Value_gt value (PInt 1%Z)] (Value_lt value (PInt 3%Z)) eq_refl).
Defined.

Lemma chained_filters_keep_where_all_hold_witness :
  forallb (λ x, forallb (λ f : pyobj → res bool, is_ok (f x))
                  [Value_gt value (PInt 1%Z); Value_lt value (PInt 3%Z)])
    (ints [1; 2; 3]%Z) = true ∧
  ∃ h1 Q h2 q fuel h3,
    bound_root (ints [1; 2; 3]%Z) empty_heap = Some (h1, Q) ∧
    chain (map (λ f, Call ActFilter [VFun f] [])
             [Value_gt value (PInt 1%Z); Value_lt value (PInt 3%Z)]) Q h1 =
      Some (Ok (h2, q)) ∧
    py_list fuel q h2 = Some (h3, Ok (ints [2]%Z)).
Proof.
  split; [reflexivity|].
  exact (chained_filters_keep_where_all_hold empty_heap (ints [1; 2; 3]%Z)
           [Value_gt value (PInt 1%Z); Value_lt value (PInt 3%Z)] eq_refl).
Defined.

Lemma call_without_argument_is_transparent_witness :
  calls_tests [Call ActFilter [gt 1] []] = Some [[(CondCall, gt 1)]] ∧
  no_raise (ints [1; 2; 3]%Z) (concat [[(CondCall, gt 1)]]) = true ∧
  ∃ h1 Q h2 q h3 q' fuel h4 rs,
    bound_root (ints [1; 2; 3]%Z) empty_heap = Some (h1, Q) ∧
    chain [Call ActFilter [gt 1] []] Q h1 = Some (Ok (h2, q)) ∧
    call_method q (action_name ActExclude) [] [] h2 = Some (Ok (h3, q')) ∧
    py_list fuel q' h3 = Some (h4, Ok rs) ∧
    rs = ints [2; 3]%Z ∧
    cache_of h4 q = Some rs ∧ cache_of h4 q' = Some rs.
Proof.
  split; [reflexivity|]. split; [reflexivity|].
  exact (call_without_argument_is_transparent empty_heap (ints [1; 2; 3]%Z)
           [Call ActFilter [gt 1] []] [[(CondCall, gt 1)]] ActExclude
           eq_refl eq_refl).
Defined.

Lemma binding_resets_the_node_witness :
  let h := (default (empty_heap, Ok [])
              (py_list 10 0
                 (default (empty_heap, 0)
                    (bound_root (ints [1; 2; 3]%Z) empty_heap)).1)).1 in
  let h1 := default h (Query_call 0 (IList (ints [7; 8]%Z)) h) in
  cache_of h 0 = Some (ints [1; 2; 3]%Z) ∧
  Query_call 0 (IList (ints [7; 8]%Z)) h = Some h1 ∧
  cache_of h1 0 = Some [] ∧
  ∃ fuel h2,
    py_list fuel 0 h1 = Some (h2, Ok (ints [7; 8]%Z)) ∧
    cache_of h2 0 = Some (ints [7; 8]%Z) ∧
    (∀ l xs, lists h !! l = Some xs → lists h2 !! l = Some xs) ∧
    (∀ q' n', q' ≠ 0 → nodes h !! q' = Some n' → nodes h2 !! q' = Some n').
Proof.
  intros h h1. split; [reflexivity|]. split; [reflexivity|].
  exact (binding_resets_the_node h 0 (ints [7; 8]%Z) h1 eq_refl).
Defined.

Lemma view_follows_a_later_binding_witness :
  call_tests (Call ActFilter [gt 1] []) = Some [(CondCall, gt 1)] ∧
  no_raise (ints [0; 7; 8]%Z) [(CondCall, gt 1)] = true ∧
  ∃ h1 Q h2 q h3 fuel h4,
    bound_root (ints [1; 2; 3]%Z) empty_heap = Some (h1, Q) ∧
    call_method Q (action_name ActFilter) [gt 1] [] h1 = Some (Ok (h2, q)) ∧
    Query_call Q (IList (ints [0; 7; 8]%Z)) h2 = Some h3 ∧
    py_list fuel q h3 = Some (h4, Ok (ints [7; 8]%Z)).
Proof.
  split; [reflexivity|]. split; [reflexivity|].
  exact (view_follows_a_later_binding empty_heap (ints [1; 2; 3]%Z)
           (ints [0; 7; 8]%Z) ActFilter [gt 1] [] [(CondCall, gt 1)]
           eq_refl eq_refl).
Defined.

Lemma iterating_without_result_raises_witness :
  let h := (Query_init [ActFilter; ActExclude] None
              (empty_heap (obj := pyobj))).1 in
  let n := mkQuery None 0 None std_actions in
  nodes h !! 0 = Some n ∧ lists h !! _cached_result n = Some [] ∧
  Query_result h 0 = Some None ∧
  py_list 2 0 h = Some ((alloc_gen GenDone h).1, Raise TypeError) ∧
  py_list 2 0 (alloc_gen GenDone h).1 =
    Some ((alloc_gen GenDone (alloc_gen GenDone h).1).1, Raise TypeError).
Proof.
  intros h n. split; [reflexivity|]. split; [reflexivity|].
  split; [reflexivity|].
  exact (iterating_without_result_raises h 0 n 0 eq_refl eq_refl eq_refl).
Defined.

Lemma exception_truncates_the_view_witness :
  calls_tests [Call ActFilter [gt 2] []] = Some [[(CondCall, gt 2)]] ∧
  no_raise (ints [1; 5]%Z) (concat [[(CondCall, gt 2)]]) = true ∧
  thr (rev (concat [[(CondCall, gt 2)]])) (Bleh 1 (PInt 9%Z)) = Raise TypeError ∧
  ∃ h1 Q h2 q fuel h3 fuel',
    bound_root (ints [1; 5]%Z ++ Bleh 1 (PInt 9%Z) :: ints [7]%Z) empty_heap =
      Some (h1, Q) ∧
    chain [Call ActFilter [gt 2] []] Q h1 = Some (Ok (h2, q)) ∧
    py_list fuel q h2 = Some (h3, Raise TypeError) ∧
    cache_of h3 q = Some (ints [5]%Z) ∧
    py_list fuel' q h3 = Some ((alloc_gen GenDone h3).1, Ok (ints [5]%Z)).
Proof.
  split; [reflexivity|]. split; [reflexivity|]. split; [reflexivity|].
  exact (exception_truncates_the_view empty_heap (ints [1; 5]%Z) (ints [7]%Z)
           (Bleh 1 (PInt 9%Z)) [Call ActFilter [gt 2] []]
           [[(CondCall, gt 2)]] TypeError eq_refl eq_refl eq_refl).
Defined.

Lemma derived_view_reads_the_cache_witness :
  let h := (default (empty_heap, Ok [])
              (partial_iter 10 2 0
                 (default (empty_heap, 0)
                    (bound_root (ints [1; 2; 3]%Z) empty_heap)).1)).1 in
  let n := mkQuery (Some (IList (ints [1; 2; 3]%Z))) 1 None std_actions in
  nodes h !! 0 = Some n ∧ _actions n = std_actions ∧
  cache_of h 0 = Some (ints [1; 2]%Z) ∧ ints [1; 2]%Z ≠ [] ∧
  call_tests (Call ActFilter [gt 1] []) = Some [(CondCall, gt 1)] ∧
  no_raise (ints [1; 2]%Z) [(CondCall, gt 1)] = true ∧
  ∃ h1 q fuel h2,
    call_method 0 (action_name ActFilter) [gt 1] [] h = Some (Ok (h1, q)) ∧
    py_list fuel q h1 = Some (h2, Ok (ints [2]%Z)) ∧
    cache_of h2 0 = Some (ints [1; 2]%Z) ∧
    cache_of h2 q = Some (ints [2]%Z).
Proof.
  intros h n.
  assert (ints [1; 2]%Z ≠ []) as Hne by discriminate.
  split; [reflexivity|]. split; [reflexivity|]. split; [reflexivity|].
  split; [exact Hne|]. split; [reflexivity|]. split; [reflexivity|].
  exact (derived_view_reads_the_cache h 0 n (ints [1; 2]%Z) ActFilter [gt 1] []
           [(CondCall, gt 1)] eq_refl eq_refl eq_refl Hne eq_refl eq_refl).
Defined.

Lemma view_after_its_ancestor_witness :
  calls_tests [Call ActFilter [gt 2] []] = Some [[(CondCall, gt 2)]] ∧
  calls_tests [Call ActFilter [gt 3] []; Call ActExclude [VObj (PInt 5%Z)] []] =
    Some [[(CondCall, gt 3)]; [(CondNe, VObj (PInt 5%Z))]] ∧
  no_raise (ints [1; 2; 3; 4; 5]%Z)
    (concat [[(CondCall, gt 2)]] ++
     concat [[(CondCall, gt 3)]; [(CondNe, VObj (PInt 5%Z))]]) = true ∧
  List.filter (λ x, forallb (holds x) (concat [[(CondCall, gt 2)]]))
    (ints [1; 2; 3; 4; 5]%Z) ≠ [] ∧
  ∃ h1 Q h2 a h3 d fa h4 fd h5,
    bound_root (ints [1; 2; 3; 4; 5]%Z) empty_heap = Some (h1, Q) ∧
    chain [Call ActFilter [gt 2] []] Q h1 = Some (Ok (h2, a)) ∧
    chain [Call ActFilter [gt 3] []; Call ActExclude [VObj (PInt 5%Z)] []] a h2 =
      Some (Ok (h3, d)) ∧
    py_list fa a h3 = Some (h4, Ok (ints [3; 4; 5]%Z)) ∧
    py_list fd d h4 = Some (h5, Ok (ints [4]%Z)) ∧
    cache_of h5 a = Some (ints [3; 4; 5]%Z).
Proof.
  assert (List.filter (λ x, forallb (holds x) (concat [[(CondCall, gt 2)]]))
            (ints [1; 2; 3; 4; 5]%Z) ≠ []) as Hne by discriminate.
  split; [reflexivity|]. split; [reflexivity|]. split; [reflexivity|].
  split; [exact Hne|].
  exact (view_after_its_ancestor empty_heap (ints [1; 2; 3; 4; 5]%Z)
           [Call ActFilter [gt 2] []] [[(CondCall, gt 2)]]
           (Call ActFilter [gt 3] []) [Call ActExclude [VObj (PInt 5%Z)] []]
           [[(CondCall, gt 3)]; [(CondNe, VObj (PInt 5%Z))]]
           eq_refl eq_refl eq_refl Hne).
Defined.
